(** * A Huffman file compressor: shallow embedding of [huffman.cpp]

    The development follows the source file function by function:
    [buildFrequencyTable], [buildHuffmanTree], [generateCodes],
    [writeHeader], [writeCompressedData], [compress], [readHeader],
    [decodeData] and [decompress].

    Conventions.
    - A file is a [list byte].  A C++ [char] is the byte that represents
      it; its numeric value ([char_value]) depends on whether [char] is
      signed, which the language leaves to the platform.
    - [unsigned] is 32 bits wide and wraps around, [size_t] is 64 bits
      wide, and integers are stored little-endian (the LP64 ABI of x86-64
      and AArch64).
    - [std::map<char, V>] is a [gmap char V]; iterating over it visits
      the keys in ascending [char] order.
    - [std::shared_ptr<HuffmanNode>] is either [null] or [ptr n].
    - A result of type [option] is [None] when the C++ program would have
      undefined behaviour (dereferencing an empty pointer, [top()] of an
      empty queue), or when a loop modelled with fuel has used it up; the
      latter is shown never to happen. *)

From Stdlib Require Import ZArith Strings.Byte Ascii String List Lia Permutation.
From stdpp Require Import base option gmap list strings sorting.

Local Open Scope Z_scope.

(** ** Bytes and [char] *)

Abbreviation char := byte.

#[global] Instance byte_eq_dec : EqDecision byte := Byte.byte_eq_dec.

Definition byte_of_N (n : N) : byte :=
  match Byte.of_N n with Some b => b | None => x00 end.

#[global] Instance byte_countable : Countable byte.
Proof.
  refine (inj_countable' Byte.to_N byte_of_N _).
  intros b. unfold byte_of_N. by rewrite Byte.of_to_N.
Defined.

(** The byte stored for an integer: conversion to [unsigned char]. *)
Definition byte_of_Z (z : Z) : byte := byte_of_N (Z.to_N (z mod 256)).

Definition Z_of_byte (b : byte) : Z := Z.of_N (Byte.to_N b).

(** The platform decides whether [char] is signed. *)
Class Platform := { char_signed : bool }.

Section WithPlatform.
Context `{!Platform}.

(** The value of a [char] after integral promotion. *)
Definition char_value (c : char) : Z :=
  let u := Z_of_byte c in
  if char_signed && (128 <=? u) then u - 256 else u.

(** [std::less<char>] *)
Definition char_lt (c1 c2 : char) : Prop := char_value c1 < char_value c2.

(** All 256 values of [char], smallest first. *)
Definition chars_ascending : list char :=
  let range a n := map (fun i => byte_of_Z (a + Z.of_nat i)) (seq 0 n) in
  if char_signed then range 128 128%nat ++ range 0 128%nat
  else range 0 256%nat.

(** ** [std::map<char, V>] and its iteration order *)

(** [for (const auto& pair : m)]: the entries of [m], by ascending key. *)
Definition map_items {V} (m : gmap char V) : list (char * V) :=
  omap (fun c => match m !! c with Some v => Some (c, v) | None => None end)
       chars_ascending.

End WithPlatform.

(** ** Fixed-width integers *)

(** Arithmetic on [unsigned] is modulo [2^32]. *)
Definition wrap32 (z : Z) : Z := z mod 2 ^ 32.

(** The [n] bytes of the object representation of [z], little-endian. *)
Fixpoint le_bytes (n : nat) (z : Z) : list byte :=
  match n with
  | O => []
  | S n' => byte_of_Z z :: le_bytes n' (z / 256)
  end.

(** The integer whose object representation is [bs]. *)
Fixpoint le_value (bs : list byte) : Z :=
  match bs with
  | [] => 0
  | b :: bs' => Z_of_byte b + 256 * le_value bs'
  end.

Definition sizeof_size_t : nat := 8.
Definition sizeof_unsigned : nat := 4.

(** ** The Huffman tree *)

(** [struct HuffmanNode] and [std::shared_ptr<HuffmanNode>]. *)
Inductive HuffmanNode : Type :=
| Node (data : char) (frequency : Z) (left right : shared_ptr)
with shared_ptr : Type :=
| null
| ptr (n : HuffmanNode).

Definition data (n : HuffmanNode) : char := let 'Node d _ _ _ := n in d.
Definition frequency (n : HuffmanNode) : Z := let 'Node _ f _ _ := n in f.
Definition left (n : HuffmanNode) : shared_ptr := let 'Node _ _ l _ := n in l.
Definition right (n : HuffmanNode) : shared_ptr := let 'Node _ _ _ r := n in r.

(** The constructor [HuffmanNode(data, frequency)]. *)
Definition make_shared (data : char) (frequency : Z) : HuffmanNode :=
  Node data frequency null null.

(** [!p] for a shared pointer. *)
Definition is_null (p : shared_ptr) : bool :=
  match p with null => true | ptr _ => false end.

(** [!node->left && !node->right] *)
Definition is_leaf (n : HuffmanNode) : bool := is_null (left n) && is_null (right n).

(** [CompareNodes::operator()] *)
Definition CompareNodes (l r : HuffmanNode) : bool := frequency r <? frequency l.

(** ** [std::priority_queue]

    The container adaptor is library code: it is specified by its
    interface.  [pq_elements] is the underlying container; [top] returns an
    element before which the comparison orders no other, and [pop] removes
    it.  Which of several equally frequent nodes comes first is left to
    the implementation. *)
Class PriorityQueue := {
  priority_queue : Type;
  pq_new : priority_queue;
  pq_push : HuffmanNode -> priority_queue -> priority_queue;
  pq_top : priority_queue -> option HuffmanNode;
  pq_pop : priority_queue -> priority_queue;
  pq_elements : priority_queue -> list HuffmanNode;
  pq_elements_new : pq_elements pq_new = [];
  pq_elements_push x q : pq_elements (pq_push x q) ≡ₚ x :: pq_elements q;
  pq_elements_pop q x :
    pq_top q = Some x -> pq_elements q ≡ₚ x :: pq_elements (pq_pop q);
  pq_top_is_Some q : pq_elements q <> [] -> is_Some (pq_top q);
  pq_top_least q x y :
    pq_top q = Some x -> y ∈ pq_elements q -> CompareNodes x y = false;
}.

Definition pq_size `{!PriorityQueue} (q : priority_queue) : nat :=
  length (pq_elements q).

Definition pq_empty `{!PriorityQueue} (q : priority_queue) : bool :=
  bool_decide (pq_size q = 0%nat).

(** One implementation of the interface: an unordered list from which
    [top] selects the first node of least frequency. *)
Fixpoint select_least (x : HuffmanNode) (l : list HuffmanNode)
  : HuffmanNode * list HuffmanNode :=
  match l with
  | [] => (x, [])
  | y :: l' =>
      let '(m, rest) := select_least y l' in
      if CompareNodes x m then (m, x :: rest) else (x, m :: rest)
  end.

#[global, refine] Instance list_queue : PriorityQueue := {|
  priority_queue := list HuffmanNode;
  pq_new := [];
  pq_push x q := q ++ [x];
  pq_top q := match q with [] => None | x :: l => Some (select_least x l).1 end;
  pq_pop q := match q with [] => [] | x :: l => (select_least x l).2 end;
  pq_elements q := q;
|}.
Proof.
  - done.
  - intros x q. by rewrite Permutation_app_comm.
  - intros [|y l] x [=<-]. revert y.
    induction l as [|z l IH]; intros y; simpl; [done|].
    specialize (IH z). destruct (select_least z l) as [m rest]; simpl in *.
    destruct (CompareNodes y m); simpl; rewrite IH; [apply perm_swap|done].
  - by intros [|y l] ?.
  - intros [|y l] x z [=<-]. unfold CompareNodes. revert y.
    induction l as [|w l IH]; intros y Hz; simpl.
    + apply list_elem_of_singleton in Hz as ->. apply Z.ltb_irrefl.
    + specialize (IH w). destruct (select_least w l) as [m rest]; simpl in *.
      unfold CompareNodes.
      destruct (frequency m <? frequency y) eqn:Hc; simpl;
        apply Z.ltb_ge; apply elem_of_cons in Hz as [->|Hz];
        try (specialize (IH Hz); apply Z.ltb_ge in IH); lia.
Defined.

(** ** Streams and console *)

(** What a call leaves behind: the bytes written to the output file and
    the lines printed on [std::cout]. *)
Record run := { written : list byte; cout : list string }.

(** An input file stream that is not rewound: the bytes not yet
    extracted, and whether an extraction has failed.  Once [failbit] is
    set every later extraction fails and extracts nothing. *)
Record ifstream := { unread : list byte; failbit : bool }.

(** A file just opened for reading. *)
Definition open (file : list byte) : ifstream :=
  {| unread := file; failbit := false |}.

(** [inputFile.read(buf, n)]: the bytes stored into the buffer, and the
    stream afterwards.  Fewer than [n] bytes are stored when the file ends
    first, and the stream then fails. *)
Definition read (n : nat) (s : ifstream) : list byte * ifstream :=
  if failbit s then ([], s)
  else (take n (unread s),
        {| unread := drop n (unread s);
           failbit := bool_decide (length (unread s) < n)%nat |}).

(** The bytes that [while (inputFile.get(byte))] iterates over. *)
Definition remaining (s : ifstream) : list byte :=
  if failbit s then [] else unread s.

(** The locals [mapSize], [character] and [frequency] of [readHeader] are
    not initialised; a failed or short [read] leaves (part of) what they
    held.  [Indeterminate] supplies these values; [character] and
    [frequency] are created afresh in every iteration of the loop.
    Reading a local that was never assigned is undefined in the language:
    [readHeader] below describes an implementation that finds in the local
    what its storage held, and [readHeader_defined] marks the runs in which
    such a local is read at all.  On every other run [readHeader] does not
    depend on [Indeterminate]. *)
Record Indeterminate := {
  ind_mapSize : Z;
  ind_character : nat -> char;
  ind_frequency : nat -> Z;
}.

(** The representation of an [n]-byte object holding [old] after [got]
    has been stored at its beginning. *)
Definition store (n : nat) (old : Z) (got : list byte) : list byte :=
  got ++ drop (length got) (le_bytes n old).

(** ** Compression *)

(** [frequencyMap[character]++] for every byte of the (rewound) file. *)
Definition buildFrequencyTable (inputFile : list byte) : gmap char Z :=
  fold_left
    (fun frequencyMap character =>
       <[character := wrap32 (default 0 (frequencyMap !! character) + 1)]>
         frequencyMap)
    inputFile ∅.

Section WithQueue.
Context `{!Platform} `{!PriorityQueue}.

(** The first loop of [buildHuffmanTree]: a leaf for every entry. *)
Definition push_leaves (frequencyMap : gmap char Z) : priority_queue :=
  fold_left (fun pq '(key, val) => pq_push (make_shared key val) pq)
            (map_items frequencyMap) pq_new.

(** The single-symbol case: a dummy parent with only a left child. *)
Definition add_dummy_parent (pq : priority_queue) : option priority_queue :=
  if bool_decide (pq_size pq = 1%nat) then
    singleNode ← pq_top pq;
    let pq := pq_pop pq in
    let dummyParent :=
      Node "$"%byte (frequency singleNode) (ptr singleNode) null in
    Some (pq_push dummyParent pq)
  else Some pq.

(** [while (pq.size() > 1)]; [fuel] bounds the number of iterations. *)
Fixpoint merge_loop (fuel : nat) (pq : priority_queue)
  : option priority_queue :=
  if bool_decide (1 < pq_size pq)%nat then
    match fuel with
    | O => None
    | S fuel' =>
        left ← pq_top pq;
        let pq := pq_pop pq in
        right ← pq_top pq;
        let pq := pq_pop pq in
        let newNode :=
          Node "$"%byte (wrap32 (frequency left + frequency right))
               (ptr left) (ptr right) in
        merge_loop fuel' (pq_push newNode pq)
    end
  else Some pq.

(** The value of [treeRoot] after [buildHuffmanTree()]. *)
Definition buildHuffmanTree (frequencyMap : gmap char Z) : option shared_ptr :=
  let pq := push_leaves frequencyMap in
  if pq_empty pq then Some null
  else
    pq ← add_dummy_parent pq;
    pq ← merge_loop (pq_size pq) pq;
    root ← pq_top pq;
    Some (ptr root).

End WithQueue.

(** [generateCodes(node, code)], threading [huffmanCodes]. *)
Fixpoint generateCodes (node : shared_ptr) (code : string)
    (huffmanCodes : gmap char string) : gmap char string :=
  match node with
  | null => huffmanCodes
  | ptr (Node data _ left right as n) =>
      let huffmanCodes :=
        if is_leaf n then <[data := code]> huffmanCodes else huffmanCodes in
      let huffmanCodes := generateCodes left (code +:+ "0") huffmanCodes in
      generateCodes right (code +:+ "1") huffmanCodes
  end.

(** The lines [compress] prints when it has compressed a file that is
    not empty. *)
Definition compress_messages : list string :=
  ["Building frequency table..."; "Building Huffman tree...";
   "Generating Huffman codes..."; "Writing header...";
   "Writing compressed data..."; "Compression successful!"]%string.

(** The lines [decompress] prints when it runs to its end. *)
Definition decompress_messages : list string :=
  ["Reading header..."; "Rebuilding Huffman tree...";
   "Decoding data..."; "Decompression successful!"]%string.

Section Codec.
Context `{!Platform} `{!PriorityQueue}.

(** [writeHeader]: the bytes written to the output file. *)
Definition writeHeader (frequencyMap : gmap char Z) : list byte :=
  let mapSize := Z.of_nat (size frequencyMap) in
  le_bytes sizeof_size_t mapSize ++
  flat_map (fun pair : char * Z => pair.1 :: le_bytes sizeof_unsigned pair.2)
           (map_items frequencyMap).

(** The locals [buffer] and [bitCount] of [writeCompressedData], and the
    bytes put so far. *)
Record packer := { buffer : Z; bitCount : Z; packed : list byte }.

(** The body of [for (char bit : code)]. *)
Definition put_bit (st : packer) (bit : ascii) : packer :=
  let buffer :=
    Z.lor (Z.shiftl (buffer st) 1)
          (char_value (byte_of_ascii bit) - char_value "0"%byte) mod 256 in
  let bitCount := bitCount st + 1 in
  if bitCount =? 8 then
    {| buffer := 0; bitCount := 0; packed := packed st ++ [byte_of_Z buffer] |}
  else
    {| buffer := buffer; bitCount := bitCount; packed := packed st |}.

(** The body of [while (inputFile.get(character))].  [huffmanCodes[c]]
    is the empty string when [c] has no entry. *)
Definition put_code (huffmanCodes : gmap char string) (st : packer)
    (character : char) : packer :=
  let code := default ""%string (huffmanCodes !! character) in
  fold_left put_bit (list_ascii_of_string code) st.

(** [writeCompressedData]: the bytes written for the (rewound) file. *)
Definition writeCompressedData (huffmanCodes : gmap char string)
    (inputFile : list byte) : list byte :=
  let st :=
    fold_left (put_code huffmanCodes) inputFile
              {| buffer := 0; bitCount := 0; packed := [] |} in
  if 0 <? bitCount st then
    packed st ++ [byte_of_Z (Z.shiftl (buffer st) (8 - bitCount st) mod 256)]
  else packed st.

(** [compress], on an input file and an output file that could be opened. *)
Definition compress (inputFile : list byte) : option run :=
  let frequencyMap := buildFrequencyTable inputFile in
  if bool_decide (frequencyMap = ∅) then
    Some {| written := [];
            cout := ["Building frequency table...";
                     "Input file is empty. Creating an empty compressed file."]
                    %string |}
  else
    treeRoot ← buildHuffmanTree frequencyMap;
    let huffmanCodes := generateCodes treeRoot "" ∅ in
    let header := writeHeader frequencyMap in
    let body := writeCompressedData huffmanCodes inputFile in
    Some {| written := header ++ body; cout := compress_messages |}.

(** ** Decompression *)

(** The loop of [readHeader]; [i] is the loop counter and [count] the
    number of iterations still to run. *)
Fixpoint readHeader_loop (ind : Indeterminate) (count : nat) (i : nat)
    (inputFile : ifstream) (frequencyMap : gmap char Z)
  : gmap char Z * ifstream :=
  match count with
  | O => (frequencyMap, inputFile)
  | S count' =>
      let '(got, inputFile) := read 1 inputFile in
      let character :=
        match got with c :: _ => c | [] => ind_character ind i end in
      let '(got, inputFile) := read sizeof_unsigned inputFile in
      let frequency :=
        le_value (store sizeof_unsigned (ind_frequency ind i) got) in
      readHeader_loop ind count' (S i) inputFile
                      (<[character := frequency]> frequencyMap)
  end.

(** [readHeader]: the new [frequencyMap] and the stream afterwards. *)
Definition readHeader (ind : Indeterminate) (inputFile : ifstream)
  : gmap char Z * ifstream :=
  let '(got, inputFile) := read sizeof_size_t inputFile in
  let mapSize := le_value (store sizeof_size_t (ind_mapSize ind) got) in
  readHeader_loop ind (Z.to_nat mapSize) 0 inputFile ∅.

(** [inputFile.read(buf, n)] into a local that has no initialiser: the
    bytes stored and the stream afterwards when all [n] bytes were there,
    [None] when the stream ended first (or had failed before), which leaves
    the local, or a part of it, unassigned. *)
Definition read_into_local (n : nat) (inputFile : ifstream)
  : option (list byte * ifstream) :=
  let '(got, inputFile) := read n inputFile in
  if bool_decide (length got = n) then Some (got, inputFile) else None.

(** The loop of [readHeader] for as long as it reads assigned locals only.
    [frequencyMap[character] = frequency] reads both locals whether or not
    the two calls of [read] before it have assigned them; [None] is the
    run in which one of them has not. *)
Fixpoint readHeader_loop_defined (count : nat) (inputFile : ifstream)
    (frequencyMap : gmap char Z) : option (gmap char Z * ifstream) :=
  match count with
  | O => Some (frequencyMap, inputFile)
  | S count' =>
      match read_into_local 1 inputFile with
      | Some (character :: _, inputFile) =>
          match read_into_local sizeof_unsigned inputFile with
          | Some (frequency, inputFile) =>
              readHeader_loop_defined count' inputFile
                (<[character := le_value frequency]> frequencyMap)
          | None => None
          end
      | _ => None
      end
  end.

(** [readHeader] for as long as it reads assigned locals only: the loop
    condition [i < mapSize] reads [mapSize] whether or not [read] has
    assigned it. *)
Definition readHeader_defined (inputFile : ifstream)
  : option (gmap char Z * ifstream) :=
  match read_into_local sizeof_size_t inputFile with
  | Some (mapSize, inputFile) =>
      readHeader_loop_defined (Z.to_nat (le_value mapSize)) inputFile ∅
  | None => None
  end.

(** The locals [currentNode] and [decodedCount] of [decodeData], and the
    bytes put so far. *)
Record decoder := {
  currentNode : shared_ptr;
  decodedCount : Z;
  output : list byte;
}.

(** One bit: move the cursor and emit a symbol on reaching a leaf.
    [currentNode->left] and [currentNode->right] need [currentNode] to
    point to a node. *)
Definition decode_bit (treeRoot : shared_ptr) (bit : Z) (st : decoder)
  : option decoder :=
  match currentNode st with
  | null => None
  | ptr cur =>
      let next := if bit =? 0 then left cur else right cur in
      match next with
      | ptr n =>
          if is_leaf n then
            Some {| currentNode := treeRoot;
                    decodedCount := decodedCount st + 1;
                    output := output st ++ [data n] |}
          else
            Some {| currentNode := next; decodedCount := decodedCount st;
                    output := output st |}
      | null =>
          Some {| currentNode := null; decodedCount := decodedCount st;
                  output := output st |}
      end
  end.

(** [for (int i = 7; i >= 0; --i)]: [n] is [i + 1]. *)
Fixpoint decode_byte (treeRoot : shared_ptr) (totalChars : Z) (byte : char)
    (n : nat) (st : decoder) : option decoder :=
  match n with
  | O => Some st
  | S i =>
      if bool_decide (totalChars <= decodedCount st) then Some st
      else
        let bit := Z.land (Z.shiftr (char_value byte) (Z.of_nat i)) 1 in
        st ← decode_bit treeRoot bit st;
        decode_byte treeRoot totalChars byte i st
  end.

(** [while (inputFile.get(byte) && decodedCount < totalChars)] *)
Fixpoint decode_loop (treeRoot : shared_ptr) (totalChars : Z)
    (bytes : list byte) (st : decoder) : option decoder :=
  match bytes with
  | [] => Some st
  | byte :: bytes' =>
      if bool_decide (decodedCount st < totalChars) then
        st ← decode_byte treeRoot totalChars byte 8 st;
        decode_loop treeRoot totalChars bytes' st
      else Some st
  end.

(** The sum of the frequencies; at most 256 values below [2^32], so the
    [long long] accumulator does not overflow. *)
Definition totalChars_of (frequencyMap : gmap char Z) : Z :=
  fold_left (fun totalChars (pair : char * Z) => totalChars + pair.2)
            (map_items frequencyMap) 0.

(** [decodeData]: the bytes written to the output file. *)
Definition decodeData (frequencyMap : gmap char Z) (treeRoot : shared_ptr)
    (inputFile : ifstream) : option (list byte) :=
  let totalChars := totalChars_of frequencyMap in
  if totalChars =? 0 then Some []
  else
    st ← decode_loop treeRoot totalChars (remaining inputFile)
         {| currentNode := treeRoot; decodedCount := 0; output := [] |};
    Some (output st).

(** [decompress], on an input file and an output file that could be
    opened. *)
Definition decompress (ind : Indeterminate) (file : list byte) : option run :=
  let inputFile := open file in
  let '(frequencyMap, inputFile) := readHeader ind inputFile in
  treeRoot ← buildHuffmanTree frequencyMap;
  out ← decodeData frequencyMap treeRoot inputFile;
  Some {| written := out; cout := decompress_messages |}.

End Codec.

(** ** Vocabulary of the specification *)

(** The leaves below a pointer, left to right: symbol and frequency. *)
Fixpoint leaves (node : shared_ptr) : list (char * Z) :=
  match node with
  | null => []
  | ptr (Node data frequency left right as n) =>
      (if is_leaf n then [(data, frequency)] else [])
      ++ leaves left ++ leaves right
  end.

(** The leaves below a pointer, each with the decisions that lead to it
    ([false] for left, [true] for right). *)
Fixpoint paths (node : shared_ptr) : list (char * list bool) :=
  match node with
  | null => []
  | ptr (Node data _ left right as n) =>
      (if is_leaf n then [(data, [])] else [])
      ++ (prod_map id (cons false) <$> paths left)
      ++ (prod_map id (cons true) <$> paths right)
  end.

(** A sequence of decisions written as a code. *)
Fixpoint code_string (path : list bool) : string :=
  match path with
  | [] => ""
  | b :: path' => String (if b then "1" else "0")%char (code_string path')
  end.

(** [s1] is a prefix of [s2]. *)
Definition string_prefix (s1 s2 : string) : Prop := exists s3, s2 = s1 +:+ s3.

(** The symbols of all leaves held by the queue. *)
Definition forest_leaves (q : list HuffmanNode) : list (char * Z) :=
  q ≫= fun n => leaves (ptr n).

(** Following a sequence of decisions from a pointer; [null] when a
    decision selects an absent child. *)
Fixpoint descend (node : shared_ptr) (path : list bool) : shared_ptr :=
  match path, node with
  | [], _ => node
  | _, null => null
  | b :: path', ptr n => descend (if b then right n else left n) path'
  end.

(** A code consists of the characters ['0'] and ['1'] only. *)
Definition bit_string (code : string) : Prop :=
  Forall (fun a => a = "0"%char \/ a = "1"%char) (list_ascii_of_string code).

(** Every frequency of the table is a value of type [unsigned]. *)
Definition unsigned_values (frequencyMap : gmap char Z) : Prop :=
  forall c f, frequencyMap !! c = Some f -> 0 <= f < 2 ^ 32.

(** The header as the specification words it: the count, then the pairs
    by ascending byte value 0..255 of the symbol. *)
Definition header_by_byte_value (frequencyMap : gmap char Z) : list byte :=
  let bytes_0_to_255 := map (fun i => byte_of_Z (Z.of_nat i)) (seq 0 256) in
  let pairs :=
    omap (fun c => match frequencyMap !! c with
                   | Some f => Some (c, f)
                   | None => None
                   end) bytes_0_to_255 in
  le_bytes sizeof_size_t (Z.of_nat (size frequencyMap)) ++
  flat_map (fun pair : char * Z => pair.1 :: le_bytes sizeof_unsigned pair.2)
           pairs.

(** No extraction was attempted on the stream opened for [file]: every
    extraction either advances the stream or makes it fail. *)
Definition untouched (file : list byte) (s : ifstream) : Prop := s = open file.

(** A call of [decompress] that ran to its end and announced success,
    having written [out]. *)
Definition succeeds_with (out : list byte) (r : option run) : Prop :=
  r = Some {| written := out; cout := decompress_messages |}.


(** The first [n] pairs of symbol and frequency among the bytes that
    follow the pair count. *)
Fixpoint pairs_of (n : nat) (bytes : list byte) : list (char * Z) :=
  match n, bytes with
  | S n', character :: bytes' =>
      (character, le_value (take sizeof_unsigned bytes'))
      :: pairs_of n' (drop sizeof_unsigned bytes')
  | _, _ => []
  end.

(** How often a byte occurs in a file. *)
Definition occurrences (c : char) (file : list byte) : nat :=
  count_occ byte_eq_dec file c.

(** No byte value occurs [2^32] times or more, so that no counter of
    [buildFrequencyTable] wraps around. *)
Definition counters_fit (file : list byte) : Prop :=
  forall c, Z.of_nat (occurrences c file) < 2 ^ 32.

(** The eight bits of a byte, in the order in which [decodeData] looks at
    them: [(byte >> i) & 1] for [i] from 7 down to 0. *)
Definition bits_of_byte `{!Platform} (byte : char) : list bool :=
  (fun i : nat =>
     negb (Z.land (Z.shiftr (char_value byte) (Z.of_nat i)) 1 =? 0))
  <$> [7; 6; 5; 4; 3; 2; 1; 0]%nat.
#[global] Arguments bits_of_byte : simpl never.

(** The number written by a sequence of bits, first bit most significant. *)
Definition bits_value (bits : list bool) : Z :=
  fold_left (fun v (b : bool) => 2 * v + Z.b2z b) bits 0.

(** The decisions that a code spells out. *)
Definition bits_of_code (code : string) : list bool :=
  (fun a => bool_decide (a = "1"%char)) <$> list_ascii_of_string code.

(** The codes of all bytes of a file, one after the other. *)
Definition encode (huffmanCodes : gmap char string) (file : list byte)
  : list bool :=
  flat_map (fun c => bits_of_code (default ""%string (huffmanCodes !! c))) file.

(** The decoder run over a sequence of bits, stopping like the loops of
    [decodeData] once [totalChars] symbols are decoded. *)
Fixpoint decode_bits (treeRoot : shared_ptr) (totalChars : Z)
    (bits : list bool) (st : decoder) : option decoder :=
  match bits with
  | [] => Some st
  | b :: bits' =>
      if bool_decide (totalChars <= decodedCount st) then Some st
      else
        st ← decode_bit treeRoot (Z.b2z b) st;
        decode_bits treeRoot totalChars bits' st
  end.

(** The packer has consumed exactly [bits]: the bytes already put hold
    the first of them, eight to a byte, and the buffer holds the rest. *)
Definition packer_holds `{!Platform} (st : packer) (bits : list bool) : Prop :=
  exists pending,
    (length pending < 8)%nat /\
    buffer st = bits_value pending /\
    bitCount st = Z.of_nat (length pending) /\
    flat_map bits_of_byte (packed st) ++ pending = bits.

(** Every symbol of [syms] has a code in the table, and this code spells
    the path from the root to a leaf that carries the symbol. *)
Definition coded_by (treeRoot : shared_ptr) (huffmanCodes : gmap char string)
    (syms : list char) : Prop :=
  forall s, s ∈ syms ->
    exists p, huffmanCodes !! s = Some (code_string p) /\ (s, p) ∈ paths treeRoot.

(** ** Concrete platforms and test data *)

Definition signed_char_platform : Platform := {| char_signed := true |}.
Definition unsigned_char_platform : Platform := {| char_signed := false |}.

Definition zeroed : Indeterminate :=
  {| ind_mapSize := 0; ind_character := fun _ => x00; ind_frequency := fun _ => 0 |}.

(** Uninitialised locals that happen to hold 1, 'x' and 7. *)
Definition stale_x7 : Indeterminate :=
  {| ind_mapSize := 1; ind_character := fun _ => "x"%byte;
     ind_frequency := fun _ => 7 |}.

Definition bytes_of_string (s : string) : list byte := list_byte_of_string s.

(** 3 times 'a', twice 'b', once 'c'. *)
Definition aaabbc : list byte := bytes_of_string "aaabbc".

(** 4 GiB of the byte 'a'. *)
Definition four_gib_of_a : list byte := repeat "a"%byte (Z.to_nat (2 ^ 32)).


(** The bytes 0x41 and 0x80. *)
Definition low_and_high : list byte := ["A"%byte; x80].

(** The tree for "aaabbc", with the codes 0 for [a], 10 for [c] and 11
    for [b]. *)
Definition aaabbc_tree : shared_ptr :=
  ptr (Node "$"%byte 6
         (ptr (Node "a"%byte 3 null null))
         (ptr (Node "$"%byte 3 (ptr (Node "c"%byte 1 null null))
                               (ptr (Node "b"%byte 2 null null))))).

(** ** The command line

    [HuffmanCoding::compress] and [HuffmanCoding::decompress] with the
    opening of their files, [showUsage] and [main].  A file system maps
    the paths of the existing files to their contents; [writable] tells
    for which paths a file can be opened for writing.  Opening a file for
    writing creates it, or empties it if it exists. *)

Record filesystem := {
  files : gmap string (list byte);
  writable : string -> bool;
}.

(** The lines printed on [std::cout] and on [std::cerr]. *)
Record console := { cout_lines : list string; cerr_lines : list string }.

(** [std::ofstream outputFile(path, std::ios::binary)] on a writable path. *)
Definition create (path : string) (fs : filesystem) : filesystem :=
  {| files := <[path := []]> (files fs); writable := writable fs |}.

(** The bytes put to the output stream reach the file when it is closed. *)
Definition close (path : string) (bytes : list byte) (fs : filesystem)
  : filesystem :=
  {| files := <[path := bytes]> (files fs); writable := writable fs |}.

Module HuffmanCoding.
Section Files.
Context `{!Platform} `{!PriorityQueue}.

(** [HuffmanCoding::compress(inputFilePath, outputFilePath)].  The input
    is read after the output file has been opened. *)
Definition compress (inputFilePath outputFilePath : string) (fs : filesystem)
  : option (console * filesystem) :=
  match files fs !! inputFilePath with
  | None =>
      Some ({| cout_lines := [];
               cerr_lines := ["Error: Could not open input file: "
                              +:+ inputFilePath] |}, fs)
  | Some _ =>
      if writable fs outputFilePath then
        let fs := create outputFilePath fs in
        let inputFile := default [] (files fs !! inputFilePath) in
        r ← compress inputFile;
        Some ({| cout_lines := cout r; cerr_lines := [] |},
              close outputFilePath (written r) fs)
      else
        Some ({| cout_lines := [];
                 cerr_lines := ["Error: Could not open output file: "
                                +:+ outputFilePath] |}, fs)
  end.

(** [HuffmanCoding::decompress(inputFilePath, outputFilePath)] *)
Definition decompress (ind : Indeterminate)
    (inputFilePath outputFilePath : string) (fs : filesystem)
  : option (console * filesystem) :=
  match files fs !! inputFilePath with
  | None =>
      Some ({| cout_lines := [];
               cerr_lines := ["Error: Could not open input file: "
                              +:+ inputFilePath] |}, fs)
  | Some _ =>
      if writable fs outputFilePath then
        let fs := create outputFilePath fs in
        let inputFile := default [] (files fs !! inputFilePath) in
        r ← decompress ind inputFile;
        Some ({| cout_lines := cout r; cerr_lines := [] |},
              close outputFilePath (written r) fs)
      else
        Some ({| cout_lines := [];
                 cerr_lines := ["Error: Could not open output file: "
                                +:+ outputFilePath] |}, fs)
  end.

End Files.
End HuffmanCoding.

(** [showUsage()]: the lines printed on [std::cout]. *)
Definition showUsage : list string :=
  ["Usage: huffman <command> <input_file> <output_file>";
   "Commands:";
   "  c, compress      Compress the input file.";
   "  d, decompress    Decompress the input file."]%string.

(** [main(argc, argv)]: [argc] is the length of [argv].  The result is
    the exit status, the console and the file system afterwards. *)
Definition main `{!Platform} `{!PriorityQueue} (ind : Indeterminate)
    (argv : list string) (fs : filesystem)
  : option (Z * console * filesystem) :=
  if bool_decide (length argv <> 4%nat) then
    Some (1, {| cout_lines := showUsage; cerr_lines := [] |}, fs)
  else
    let command := nth 1 argv ""%string in
    let inputFile := nth 2 argv ""%string in
    let outputFile := nth 3 argv ""%string in
    if bool_decide (command = "c"%string \/ command = "compress"%string) then
      '(con, fs) ← HuffmanCoding.compress inputFile outputFile fs;
      Some (0, con, fs)
    else if bool_decide (command = "d"%string \/ command = "decompress"%string)
    then
      '(con, fs) ← HuffmanCoding.decompress ind inputFile outputFile fs;
      Some (0, con, fs)
    else
      Some (1, {| cout_lines := showUsage;
                  cerr_lines := ["Error: Invalid command '" +:+ command
                                 +:+ "'"] |}, fs).

(** ** More vocabulary *)

(** Every node below the pointer is a leaf or has both children. *)
Fixpoint strict (node : shared_ptr) : bool :=
  match node with
  | null => true
  | ptr (Node _ _ left right) =>
      (is_null left && is_null right)
      || (negb (is_null left) && negb (is_null right)
          && strict left && strict right)
  end.

(** All nodes below a pointer. *)
Fixpoint nodes (node : shared_ptr) : list HuffmanNode :=
  match node with
  | null => []
  | ptr (Node _ _ left right as n) => n :: nodes left ++ nodes right
  end.

(** The sum of the frequencies of the leaves below a pointer. *)
Definition weight (node : shared_ptr) : Z := foldr Z.add 0 (leaves node).*2.

(** The node that [buildHuffmanTree] makes of two nodes. *)
Definition merged (left right : HuffmanNode) : HuffmanNode :=
  Node "$"%byte (wrap32 (frequency left + frequency right))
       (ptr left) (ptr right).

(** A file system with the file "in" holding "aaabbc", in which every
    path is writable. *)
Definition one_file : filesystem :=
  {| files := {["in"%string := aaabbc]}; writable := fun _ => true |}.

(** What holds of the decoder at every moment: its cursor is null or
    points to a node of the tree, it has counted the bytes it has put,
    these are no more than [totalChars], and each is the symbol of a leaf. *)
Definition decoder_ok (treeRoot : shared_ptr) (totalChars : Z) (st : decoder)
  : Prop :=
  (currentNode st = null \/
   exists n, currentNode st = ptr n /\ n ∈ nodes treeRoot) /\
  decodedCount st = Z.of_nat (length (output st)) /\
  decodedCount st <= Z.max 0 totalChars /\
  Forall (fun b => b ∈ (leaves treeRoot).*1) (output st).

(** The cursor points to an inner node of the tree. *)
Definition at_inner_node (treeRoot : shared_ptr) (st : decoder) : Prop :=
  exists n, currentNode st = ptr n /\ n ∈ nodes treeRoot /\ is_leaf n = false.

(** The tree that [buildHuffmanTree] makes for the table of one symbol. *)
Definition single_symbol_root (a : char) (f : Z) : shared_ptr :=
  ptr (Node "$"%byte f (ptr (Node a f null null)) null).

Definition two_codes : gmap char string :=
  {["a"%byte := "0"%string; "b"%byte := "10"%string]}.

Definition two_pairs : list (char * Z) := [("a"%byte, 3); ("b"%byte, 2)].

Definition aaabbc_header_and_noise : list byte :=
  @writeHeader signed_char_platform (buildFrequencyTable aaabbc)
  ++ [xff; x00; xff].

Definition cccccc : list byte := bytes_of_string "cccccc".

Definition invalid_command : console :=
  {| cout_lines := showUsage;
     cerr_lines := ["Error: Invalid command 'x'"]%string |}.


(** ** The length of the coded text *)

(** The sum of a list of numbers. *)
Definition sum_of (l : list Z) : Z := foldr Z.add 0 l.

(** The frequency that a table gives a symbol; 0 when it has no entry. *)
Definition count_in (frequencyMap : gmap char Z) (c : char) : Z :=
  default 0 (frequencyMap !! c).

(** The number of code bits that the tree below [node] gives a text in
    which the symbol [c] occurs [count c] times: over the leaves, the count
    of the symbol times the length of its code. *)
Definition weighted_length (count : char -> Z) (node : shared_ptr) : Z :=
  sum_of ((fun leaf : char * list bool =>
             count leaf.1 * Z.of_nat (length leaf.2)) <$> paths node).

(** The counts of the symbols below [node], added up. *)
Definition symbols_weight (count : char -> Z) (node : shared_ptr) : Z :=
  sum_of (count <$> (paths node).*1).

(** What [buildHuffmanTree] keeps of every node in the queue as long as
    no sum wraps around: the frequency of the node is the sum of the counts
    of the symbols below it. *)
Definition sums_its_leaves (count : char -> Z) (t : HuffmanNode) : Prop :=
  frequency t = symbols_weight count (ptr t) /\ 0 <= frequency t.

(** The code bits given by the trees in the queue, each taken by itself. *)
Definition queue_length (count : char -> Z) (q : list HuffmanNode) : Z :=
  sum_of ((fun t => weighted_length count (ptr t)) <$> q).

(** Binary trees with a weight at every leaf and two children at every
    other node: the shapes that a tree of codes can take, against which the
    tree of [buildHuffmanTree] is measured. *)
Inductive code_tree : Type :=
| Leaf (w : Z)
| Fork (l r : code_tree).

Fixpoint leaf_weights (t : code_tree) : list Z :=
  match t with
  | Leaf w => [w]
  | Fork l r => leaf_weights l ++ leaf_weights r
  end.

Definition total_weight (t : code_tree) : Z := sum_of (leaf_weights t).

(** The weights of the leaves, each times its depth. *)
Fixpoint cost (t : code_tree) : Z :=
  match t with
  | Leaf _ => 0
  | Fork l r => cost l + cost r + total_weight l + total_weight r
  end.

(** [t] has a leaf of weight [w] at depth [d]. *)
Inductive leaf_at : code_tree -> Z -> nat -> Prop :=
| leaf_at_here w : leaf_at (Leaf w) w 0
| leaf_at_left l r w d : leaf_at l w d -> leaf_at (Fork l r) w (S d)
| leaf_at_right l r w d : leaf_at r w d -> leaf_at (Fork l r) w (S d).

(** Another tree for the symbols of "aaabbc", with codes of two bits for
    [a] and [b] and of one bit for [c]. *)
Definition another_tree : shared_ptr :=
  ptr (Node "$"%byte 0
         (ptr (Node "$"%byte 0 (ptr (make_shared "a"%byte 0))
                               (ptr (make_shared "b"%byte 0))))
         (ptr (make_shared "c"%byte 0))).

(** A code table with an entry for [b] and one for [z]. *)
Definition old_codes : gmap char string :=
  {["b"%byte := "0"%string; "z"%byte := "11"%string]}.
(** * Properties *)

(** ** Bytes and fixed-width integers *)

Lemma Z_of_byte_range (b : byte) : 0 <= Z_of_byte b < 256.
Proof. unfold Z_of_byte. pose proof (Byte.to_N_bounded b). lia. Qed.

Lemma byte_of_Z_of_byte (b : byte) : byte_of_Z (Z_of_byte b) = b.
Proof.
  unfold byte_of_Z, byte_of_N. pose proof (Z_of_byte_range b).
  rewrite Z.mod_small by done. unfold Z_of_byte.
  by rewrite N2Z.id, Byte.of_to_N.
Qed.

Lemma Z_of_byte_of_Z (z : Z) : Z_of_byte (byte_of_Z z) = z mod 256.
Proof.
  unfold byte_of_Z, byte_of_N, Z_of_byte.
  pose proof (Z.mod_pos_bound z 256 eq_refl).
  destruct (Byte.of_N (Z.to_N (z mod 256))) as [b|] eqn:E.
  - apply Byte.to_of_N in E. rewrite E. lia.
  - apply Byte.of_N_None_iff in E. lia.
Qed.

Lemma length_le_bytes n z : length (le_bytes n z) = n.
Proof. revert z. induction n; intros; simpl; auto. Qed.

Lemma le_value_le_bytes n z :
  le_value (le_bytes n z) = z mod 256 ^ Z.of_nat n.
Proof.
  revert z. induction n as [|n IH]; intros z.
  - simpl. by rewrite Z.mod_1_r.
  - change (le_value (le_bytes (S n) z))
      with (Z_of_byte (byte_of_Z z) + 256 * le_value (le_bytes n (z / 256))).
    rewrite IH, Z_of_byte_of_Z, Nat2Z.inj_succ, Z.pow_succ_r by lia.
    rewrite Z.rem_mul_r by lia. lia.
Qed.

Lemma le_value_range bs : 0 <= le_value bs < 256 ^ Z.of_nat (length bs).
Proof.
  induction bs as [|b bs IH].
  - simpl. lia.
  - change (le_value (b :: bs)) with (Z_of_byte b + 256 * le_value bs).
    pose proof (Z_of_byte_range b).
    rewrite length_cons, Nat2Z.inj_succ, Z.pow_succ_r by lia. lia.
Qed.

Lemma le_value_le_bytes_small n z :
  0 <= z < 256 ^ Z.of_nat n -> le_value (le_bytes n z) = z.
Proof. intros. rewrite le_value_le_bytes. by apply Z.mod_small. Qed.

Lemma wrap32_range z : 0 <= wrap32 z < 2 ^ 32.
Proof. apply Z.mod_pos_bound. done. Qed.

(** ** The iteration order of [std::map<char, V>] *)

(** There are two platforms; a statement about finitely many bytes is
    decided on each by evaluation. *)
Ltac case_platform :=
  match goal with P : Platform |- _ => destruct P as [[]] end.

Ltac by_evaluation := apply (bool_decide_unpack _); vm_compute; exact I.

Section MapOrder.
Context `{!Platform}.

Lemma NoDup_chars_ascending : NoDup chars_ascending.
Proof. case_platform; by_evaluation. Qed.

Lemma elem_of_chars_ascending (c : char) : c ∈ chars_ascending.
Proof. case_platform; destruct c; by_evaluation. Qed.

Lemma chars_ascending_sorted :
  StronglySorted Z.lt (char_value <$> chars_ascending).
Proof. case_platform; by_evaluation. Qed.

Lemma length_chars_ascending : length chars_ascending = 256%nat.
Proof. by case_platform. Qed.

End MapOrder.

Section MapItems.
Context `{!Platform} {V : Type}.
Implicit Types (m : gmap char V) (c : char) (v : V).

Lemma elem_of_map_items m c v : (c, v) ∈ map_items m <-> m !! c = Some v.
Proof.
  unfold map_items. rewrite list_elem_of_omap. split.
  - intros (c' & _ & E). destruct (m !! c') eqn:E'; congruence.
  - intros E. exists c. split; [apply elem_of_chars_ascending|by rewrite E].
Qed.

Lemma map_items_fst m :
  (map_items m).*1 = filter (fun c => is_Some (m !! c)) chars_ascending.
Proof.
  unfold map_items. induction chars_ascending as [|c l IH]; [done|].
  rewrite filter_cons. simpl. destruct (m !! c) eqn:E.
  - rewrite decide_True by eauto. simpl. by f_equal.
  - rewrite decide_False; [done|]. by intros [? ?].
Qed.

Lemma NoDup_map_items_fst m : NoDup (map_items m).*1.
Proof. rewrite map_items_fst. apply NoDup_filter, NoDup_chars_ascending. Qed.

Lemma NoDup_map_items m : NoDup (map_items m).
Proof. eapply NoDup_fmap_1, NoDup_map_items_fst. Qed.

Lemma map_items_sorted m : StronglySorted char_lt (map_items m).*1.
Proof.
  assert (forall l : list char,
            StronglySorted Z.lt (char_value <$> l) -> StronglySorted char_lt l)
    as Hlt.
  { induction l as [|c l IH]; [constructor|].
    rewrite fmap_cons. intros [Hs Hc]%StronglySorted_inv.
    constructor; [by apply IH|].
    rewrite Forall_fmap in Hc. eapply Forall_impl; [exact Hc|]. by intros c'. }
  apply Hlt. rewrite map_items_fst.
  pose proof chars_ascending_sorted as Hs.
  induction chars_ascending as [|c l IH]; [constructor|].
  simpl in Hs. apply StronglySorted_inv in Hs as [Hs Hc].
  rewrite filter_cons. destruct (decide _); [|by apply IH].
  simpl. constructor; [by apply IH|].
  rewrite Forall_forall in Hc |- *. intros z Hz. apply Hc.
  apply list_elem_of_fmap in Hz as (c' & -> & Hc').
  apply list_elem_of_filter in Hc' as [_ Hc'].
  apply list_elem_of_fmap. eauto.
Qed.

Lemma map_items_perm m : map_items m ≡ₚ map_to_list m.
Proof.
  apply NoDup_Permutation; [apply NoDup_map_items|apply NoDup_map_to_list|].
  intros [c v]. by rewrite elem_of_map_items, elem_of_map_to_list.
Qed.

Lemma length_map_items m : length (map_items m) = size m.
Proof. rewrite map_items_perm. apply length_map_to_list. Qed.

Lemma map_items_singleton c v : map_items ({[c := v]} : gmap char V) = [(c, v)].
Proof.
  pose proof (map_items_perm {[c := v]}) as Hp.
  rewrite map_to_list_singleton in Hp. by apply Permutation_singleton_r.
Qed.

End MapItems.

(** ** Trees *)

Lemma shared_ptr_induction (P : shared_ptr -> Prop) :
  P null ->
  (forall d f l r, P l -> P r -> P (ptr (Node d f l r))) ->
  forall p, P p.
Proof.
  intros Hnull Hnode. fix IH 1. intros [|[d f l r]].
  - exact Hnull.
  - apply Hnode; apply IH.
Qed.

Lemma is_leaf_true n : is_leaf n = true -> left n = null /\ right n = null.
Proof.
  destruct n as [d f [|l] [|r]]; unfold is_leaf; simpl; intros; by try split.
Qed.

Lemma paths_fst node : (paths node).*1 = (leaves node).*1.
Proof.
  induction node as [|d f l r IHl IHr] using shared_ptr_induction; [done|].
  simpl. rewrite !fmap_app, <- IHl, <- IHr, <- !list_fmap_compose.
  f_equal; try (by destruct (is_leaf _));
    apply list_fmap_ext; by intros ? [] ?.
Qed.

Lemma paths_nonempty_of_internal n c p :
  is_leaf n = false -> (c, p) ∈ paths (ptr n) -> p <> [].
Proof.
  destruct n as [d f l r]. simpl. intros ->. simpl.
  rewrite elem_of_app, !list_elem_of_fmap.
  intros [([] & [=] & _)|([] & [=] & _)]; by subst.
Qed.

(** Two different leaves never have one path a prefix of the other. *)
Lemma paths_prefix_free node i j c1 p1 c2 p2 :
  paths node !! i = Some (c1, p1) -> paths node !! j = Some (c2, p2) ->
  p1 `prefix_of` p2 -> i = j.
Proof.
  revert i j p1 p2.
  induction node as [|d f l r IHl IHr] using shared_ptr_induction;
    intros i j p1 p2; [done|].
  simpl. destruct (is_leaf _) eqn:Hleaf.
  { apply is_leaf_true in Hleaf as [Hl Hr]. simpl in Hl, Hr. subst l r.
    simpl. destruct i, j; by simpl. }
  simpl. intros Hi Hj Hpre.
  apply lookup_app_Some in Hi as [Hi|[Hil Hi]];
    apply lookup_app_Some in Hj as [Hj|[Hjl Hj]];
    rewrite list_lookup_fmap in Hi, Hj;
    destruct (_ !! _) as [[c1' q1]|] eqn:E1 in Hi; simplify_eq/=;
    destruct (_ !! _) as [[c2' q2]|] eqn:E2 in Hj; simplify_eq/=.
  - apply prefix_cons_inv_2 in Hpre. eauto.
  - by apply prefix_cons_inv_1 in Hpre.
  - by apply prefix_cons_inv_1 in Hpre.
  - apply prefix_cons_inv_2 in Hpre.
    specialize (IHr _ _ _ _ E1 E2 Hpre). rewrite length_fmap in *. lia.
Qed.

(** ** Building the tree *)

Section Build.
Context `{!Platform} `{!PriorityQueue}.
Implicit Types (q : priority_queue) (m : gmap char Z).

Lemma forest_leaves_perm l1 l2 : l1 ≡ₚ l2 -> forest_leaves l1 ≡ₚ forest_leaves l2.
Proof. intros Hp. unfold forest_leaves. by rewrite Hp. Qed.

Lemma pq_top_Some_of_size q : (0 < pq_size q)%nat -> is_Some (pq_top q).
Proof.
  unfold pq_size. intros Hs. apply pq_top_is_Some.
  destruct (pq_elements q); simpl in *; [lia|done].
Qed.

Lemma pq_size_push x q : pq_size (pq_push x q) = S (pq_size q).
Proof. unfold pq_size. by rewrite pq_elements_push. Qed.

Lemma pq_size_pop q x : pq_top q = Some x -> pq_size q = S (pq_size (pq_pop q)).
Proof. unfold pq_size. intros Ht. by rewrite (pq_elements_pop q x Ht). Qed.

Lemma pq_elements_singleton q :
  pq_size q = 1%nat -> exists x, pq_elements q = [x] /\ pq_top q = Some x
                                 /\ pq_elements (pq_pop q) = [].
Proof.
  intros Hs. destruct (pq_top_Some_of_size q) as [x Hx]; [lia|].
  pose proof (pq_elements_pop q x Hx) as Hp.
  pose proof (pq_size_pop q x Hx) as Hs'. unfold pq_size in Hs, Hs'.
  destruct (pq_elements (pq_pop q)) as [|??] eqn:E; simpl in *; [|lia].
  exists x. by apply Permutation_singleton_r in Hp.
Qed.

Lemma push_leaves_elements m :
  pq_elements (push_leaves m)
  ≡ₚ (fun kv : char * Z => make_shared kv.1 kv.2) <$> map_items m.
Proof.
  unfold push_leaves.
  assert (forall items q,
    pq_elements (fold_left (fun pq '(key, val) =>
                   pq_push (make_shared key val) pq) items q)
    ≡ₚ ((fun kv : char * Z => make_shared kv.1 kv.2) <$> items)
       ++ pq_elements q) as Hfold.
  { induction items as [|[k v] items IH]; intros q; simpl; [done|].
    rewrite IH, pq_elements_push. simpl. by rewrite Permutation_middle. }
  by rewrite Hfold, pq_elements_new, app_nil_r.
Qed.

Lemma pq_size_push_leaves m : pq_size (push_leaves m) = size m.
Proof.
  unfold pq_size. by rewrite push_leaves_elements, length_fmap, length_map_items.
Qed.

Lemma forest_leaves_push_leaves m :
  forest_leaves (pq_elements (push_leaves m)) ≡ₚ map_items m.
Proof.
  rewrite (forest_leaves_perm _ _ (push_leaves_elements m)).
  unfold forest_leaves. induction (map_items m) as [|[k v] items IH]; [done|].
  rewrite fmap_cons, bind_cons. simpl. by rewrite IH.
Qed.

(** The loop ends with a single node in the queue (never by running out of
    fuel), and this node holds all the leaves that were in the queue. *)
Lemma merge_loop_spec fuel q :
  (pq_size q <= fuel)%nat -> (0 < pq_size q)%nat ->
  exists q' root,
    merge_loop fuel q = Some q' /\ pq_elements q' = [root] /\
    leaves (ptr root) ≡ₚ forest_leaves (pq_elements q) /\
    ((1 < pq_size q)%nat \/ Forall (fun n => is_leaf n = false) (pq_elements q)
     -> is_leaf root = false).
Proof.
  revert q. induction fuel as [|fuel IH]; intros q Hfuel Hpos.
  { lia. }
  destruct (decide (1 < pq_size q)%nat) as [Hgt|Hle].
  - simpl. rewrite bool_decide_true by done.
    destruct (pq_top_Some_of_size q) as [l Hl]; [lia|]. rewrite Hl. simpl.
    pose proof (pq_size_pop q l Hl) as Hs1.
    destruct (pq_top_Some_of_size (pq_pop q)) as [r Hr]; [lia|]. rewrite Hr. simpl.
    pose proof (pq_size_pop _ r Hr) as Hs2.
    set (newNode := Node _ _ (ptr l) (ptr r)).
    set (q2 := pq_push newNode (pq_pop (pq_pop q))).
    assert (pq_size q2 = S (pq_size (pq_pop (pq_pop q)))) as Hs3
      by apply pq_size_push.
    destruct (IH q2) as (q' & root & Hrun & Hq' & Hleaves & Hinternal); [lia..|].
    exists q', root. split_and!; [done|done| |].
    + rewrite Hleaves. unfold q2.
      rewrite (forest_leaves_perm _ _ (pq_elements_push _ _)).
      rewrite (forest_leaves_perm (pq_elements q) _ (pq_elements_pop q l Hl)).
      assert (forall x xs, forest_leaves (x :: xs)
                           = leaves (ptr x) ++ forest_leaves xs) as Hcons by done.
      rewrite !Hcons.
      rewrite (forest_leaves_perm (pq_elements (pq_pop q)) _
                 (pq_elements_pop _ r Hr)).
      rewrite Hcons. simpl. by rewrite <- app_assoc.
    + intros _. apply Hinternal.
      destruct (decide (1 < pq_size q2)%nat); [by left|right].
      destruct (pq_elements_singleton q2) as (x & Hx & _); [lia|].
      pose proof (pq_elements_push newNode (pq_pop (pq_pop q))) as Hp.
      fold q2 in Hp. rewrite Hx in Hp.
      assert (pq_elements (pq_pop (pq_pop q)) = []) as Hnil.
      { unfold pq_size in *. destruct (pq_elements (pq_pop (pq_pop q)));
          simpl in *; [done|lia]. }
      rewrite Hnil in Hp. apply Permutation_singleton_r in Hp. rewrite Hx, Hp.
      by constructor.
  - destruct (pq_elements_singleton q) as (x & Hx & _); [lia|].
    exists q, x. split_and!.
    + destruct fuel; simpl; by rewrite bool_decide_false.
    + done.
    + rewrite Hx. unfold forest_leaves. simpl. by rewrite app_nil_r.
    + intros [?|Hall]; [lia|]. rewrite Hx in Hall. by inversion Hall.
Qed.

(** [buildHuffmanTree] always returns; for a table that is not empty the
    root is an inner node whose leaves are the entries of the table. *)
Lemma buildHuffmanTree_spec m :
  m <> ∅ ->
  exists root,
    buildHuffmanTree m = Some (ptr root) /\ is_leaf root = false /\
    leaves (ptr root) ≡ₚ map_items m.
Proof.
  intros Hne. unfold buildHuffmanTree.
  pose proof (pq_size_push_leaves m) as Hsize.
  assert (size m <> 0%nat) as Hsz by by rewrite map_size_non_empty_iff.
  unfold pq_empty. rewrite bool_decide_false by lia.
  assert (exists q1, add_dummy_parent (push_leaves m) = Some q1 /\
            (0 < pq_size q1)%nat /\
            forest_leaves (pq_elements q1) ≡ₚ map_items m /\
            ((1 < pq_size q1)%nat \/
             Forall (fun n => is_leaf n = false) (pq_elements q1)))
    as (q1 & -> & Hpos & Hleaves & Hint).
  { unfold add_dummy_parent.
    destruct (decide (pq_size (push_leaves m) = 1%nat)) as [H1|H1].
    - rewrite bool_decide_true by done.
      destruct (pq_elements_singleton _ H1) as (x & Hx & -> & Hpop). simpl.
      eexists. split; [done|].
      set (dummy := Node _ _ (ptr x) null).
      pose proof (pq_elements_push dummy (pq_pop (push_leaves m))) as Hp.
      rewrite Hpop in Hp. apply Permutation_singleton_r in Hp.
      unfold pq_size. rewrite Hp. simpl. split_and!; [lia| |].
      + rewrite <- forest_leaves_push_leaves, Hx. unfold forest_leaves.
        simpl. by rewrite !app_nil_r.
      + right. by repeat constructor.
    - rewrite bool_decide_false by done. eexists. split; [done|].
      split_and!; [lia|apply forest_leaves_push_leaves|left; lia]. }
  simpl. destruct (merge_loop_spec (pq_size q1) q1)
    as (q' & root & -> & Hq' & Hroot & Hinternal); [lia..|].
  simpl. destruct (pq_elements_singleton q') as (x & Hx & -> & _).
  { unfold pq_size. by rewrite Hq'. }
  simpl. exists x. rewrite Hq' in Hx. injection Hx as <-.
  split_and!; [done|by apply Hinternal|by rewrite Hroot].
Qed.

Lemma buildHuffmanTree_empty : buildHuffmanTree ∅ = Some null.
Proof.
  unfold buildHuffmanTree, pq_empty.
  by rewrite bool_decide_true by by rewrite pq_size_push_leaves, map_size_empty.
Qed.

(** [buildHuffmanTree] has no undefined behaviour. *)
Lemma buildHuffmanTree_total m : is_Some (buildHuffmanTree m).
Proof.
  destruct (decide (m = ∅)) as [->|Hne].
  - rewrite buildHuffmanTree_empty. eauto.
  - destruct (buildHuffmanTree_spec m Hne) as (root & -> & _). eauto.
Qed.

End Build.

(** ** Codes *)

Lemma append_nil_l (s : string) : ("" +:+ s = s)%string.
Proof. done. Qed.

Lemma append_cons (a : ascii) (s1 s2 : string) :
  String a s1 +:+ s2 = String a (s1 +:+ s2).
Proof. done. Qed.

Lemma append_assoc (s1 s2 s3 : string) : (s1 +:+ s2) +:+ s3 = s1 +:+ (s2 +:+ s3).
Proof.
  induction s1 as [|a s1 IH]; [done|]. by rewrite !append_cons, IH.
Qed.

Lemma code_string_prefix p1 p2 :
  string_prefix (code_string p1) (code_string p2) -> p1 `prefix_of` p2.
Proof.
  revert p2. induction p1 as [|b1 p1 IH]; intros p2 [s3 Hs].
  - apply prefix_nil.
  - destruct p2 as [|b2 p2]; simpl in Hs; rewrite append_cons in Hs; [done|].
    injection Hs as Hb Hs.
    assert (b2 = b1) as -> by by destruct b1, b2.
    apply prefix_cons, IH. by exists s3.
Qed.

Lemma bit_string_code_string p : bit_string (code_string p).
Proof.
  unfold bit_string. induction p as [|[] p IH]; simpl; constructor; auto.
Qed.

Lemma code_string_nil_inv p : code_string p = ""%string -> p = [].
Proof. by destruct p. Qed.

(** [generateCodes] stores, for every leaf in turn, the code of its path. *)
Lemma generateCodes_paths node code huffmanCodes :
  generateCodes node code huffmanCodes =
  fold_left (fun codes (leaf : char * list bool) =>
               <[leaf.1 := code +:+ code_string leaf.2]> codes)
            (paths node) huffmanCodes.
Proof.
  revert code huffmanCodes.
  induction node as [|d f l r IHl IHr] using shared_ptr_induction;
    intros code codes; [done|].
  simpl. rewrite IHl, IHr, !fold_left_app.
  assert (forall (b : bool) (ps : list (char * list bool))
                 (acc : gmap char string),
    fold_left (fun codes (leaf : char * list bool) =>
                 <[leaf.1 := code +:+ code_string leaf.2]> codes)
              (prod_map id (cons b) <$> ps) acc =
    fold_left (fun codes (leaf : char * list bool) =>
                 <[leaf.1 := (code +:+ (if b then "1" else "0")%string)
                             +:+ code_string leaf.2]> codes) ps acc) as Hmap.
  { intros b ps. induction ps as [|[c p] ps IH]; intros acc; [done|].
    simpl. rewrite IH. do 2 f_equal.
    rewrite append_assoc. by destruct b. }
  rewrite !Hmap. do 2 f_equal.
  destruct (is_leaf _); simpl; [|done].
  f_equal. clear. induction code as [|a code IH]; [done|].
  by rewrite append_cons, <- IH.
Qed.

Section FoldInsert.
Context {A B : Type} (g : A -> B).
Implicit Types (l : list (char * A)) (acc : gmap char B).

Lemma fold_insert_lookup_notin l acc c :
  c ∉ l.*1 ->
  fold_left (fun codes (kv : char * A) => <[kv.1 := g kv.2]> codes) l acc !! c
  = acc !! c.
Proof.
  revert acc. induction l as [|[k v] l IH]; intros acc Hc; [done|].
  simpl in *. apply not_elem_of_cons in Hc as [Hne Hc].
  rewrite IH by done. by rewrite lookup_insert_ne.
Qed.

Lemma fold_insert_lookup_in l acc c v :
  NoDup l.*1 -> (c, v) ∈ l ->
  fold_left (fun codes (kv : char * A) => <[kv.1 := g kv.2]> codes) l acc !! c
  = Some (g v).
Proof.
  revert acc. induction l as [|[k w] l IH]; intros acc Hnd Hin.
  - by apply elem_of_nil in Hin.
  - simpl in *. apply NoDup_cons in Hnd as [Hk Hnd].
    apply elem_of_cons in Hin as [[= <- <-]|Hin].
    + rewrite fold_insert_lookup_notin by done. apply lookup_insert_eq.
    + by apply IH.
Qed.

End FoldInsert.

(** With distinct symbols at the leaves, the code table holds exactly the
    codes of the paths. *)
Lemma generateCodes_lookup node c code :
  NoDup (paths node).*1 ->
  generateCodes node "" ∅ !! c = Some code <->
  exists p, (c, p) ∈ paths node /\ code = code_string p.
Proof.
  intros Hnd. rewrite generateCodes_paths.
  destruct (decide (c ∈ (paths node).*1)) as [Hin|Hnotin].
  - apply list_elem_of_fmap in Hin as ([c' p] & -> & Hin).
    rewrite (fold_insert_lookup_in (fun p => "" +:+ code_string p) _ _ _ _ Hnd Hin).
    rewrite append_nil_l. split.
    + intros [= <-]. eauto.
    + intros (p' & Hin' & ->). do 2 f_equal.
      apply list_elem_of_lookup in Hin as [i Hi].
      apply list_elem_of_lookup in Hin' as [j Hj].
      assert (i = j) as ->; [|congruence].
      eapply NoDup_lookup; [exact Hnd| |]; rewrite list_lookup_fmap.
      * by rewrite Hi.
      * by rewrite Hj.
  - rewrite (fold_insert_lookup_notin (fun p => "" +:+ code_string p))
      by done.
    rewrite lookup_empty. split; [done|].
    intros (p & Hin & _). destruct Hnotin.
    apply list_elem_of_fmap. by exists (c, p).
Qed.

Lemma descend_paths node c p :
  (c, p) ∈ paths node ->
  exists n, descend node p = ptr n /\ is_leaf n = true /\ data n = c /\
            (c, frequency n) ∈ leaves node.
Proof.
  revert p. induction node as [|d f l r IHl IHr] using shared_ptr_induction;
    intros p Hin; cbn [paths leaves] in *.
  - by apply elem_of_nil in Hin.
  - rewrite !elem_of_app, !list_elem_of_fmap in Hin.
    destruct Hin as [Hin|[([c' p'] & E & Hin)|([c' p'] & E & Hin)]].
    + destruct (is_leaf _) eqn:Hleaf; [|by apply elem_of_nil in Hin].
      apply list_elem_of_singleton in Hin as [= -> ->].
      exists (Node d f l r). rewrite !elem_of_app, list_elem_of_singleton.
      split_and!; auto.
    + simplify_eq/=. destruct (IHl _ Hin) as (n & ? & ? & ? & ?).
      exists n. rewrite !elem_of_app. split_and!; auto.
    + simplify_eq/=. destruct (IHr _ Hin) as (n & ? & ? & ? & ?).
      exists n. rewrite !elem_of_app. split_and!; auto.
Qed.

Section CodeTable.
Context `{!Platform} `{!PriorityQueue}.

(** The tree built for a table and the paths of its leaves. *)
Lemma buildHuffmanTree_paths (frequencyMap : gmap char Z) :
  frequencyMap <> ∅ ->
  exists root,
    buildHuffmanTree frequencyMap = Some (ptr root) /\ is_leaf root = false /\
    NoDup (paths (ptr root)).*1 /\
    (forall c, c ∈ (paths (ptr root)).*1 <-> is_Some (frequencyMap !! c)).
Proof.
  intros Hne. destruct (buildHuffmanTree_spec _ Hne) as (root & Hb & Hint & Hl).
  exists root. split_and!; [done|done| |].
  - rewrite paths_fst, Hl. apply NoDup_map_items_fst.
  - intros c. rewrite paths_fst, Hl, list_elem_of_fmap. split.
    + intros ([c' v] & -> & Hin). apply elem_of_map_items in Hin. eauto.
    + intros [v Hv]. exists (c, v). by rewrite elem_of_map_items.
Qed.

Lemma code_table_dom (frequencyMap : gmap char Z) r :
  NoDup (paths (ptr r)).*1 ->
  (forall c, c ∈ (paths (ptr r)).*1 <-> is_Some (frequencyMap !! c)) ->
  dom (generateCodes (ptr r) "" ∅) = dom frequencyMap.
Proof.
  intros Hnd Hdom. apply set_eq. intros c.
  rewrite !elem_of_dom, <- Hdom, list_elem_of_fmap. split.
  - intros [code Hc]. apply generateCodes_lookup in Hc as (p & Hp & _); [|done].
    by exists (c, p).
  - intros ([c' p] & -> & Hp). exists (code_string p).
    apply generateCodes_lookup; eauto.
Qed.

(** C5: for a frequency table that is not empty, the code table generated
    from the tree built over it has one entry for every symbol of the
    frequency table and for no other; every code is a non-empty string of
    the characters '0' and '1'; and the code of one symbol is never a
    prefix of the code of another symbol. *)
Theorem codes_prefix_free (frequencyMap : gmap char Z) :
  frequencyMap <> ∅ ->
  exists treeRoot,
    buildHuffmanTree frequencyMap = Some treeRoot /\
    let huffmanCodes := generateCodes treeRoot "" ∅ in
    dom huffmanCodes = dom frequencyMap /\
    (forall c code,
       huffmanCodes !! c = Some code -> code <> ""%string /\ bit_string code) /\
    (forall c1 c2 code1 code2,
       c1 <> c2 ->
       huffmanCodes !! c1 = Some code1 -> huffmanCodes !! c2 = Some code2 ->
       ~ string_prefix code1 code2).
Proof.
  intros Hne.
  destruct (buildHuffmanTree_paths _ Hne) as (root & Hb & Hint & Hnd & Hdom).
  exists (ptr root). split; [done|]. cbv zeta. split_and!.
  - by apply code_table_dom.
  - intros c code Hc. apply generateCodes_lookup in Hc as (p & Hp & ->); [|done].
    split; [|apply bit_string_code_string].
    intros ->%code_string_nil_inv.
    by apply (paths_nonempty_of_internal root c []).
  - intros c1 c2 code1 code2 Hc Hc1 Hc2 Hpre.
    apply generateCodes_lookup in Hc1 as (p1 & Hp1 & ->); [|done].
    apply generateCodes_lookup in Hc2 as (p2 & Hp2 & ->); [|done].
    apply code_string_prefix in Hpre.
    apply list_elem_of_lookup in Hp1 as [i Hi].
    apply list_elem_of_lookup in Hp2 as [j Hj].
    pose proof (paths_prefix_free _ _ _ _ _ _ _ Hi Hj Hpre). congruence.
Qed.

(** C6: for a frequency table with exactly one symbol, the tree is one
    inner node whose left child is the leaf of that symbol and whose right
    child is absent, and the symbol gets the code "0". *)
Theorem single_symbol_tree (c : char) (f : Z) :
  buildHuffmanTree {[c := f]}
  = Some (ptr (Node "$"%byte f (ptr (Node c f null null)) null)) /\
  generateCodes (ptr (Node "$"%byte f (ptr (Node c f null null)) null)) "" ∅
  = {[c := "0"%string]}.
Proof.
  split; [|done].
  unfold buildHuffmanTree, pq_empty.
  pose proof (pq_size_push_leaves {[c := f]}) as Hsize.
  rewrite map_size_singleton in Hsize.
  rewrite bool_decide_false by lia.
  unfold add_dummy_parent. rewrite bool_decide_true by done.
  destruct (pq_elements_singleton _ Hsize) as (x & Hx & -> & Hpop). simpl.
  pose proof (push_leaves_elements {[c := f]}) as Hp.
  rewrite map_items_singleton, Hx in Hp. apply Permutation_singleton_l in Hp.
  injection Hp as ->. simpl.
  set (dummy := Node _ _ _ null).
  pose proof (pq_elements_push dummy (pq_pop (push_leaves {[c := f]}))) as Hd.
  rewrite Hpop in Hd. apply Permutation_singleton_r in Hd.
  assert (pq_size (pq_push dummy (pq_pop (push_leaves {[c := f]}))) = 1%nat)
    as Hone by (unfold pq_size; by rewrite Hd).
  rewrite Hone. simpl. rewrite bool_decide_false by lia. simpl.
  destruct (pq_elements_singleton _ Hone) as (y & Hy & -> & _).
  simpl. congruence.
Qed.

End CodeTable.

(** ** The header *)

Lemma read_exact bs rest :
  read (length bs) {| unread := bs ++ rest; failbit := false |}
  = (bs, {| unread := rest; failbit := false |}).
Proof.
  unfold read. simpl. rewrite take_app_length, drop_app_length.
  by rewrite bool_decide_false by (rewrite length_app; lia).
Qed.

Lemma store_full n old got : length got = n -> store n old got = got.
Proof.
  intros <-. unfold store.
  rewrite drop_ge by by rewrite length_le_bytes. apply app_nil_r.
Qed.

Lemma read_failed n s : failbit s = true -> read n s = ([], s).
Proof. unfold read. by intros ->. Qed.

Section Header.
Context `{!Platform} `{!PriorityQueue}.

Lemma size_le_256 {V} (m : gmap char V) : (size m <= 256)%nat.
Proof.
  rewrite <- length_map_items, <- (length_fmap fst), map_items_fst.
  etrans; [apply length_filter|]. by rewrite length_chars_ascending.
Qed.

Lemma readHeader_loop_pairs ind items i rest acc :
  Forall (fun kv : char * Z => 0 <= kv.2 < 2 ^ 32) items ->
  readHeader_loop ind (length items) i
    {| unread := flat_map (fun pair : char * Z =>
                             pair.1 :: le_bytes sizeof_unsigned pair.2) items
                 ++ rest;
       failbit := false |} acc
  = (fold_left (fun m (kv : char * Z) => <[kv.1 := id kv.2]> m) items acc,
     {| unread := rest; failbit := false |}).
Proof.
  revert i acc. induction items as [|[c f] items IH]; intros i acc Hr; [done|].
  apply Forall_cons in Hr as [Hf Hr]. simpl in Hf.
  cbn [length flat_map readHeader_loop fst snd]. rewrite <- app_assoc.
  change ((c :: le_bytes sizeof_unsigned f) ++ ?l)
    with ([c] ++ (le_bytes sizeof_unsigned f ++ l)).
  rewrite (read_exact [c]).
  pose proof (read_exact (le_bytes sizeof_unsigned f)) as Hread.
  rewrite length_le_bytes in Hread. rewrite Hread.
  rewrite store_full by apply length_le_bytes.
  rewrite le_value_le_bytes_small
    by (change (256 ^ Z.of_nat sizeof_unsigned) with (2 ^ 32); lia).
  by rewrite IH.
Qed.

Lemma fold_insert_map_items (m : gmap char Z) :
  fold_left (fun acc (kv : char * Z) => <[kv.1 := id kv.2]> acc) (map_items m) ∅
  = m.
Proof.
  apply map_eq. intros c. destruct (m !! c) as [v|] eqn:E.
  - apply (fold_insert_lookup_in id); [apply NoDup_map_items_fst|].
    by apply elem_of_map_items.
  - rewrite (fold_insert_lookup_notin id); [done|].
    intros ([c' v] & -> & Hin%elem_of_map_items)%list_elem_of_fmap.
    simpl in E. congruence.
Qed.

(** Reading back a header, with any bytes after it left unread. *)
Lemma readHeader_writeHeader ind (frequencyMap : gmap char Z) rest :
  unsigned_values frequencyMap ->
  readHeader ind (open (writeHeader frequencyMap ++ rest))
  = (frequencyMap, {| unread := rest; failbit := false |}).
Proof.
  intros Hu. unfold readHeader, writeHeader, open. rewrite <- app_assoc.
  pose proof (read_exact (le_bytes sizeof_size_t (Z.of_nat (size frequencyMap))))
    as Hread.
  rewrite length_le_bytes in Hread. rewrite Hread.
  rewrite store_full by apply length_le_bytes.
  pose proof (size_le_256 frequencyMap).
  rewrite le_value_le_bytes_small
    by (change (256 ^ Z.of_nat sizeof_size_t) with (2 ^ 64); lia).
  rewrite Nat2Z.id, <- length_map_items.
  rewrite readHeader_loop_pairs.
  - by rewrite fold_insert_map_items.
  - apply Forall_forall. intros [c f] Hin%elem_of_map_items. simpl. eauto.
Qed.

(** C7: for a frequency table that is not empty, reading the bytes that
    [writeHeader] wrote reconstructs exactly the table, and leaves the
    stream in a good state at the end of the header. *)
Theorem header_round_trip ind (T : gmap char Z) :
  T <> ∅ -> unsigned_values T ->
  readHeader ind (open (writeHeader T))
  = (T, {| unread := []; failbit := false |}).
Proof.
  intros _ Hu. rewrite <- (app_nil_r (writeHeader T)).
  by apply readHeader_writeHeader.
Qed.

(** C8, as amended: the header is the number of entries followed by the
    entries of the table in strictly ascending order of the symbol as a
    [char].  Where [char] is unsigned this is the order of the byte values
    0..255; where [char] is signed the bytes 128..255 are negative and come
    before the bytes 0..127. *)
Theorem header_in_char_order (T : gmap char Z) :
  T <> ∅ ->
  exists items : list (char * Z),
    writeHeader T
    = le_bytes sizeof_size_t (Z.of_nat (length items)) ++
      flat_map (fun pair : char * Z =>
                  pair.1 :: le_bytes sizeof_unsigned pair.2) items /\
    (forall c f, (c, f) ∈ items <-> T !! c = Some f) /\
    StronglySorted char_lt items.*1 /\
    (char_signed = false -> writeHeader T = header_by_byte_value T).
Proof.
  intros _. exists (map_items T). split_and!.
  - unfold writeHeader. by rewrite length_map_items.
  - apply elem_of_map_items.
  - apply map_items_sorted.
  - intros Hs. unfold header_by_byte_value, writeHeader, map_items, chars_ascending.
    by rewrite Hs.
Qed.

End Header.

(** ** Headers that end early *)

Section ShortHeader.
Context `{!Platform} `{!PriorityQueue}.

Lemma readHeader_loop_failed ind n i s acc :
  failbit s = true -> (readHeader_loop ind n i s acc).2 = s.
Proof.
  revert i acc. induction n as [|n IH]; intros i acc Hs; [done|].
  simpl. rewrite !read_failed by done. by apply IH.
Qed.

Lemma decodeData_failed frequencyMap treeRoot s :
  failbit s = true -> decodeData frequencyMap treeRoot s = Some [].
Proof.
  intros Hs. unfold decodeData, remaining. rewrite Hs.
  by destruct (_ =? 0).
Qed.

Lemma decompress_failed_header ind file m s :
  readHeader ind (open file) = (m, s) -> failbit s = true ->
  succeeds_with [] (decompress ind file).
Proof.
  intros Hr Hs. unfold succeeds_with, decompress. rewrite Hr.
  destruct (buildHuffmanTree_total m) as [t ->]. simpl.
  by rewrite decodeData_failed.
Qed.

Lemma fold_insert_list_to_map (items : list (char * Z)) :
  fold_left (fun (m : gmap char Z) (kv : char * Z) => <[kv.1 := id kv.2]> m)
            items ∅
  = list_to_map (reverse items).
Proof.
  induction items as [|[c f] items IH] using rev_ind; [done|].
  by rewrite fold_left_app, reverse_snoc, IH.
Qed.

(** A [read] that finds all its bytes. *)
Lemma read_into_local_exact n bytes :
  (n <= length bytes)%nat ->
  read_into_local n {| unread := bytes; failbit := false |}
  = Some (take n bytes, {| unread := drop n bytes; failbit := false |}).
Proof.
  intros Hn. unfold read_into_local, read. cbn [failbit unread].
  rewrite bool_decide_true by (rewrite length_take; lia).
  by rewrite bool_decide_false by lia.
Qed.

(** A [read] that does not. *)
Lemma read_into_local_short n s :
  n <> 0%nat ->
  failbit s = true \/ (length (unread s) < n)%nat ->
  read_into_local n s = None.
Proof.
  intros Hn Hs. unfold read_into_local, read. destruct (failbit s) eqn:Hf.
  - by rewrite bool_decide_false by (cbn; lia).
  - destruct Hs as [?|Hs]; [done|].
    rewrite bool_decide_false; [done|]. rewrite length_take. lia.
Qed.

(** As long as the pairs are there the loop stores them, every local
    assigned. *)
Lemma readHeader_loop_defined_pairs n : forall bytes acc,
  ((1 + sizeof_unsigned) * n <= length bytes)%nat ->
  readHeader_loop_defined n {| unread := bytes; failbit := false |} acc
  = Some (fold_left (fun (m : gmap char Z) (kv : char * Z) =>
                       <[kv.1 := id kv.2]> m) (pairs_of n bytes) acc,
          {| unread := drop ((1 + sizeof_unsigned) * n) bytes;
             failbit := false |}).
Proof.
  unfold sizeof_unsigned.
  induction n as [|n IH]; intros bytes acc Hlen.
  { by rewrite Nat.mul_0_r, drop_0. }
  destruct bytes as [|c bytes]; [cbn in Hlen; lia|].
  rewrite length_cons in Hlen.
  cbn [readHeader_loop_defined].
  rewrite read_into_local_exact by (cbn; lia).
  change (take 1 (c :: bytes)) with [c].
  change (drop 1 (c :: bytes)) with bytes.
  rewrite read_into_local_exact by (unfold sizeof_unsigned; lia).
  rewrite IH by (rewrite length_drop; unfold sizeof_unsigned; lia).
  cbn [pairs_of fold_left fst snd id]. rewrite drop_drop.
  unfold sizeof_unsigned.
  replace ((1 + 4) * S n)%nat with (S (4 + (1 + 4) * n)) by lia.
  done.
Qed.

(** Once the stream cannot satisfy the iterations that are left, the
    loop reads a local that no [read] has assigned. *)
Lemma readHeader_loop_defined_short n : forall s acc,
  failbit s = true \/ (length (unread s) < (1 + sizeof_unsigned) * n)%nat ->
  n <> 0%nat ->
  readHeader_loop_defined n s acc = None.
Proof.
  unfold sizeof_unsigned.
  induction n as [|n IH]; intros [bytes fb] acc Hs Hn; [done|].
  cbn [failbit unread] in Hs. cbn [readHeader_loop_defined].
  destruct fb.
  { by rewrite read_into_local_short by (done || by left). }
  destruct Hs as [?|Hs]; [done|].
  destruct bytes as [|c bytes].
  { by rewrite read_into_local_short by (done || right; cbn; lia). }
  rewrite read_into_local_exact by (cbn; lia).
  change (take 1 (c :: bytes)) with [c].
  change (drop 1 (c :: bytes)) with bytes.
  rewrite length_cons in Hs.
  destruct (decide (length bytes < sizeof_unsigned)%nat) as [Hf|Hf].
  { by rewrite read_into_local_short by (done || by right). }
  unfold sizeof_unsigned in Hf.
  rewrite read_into_local_exact by (unfold sizeof_unsigned; lia).
  apply IH; [|lia]. right. cbn [unread]. rewrite length_drop.
  unfold sizeof_unsigned. lia.
Qed.


(** Where every local is assigned, what the uninitialised locals held
    does not matter. *)
Lemma readHeader_loop_defined_agrees ind n : forall i s acc r,
  readHeader_loop_defined n s acc = Some r ->
  readHeader_loop ind n i s acc = r.
Proof.
  induction n as [|n IH]; intros i s acc r; cbn [readHeader_loop_defined];
    [by intros [= <-]|].
  unfold read_into_local. cbn [readHeader_loop].
  destruct (read 1 s) as [got1 s1].
  case_bool_decide as H1; [|done].
  destruct got1 as [|c got1]; [done|].
  destruct (read sizeof_unsigned s1) as [got2 s2].
  case_bool_decide as H2; [|done].
  rewrite store_full by done. apply IH.
Qed.

Lemma readHeader_defined_agrees ind s r :
  readHeader_defined s = Some r -> readHeader ind s = r.
Proof.
  unfold readHeader_defined, readHeader, read_into_local.
  destruct (read sizeof_size_t s) as [got s1].
  case_bool_decide as H1; [|done].
  rewrite store_full by done. apply readHeader_loop_defined_agrees.
Qed.


End ShortHeader.

(** ** The frequency table *)

Lemma buildFrequencyTable_snoc file b :
  buildFrequencyTable (file ++ [b])
  = <[b := wrap32 (default 0 (buildFrequencyTable file !! b) + 1)]>
      (buildFrequencyTable file).
Proof. unfold buildFrequencyTable. by rewrite fold_left_app. Qed.

(** Every counter holds the number of occurrences modulo [2^32]; bytes
    that do not occur have no entry. *)
Lemma buildFrequencyTable_lookup file c :
  buildFrequencyTable file !! c
  = if decide (occurrences c file = 0%nat) then None
    else Some (wrap32 (Z.of_nat (occurrences c file))).
Proof.
  unfold occurrences. induction file as [|b file IH] using rev_ind; [done|].
  rewrite buildFrequencyTable_snoc, count_occ_app.
  destruct (decide (b = c)) as [->|Hne].
  - rewrite lookup_insert_eq, IH, count_occ_cons_eq by done.
    simpl (count_occ _ [] _).
    destruct (decide (_ + 1 = 0)%nat) as [?|_]; [lia|].
    f_equal. unfold wrap32. destruct (decide _) as [->|_]; simpl; [done|].
    rewrite Z.add_mod_idemp_l by done. f_equal. lia.
  - rewrite lookup_insert_ne, IH, count_occ_cons_neq by done.
    by rewrite Nat.add_0_r.
Qed.

Lemma buildFrequencyTable_empty_iff file : buildFrequencyTable file = ∅ <-> file = [].
Proof.
  split; [|by intros ->].
  destruct file as [|b file]; [done|]. intros E.
  apply (f_equal (fun m => m !! b)) in E.
  rewrite buildFrequencyTable_lookup, lookup_empty in E.
  unfold occurrences in E. simpl in E.
  destruct (byte_eq_dec b b); [|done]. by destruct (decide _).
Qed.

Lemma buildFrequencyTable_unsigned file : unsigned_values (buildFrequencyTable file).
Proof.
  intros c f. rewrite buildFrequencyTable_lookup.
  destruct (decide _); [done|]. intros [= <-]. apply wrap32_range.
Qed.

Lemma buildFrequencyTable_is_Some file c :
  is_Some (buildFrequencyTable file !! c) <-> c ∈ file.
Proof.
  rewrite buildFrequencyTable_lookup, list_elem_of_In.
  rewrite (count_occ_In byte_eq_dec). unfold occurrences.
  destruct (decide _) as [E|E].
  - rewrite E. split; [by intros [? ?]|lia].
  - split; [lia|eauto].
Qed.


Lemma sum_indicator (b : char) (l : list char) :
  NoDup l ->
  foldr Z.add 0 ((fun c => if decide (b = c) then 1 else 0) <$> l)
  = if decide (b ∈ l) then 1 else 0.
Proof.
  induction l as [|a l IH]; intros Hnd; [done|].
  apply NoDup_cons in Hnd as [Ha Hnd].
  rewrite fmap_cons. cbn [foldr]. rewrite IH by done.
  destruct (decide (b = a)) as [->|Hne].
  - rewrite decide_False by done. rewrite decide_True; [done|]. left.
  - destruct (decide (b ∈ l)) as [Hin|Hin].
    + rewrite decide_True; [done|]. by right.
    + rewrite decide_False; [done|]. by intros [?|?]%elem_of_cons.
Qed.

Lemma sum_occurrences (l : list char) file :
  NoDup l -> (forall c, c ∈ l) ->
  foldr Z.add 0 ((fun c => Z.of_nat (occurrences c file)) <$> l)
  = Z.of_nat (length file).
Proof.
  intros Hnd Hall. unfold occurrences. induction file as [|b file IH].
  - clear. induction l as [|a l IHl]; [done|].
    rewrite fmap_cons. cbn [foldr]. by rewrite IHl.
  - rewrite length_cons, Nat2Z.inj_succ, <- IH.
    pose proof (sum_indicator b l Hnd) as Hb.
    rewrite decide_True in Hb by done.
    rewrite <- Z.add_1_l, <- Hb. clear. induction l as [|a l IHl]; [done|].
    rewrite !fmap_cons. cbn [foldr]. rewrite IHl.
    destruct (decide (b = a)) as [->|Hne].
    + rewrite count_occ_cons_eq by done. lia.
    + rewrite count_occ_cons_neq by done. lia.
Qed.

Section Total.
Context `{!Platform}.

Lemma totalChars_of_sum (frequencyMap : gmap char Z) :
  totalChars_of frequencyMap
  = foldr Z.add 0 ((fun c => default 0 (frequencyMap !! c)) <$> chars_ascending).
Proof.
  unfold totalChars_of, map_items.
  assert (forall (items : list (char * Z)) a,
            fold_left (fun t (pair : char * Z) => t + pair.2) items a
            = a + foldr Z.add 0 items.*2) as ->.
  { induction items as [|[c f] items IH]; intros a; [simpl; lia|].
    rewrite fmap_cons. cbn [fold_left foldr snd]. rewrite IH. lia. }
  induction chars_ascending as [|c l IH]; [done|].
  rewrite fmap_cons. cbn [omap list_omap foldr].
  destruct (frequencyMap !! c);
    [rewrite fmap_cons; cbn [foldr snd default id]|cbn [default]]; lia.
Qed.

(** The symbol count that the decoder derives from the table is the
    length of the file, as long as no counter wrapped around. *)
Lemma totalChars_of_buildFrequencyTable file :
  counters_fit file ->
  totalChars_of (buildFrequencyTable file) = Z.of_nat (length file).
Proof.
  intros Hfit. rewrite totalChars_of_sum.
  rewrite <- (sum_occurrences chars_ascending file)
    by auto using NoDup_chars_ascending, elem_of_chars_ascending.
  f_equal. apply list_fmap_ext. intros _ c _.
  rewrite buildFrequencyTable_lookup. destruct (decide _) as [->|_]; [done|].
  simpl. unfold wrap32. specialize (Hfit c).
  apply Z.mod_small. lia.
Qed.

End Total.

(** ** Packing bits into bytes *)

Lemma bits_value_snoc bits b :
  bits_value (bits ++ [b]) = 2 * bits_value bits + Z.b2z b.
Proof. unfold bits_value. by rewrite fold_left_app. Qed.

Lemma bits_value_range bits : 0 <= bits_value bits < 2 ^ Z.of_nat (length bits).
Proof.
  induction bits as [|b bits IH] using rev_ind;
    [vm_compute; split; [discriminate|reflexivity]|].
  rewrite bits_value_snoc, length_app, Nat2Z.inj_add, Z.pow_add_r by lia.
  simpl (length [b]). change (2 ^ Z.of_nat 1) with 2. destruct b; simpl; lia.
Qed.

Lemma bits_value_app_zeros bits n :
  bits_value (bits ++ repeat false n) = bits_value bits * 2 ^ Z.of_nat n.
Proof.
  induction n as [|n IH].
  - simpl. rewrite app_nil_r. lia.
  - cbn [repeat]. rewrite repeat_cons, app_assoc, bits_value_snoc, IH.
    rewrite Nat2Z.inj_succ, Z.pow_succ_r by lia. simpl. lia.
Qed.

Lemma bits_of_code_string p : bits_of_code (code_string p) = p.
Proof.
  unfold bits_of_code. induction p as [|b p IH]; [done|].
  simpl. f_equal; [by destruct b|exact IH].
Qed.

Section Packing.
Context `{!Platform}.

Lemma bits_of_byte_of_bits (bits : list bool) :
  length bits = 8%nat -> bits_of_byte (byte_of_Z (bits_value bits)) = bits.
Proof.
  intros Hlen.
  do 9 (destruct bits as [|? bits]; try done).
  case_platform; repeat match goal with b : bool |- _ => destruct b end;
    vm_compute; reflexivity.
Qed.

Lemma length_bits_of_byte b : length (bits_of_byte b) = 8%nat.
Proof. done. Qed.

Lemma bit_char_value (b : bool) :
  char_value (byte_of_ascii (if b then "1" else "0")%char) - char_value "0"%byte
  = Z.b2z b.
Proof. case_platform; by destruct b. Qed.

Lemma put_bit_holds st bits (b : bool) :
  packer_holds st bits ->
  packer_holds (put_bit st (if b then "1" else "0")%char) (bits ++ [b]).
Proof.
  intros (pending & Hlen & Hbuf & Hcnt & Hbits). unfold put_bit.
  rewrite bit_char_value, Hbuf, Hcnt.
  pose proof (bits_value_range pending) as Hr.
  assert (2 ^ Z.of_nat (length pending) <= 2 ^ 7) as Hp
    by (apply Z.pow_le_mono_r; lia).
  assert (Z.lor (Z.shiftl (bits_value pending) 1) (Z.b2z b) mod 256
          = bits_value (pending ++ [b])) as ->.
  { rewrite bits_value_snoc, Z.shiftl_mul_pow2 by lia.
    change (2 ^ 1) with 2. rewrite (Z.mul_comm _ 2).
    rewrite <- Z.add_nocarry_lor.
    - apply Z.mod_small. destruct b; simpl; lia.
    - destruct b; simpl Z.b2z; [|apply Z.land_0_r].
      change 1 with (Z.ones 1). rewrite Z.land_ones by lia.
      change (2 ^ 1) with 2. rewrite Z.mul_comm. apply Z.mod_mul. lia. }
  destruct (Z.of_nat (length pending) + 1 =? 8) eqn:E.
  - exists []. cbn [packed buffer bitCount length].
    split_and!; [lia|done|done|].
    rewrite app_nil_r, flat_map_app. cbn [flat_map].
    rewrite bits_of_byte_of_bits by (rewrite length_app; simpl; lia).
    by rewrite app_nil_r, <- Hbits, app_assoc.
  - exists (pending ++ [b]). simpl. rewrite length_app. simpl.
    split_and!; [lia|done|lia|]. by rewrite <- Hbits, app_assoc.
Qed.

Lemma put_code_holds huffmanCodes st bits c p :
  huffmanCodes !! c = Some (code_string p) ->
  packer_holds st bits -> packer_holds (put_code huffmanCodes st c) (bits ++ p).
Proof.
  intros Hc. unfold put_code. rewrite Hc. simpl. clear Hc.
  revert st bits. induction p as [|b p IH]; intros st bits Hst.
  - by rewrite app_nil_r.
  - simpl. change (bits ++ b :: p) with (bits ++ [b] ++ p).
    rewrite app_assoc. apply IH. by apply put_bit_holds.
Qed.

Lemma fold_put_code_holds huffmanCodes file st bits :
  (forall c, c ∈ file -> exists p, huffmanCodes !! c = Some (code_string p)) ->
  packer_holds st bits ->
  packer_holds (fold_left (put_code huffmanCodes) file st)
               (bits ++ encode huffmanCodes file).
Proof.
  revert st bits. induction file as [|c file IH]; intros st bits Hc Hst.
  - by rewrite app_nil_r.
  - destruct (Hc c) as [p Hp]; [left|].
    simpl. rewrite Hp. simpl. rewrite bits_of_code_string, app_assoc.
    apply IH; [intros; apply Hc; by right|].
    by eapply put_code_holds.
Qed.

(** The bytes written by [writeCompressedData] spell the codes of the
    file, followed by fewer than eight zero bits. *)
Lemma writeCompressedData_bits huffmanCodes file :
  (forall c, c ∈ file -> exists p, huffmanCodes !! c = Some (code_string p)) ->
  exists n,
    flat_map bits_of_byte (writeCompressedData huffmanCodes file)
    = encode huffmanCodes file ++ repeat false n.
Proof.
  intros Hc. unfold writeCompressedData.
  destruct (fold_put_code_holds huffmanCodes file
              {| buffer := 0; bitCount := 0; packed := [] |} [] Hc)
    as (pending & Hlen & Hbuf & Hcnt & Hbits).
  { exists []. simpl. split_and!; [lia|done..]. }
  simpl in Hbits. rewrite <- Hbits, Hcnt, Hbuf.
  destruct (0 <? Z.of_nat (length pending)) eqn:E.
  - exists (8 - length pending)%nat.
    rewrite flat_map_app, <- app_assoc. f_equal.
    cbn [flat_map]. rewrite app_nil_r.
    pose proof (bits_value_app_zeros pending (8 - length pending)) as Hz.
    rewrite Z.shiftl_mul_pow2 by lia.
    replace (8 - Z.of_nat (length pending))
      with (Z.of_nat (8 - length pending)) by lia.
    rewrite <- Hz, Z.mod_small.
    + apply bits_of_byte_of_bits. rewrite length_app, repeat_length. lia.
    + pose proof (bits_value_range (pending ++ repeat false (8 - length pending)))
        as Hr.
      rewrite length_app, repeat_length in Hr.
      replace (length pending + (8 - length pending))%nat with 8%nat in Hr by lia.
      exact Hr.
  - exists 0%nat. simpl. rewrite app_nil_r. apply Z.ltb_ge in E.
    assert (pending = []) as ->
      by (destruct pending; [done|rewrite length_cons in E; lia]).
    by rewrite app_nil_r.
Qed.

End Packing.

(** ** Decoding *)

Lemma decode_bit_test treeRoot z st :
  decode_bit treeRoot z st = decode_bit treeRoot (Z.b2z (negb (z =? 0))) st.
Proof. unfold decode_bit. by destruct (z =? 0). Qed.

Lemma decode_bits_done treeRoot totalChars bits st :
  totalChars <= decodedCount st ->
  decode_bits treeRoot totalChars bits st = Some st.
Proof. intros. destruct bits; simpl; [done|]. by rewrite bool_decide_true. Qed.

Lemma decode_bits_app treeRoot totalChars bits1 bits2 st :
  decode_bits treeRoot totalChars (bits1 ++ bits2) st
  = decode_bits treeRoot totalChars bits1 st
      ≫= decode_bits treeRoot totalChars bits2.
Proof.
  revert st. induction bits1 as [|b bits1 IH]; intros st; [done|].
  simpl. case_bool_decide as Hc.
  - simpl. by rewrite decode_bits_done.
  - destruct (decode_bit _ _ _) as [st'|]; simpl; [apply IH|done].
Qed.

Section DecodeLoops.
Context `{!Platform}.

Lemma decode_byte_bits treeRoot totalChars byte n st :
  decode_byte treeRoot totalChars byte n st
  = decode_bits treeRoot totalChars
      ((fun i : nat =>
          negb (Z.land (Z.shiftr (char_value byte) (Z.of_nat i)) 1 =? 0))
       <$> rev (seq 0 n)) st.
Proof.
  revert st. induction n as [|i IH]; intros st; [done|].
  rewrite seq_S, rev_app_distr. cbn [rev app fmap list_fmap decode_byte decode_bits].
  case_bool_decide; [done|].
  rewrite <- decode_bit_test.
  destruct (decode_bit _ _ _) as [st'|]; simpl; [apply IH|done].
Qed.

(** The nested loops of [decodeData] run the decoder over the bits of
    the bytes. *)
Lemma decode_loop_bits treeRoot totalChars bytes st :
  decode_loop treeRoot totalChars bytes st
  = decode_bits treeRoot totalChars (flat_map bits_of_byte bytes) st.
Proof.
  revert st. induction bytes as [|byte bytes IH]; intros st; [done|].
  cbn [decode_loop flat_map]. rewrite decode_bits_app.
  case_bool_decide as Hc.
  - rewrite (decode_byte_bits _ _ _ 8).
    change ((fun i : nat => _) <$> rev (seq 0 8)) with (bits_of_byte byte).
    destruct (decode_bits _ _ (bits_of_byte byte) st) as [st'|]; simpl;
      [apply IH|done].
  - rewrite decode_bits_done by lia. simpl. by rewrite decode_bits_done by lia.
Qed.

Lemma flat_map_bits_take (bytes : list byte) k :
  flat_map bits_of_byte (take k bytes)
  = take (8 * k) (flat_map bits_of_byte bytes).
Proof.
  revert k. induction bytes as [|b bytes IH]; intros k.
  - cbn [flat_map]. by rewrite !take_nil.
  - destruct k as [|k]; [by rewrite Nat.mul_0_r|].
    cbn [take flat_map]. rewrite IH.
    rewrite take_app_ge by (rewrite length_bits_of_byte; lia).
    rewrite length_bits_of_byte. do 2 f_equal. lia.
Qed.

End DecodeLoops.

Lemma paths_cons_inv n c (b : bool) p :
  (c, b :: p) ∈ paths (ptr n) -> (c, p) ∈ paths (if b then right n else left n).
Proof.
  destruct n as [d f l r]. cbn [paths left right].
  rewrite !elem_of_app, !list_elem_of_fmap.
  intros [Hin|[([c' p'] & E & Hin)|([c' p'] & E & Hin)]];
    [|by simplify_eq/=..].
  destruct (is_leaf _); [|by apply elem_of_nil in Hin].
  by apply list_elem_of_singleton in Hin.
Qed.

Lemma paths_leaf n c p :
  is_leaf n = true -> (c, p) ∈ paths (ptr n) -> p = [] /\ c = data n.
Proof.
  intros Hleaf. pose proof (is_leaf_true n Hleaf) as [Hl Hr].
  destruct n as [d f l r]. simpl in Hl, Hr. subst l r.
  cbn [paths]. rewrite Hleaf. simpl.
  by intros [= -> ->]%list_elem_of_singleton.
Qed.

Lemma paths_null c p : (c, p) ∉ paths null.
Proof. apply not_elem_of_nil. Qed.

(** From an inner node, the bits of the path to a leaf take the decoder
    to that leaf: it emits the symbol and returns to the root. *)
Lemma decode_bits_walk treeRoot totalChars n c p rest cnt out :
  (c, p) ∈ paths (ptr n) -> is_leaf n = false -> cnt < totalChars ->
  decode_bits treeRoot totalChars (p ++ rest)
    {| currentNode := ptr n; decodedCount := cnt; output := out |}
  = decode_bits treeRoot totalChars rest
      {| currentNode := treeRoot; decodedCount := cnt + 1;
         output := out ++ [c] |}.
Proof.
  revert n. induction p as [|b p IH]; intros n Hin Hint Hcnt.
  - by apply paths_nonempty_of_internal in Hin.
  - apply paths_cons_inv in Hin.
    cbn [app decode_bits decodedCount]. rewrite bool_decide_false by lia.
    unfold decode_bit. cbn [currentNode decodedCount output].
    replace (if Z.b2z b =? 0 then left n else right n)
      with (if b then right n else left n) by by destruct b.
    destruct (if b then right n else left n) as [|n'] eqn:Hchild.
    { by apply paths_null in Hin. }
    destruct (is_leaf n') eqn:Hleaf.
    + apply paths_leaf in Hin as [-> ->]; [|done]. done.
    + simpl. by apply IH.
Qed.

(** The bits of a proper beginning of a path take the decoder to an inner
    node and emit nothing. *)
Lemma decode_bits_partial treeRoot totalChars n c p1 b p2 cnt out :
  (c, p1 ++ b :: p2) ∈ paths (ptr n) -> cnt < totalChars ->
  exists n',
    decode_bits treeRoot totalChars p1
      {| currentNode := ptr n; decodedCount := cnt; output := out |}
    = Some {| currentNode := ptr n'; decodedCount := cnt; output := out |} /\
    (c, b :: p2) ∈ paths (ptr n').
Proof.
  revert n. induction p1 as [|b1 p1 IH]; intros n Hin Hcnt.
  - by exists n.
  - apply paths_cons_inv in Hin.
    cbn [app decode_bits decodedCount]. rewrite bool_decide_false by lia.
    unfold decode_bit. cbn [currentNode decodedCount output].
    replace (if Z.b2z b1 =? 0 then left n else right n)
      with (if b1 then right n else left n) by by destruct b1.
    destruct (if b1 then right n else left n) as [|n'] eqn:Hchild.
    { by apply paths_null in Hin. }
    destruct (is_leaf n') eqn:Hleaf.
    + apply paths_leaf in Hin as [Hp _]; [|done]. by destruct p1.
    + simpl. by apply IH.
Qed.

Lemma coded_by_cons treeRoot huffmanCodes s syms :
  coded_by treeRoot huffmanCodes (s :: syms) ->
  (exists p, huffmanCodes !! s = Some (code_string p) /\ (s, p) ∈ paths treeRoot)
  /\ coded_by treeRoot huffmanCodes syms.
Proof.
  intros Hc. split; [apply Hc; left|]. intros s' Hs'. apply Hc. by right.
Qed.

(** The decoder run over the first [k] bits of the codes of [syms]
    (followed by padding, which it reaches only after the last symbol):
    it does not dereference a null pointer, its cursor ends on a node, and
    it has emitted the first [j] symbols, one for at least every bit. *)
Lemma decode_bits_take r totalChars huffmanCodes syms pad k cnt out :
  is_leaf r = false ->
  coded_by (ptr r) huffmanCodes syms ->
  cnt + Z.of_nat (length syms) = totalChars \/
  (cnt + Z.of_nat (length syms) <= totalChars /\ pad = []) ->
  exists j st',
    decode_bits (ptr r) totalChars (take k (encode huffmanCodes syms ++ pad))
      {| currentNode := ptr r; decodedCount := cnt; output := out |}
    = Some st' /\
    output st' = out ++ take j syms /\
    (j <= k)%nat /\
    currentNode st' <> null /\
    ((length (encode huffmanCodes syms) <= k)%nat ->
     j = length syms /\ currentNode st' = ptr r).
Proof.
  intros Hint. revert k cnt out.
  induction syms as [|s syms IH]; intros k cnt out Hcoded Htotal.
  - exists 0%nat, {| currentNode := ptr r; decodedCount := cnt; output := out |}.
    split_and!; [|simpl; by rewrite app_nil_r|lia|done|done].
    cbn [encode flat_map app].
    destruct Htotal as [Ht|[_ ->]].
    + apply decode_bits_done. simpl in *. lia.
    + by rewrite take_nil.
  - apply coded_by_cons in Hcoded as [(p & Hcode & Hpath) Hcoded].
    cbn [encode flat_map]. rewrite Hcode. cbn [default id].
    rewrite bits_of_code_string, <- app_assoc.
    fold (encode huffmanCodes syms).
    rewrite length_cons in Htotal.
    assert (p <> []) as Hp by by eapply paths_nonempty_of_internal.
    destruct (decide (length p <= k)%nat) as [Hk|Hk].
    + rewrite take_app_ge by done.
      rewrite (decode_bits_walk _ _ r s)
        by (done || destruct Htotal as [?|[? ?]]; lia).
      destruct (IH (k - length p)%nat (cnt + 1) (out ++ [s]) Hcoded)
        as (j & st' & Hrun & Hout & Hj & Hcur & Hall).
      { destruct Htotal as [?|[? ?]]; [left; lia|right; split; [lia|done]]. }
      exists (S j), st'. split_and!; [done| | |done|].
      * by rewrite Hout, <- app_assoc.
      * destruct p; [done|]. rewrite length_cons in Hk, Hj. lia.
      * rewrite length_app. intros Hlen.
        destruct Hall as [-> ?]; [lia|]. done.
    + rewrite take_app_le by lia.
      assert (exists b p2, p = take k p ++ b :: p2) as (b & p2 & Hsplit).
      { destruct (drop k p) as [|b p2] eqn:Hd.
        - apply (f_equal length) in Hd. rewrite length_drop in Hd.
          simpl in Hd. lia.
        - exists b, p2. rewrite <- Hd. symmetry. apply take_drop. }
      rewrite Hsplit in Hpath.
      destruct (decode_bits_partial (ptr r) totalChars r s (take k p) b p2
                  cnt out Hpath) as (n' & Hrun & _);
        [destruct Htotal as [?|[? ?]]; lia|].
      exists 0%nat,
        {| currentNode := ptr n'; decodedCount := cnt; output := out |}.
      split_and!; [exact Hrun| |lia|done|].
      * simpl. by rewrite app_nil_r.
      * rewrite length_app. lia.
Qed.

(** ** The whole codec *)

Section RoundTrip.
Context `{!Platform} `{!PriorityQueue}.

(** The tree and the code table for a table that is not empty: every
    symbol of the table is coded by the path to its leaf. *)
Lemma tree_and_codes (frequencyMap : gmap char Z) :
  frequencyMap <> ∅ ->
  exists r,
    buildHuffmanTree frequencyMap = Some (ptr r) /\ is_leaf r = false /\
    forall syms,
      (forall s, s ∈ syms -> is_Some (frequencyMap !! s)) ->
      coded_by (ptr r) (generateCodes (ptr r) "" ∅) syms.
Proof.
  intros Hne.
  destruct (buildHuffmanTree_paths _ Hne) as (r & Hb & Hint & Hnd & Hdom).
  exists r. split_and!; [done..|].
  intros syms Hsyms s Hs. apply Hsyms, Hdom in Hs.
  apply list_elem_of_fmap in Hs as ([s' p] & -> & Hp).
  exists p. split; [|done]. apply generateCodes_lookup; eauto.
Qed.

Lemma compress_nonempty file :
  file <> [] ->
  exists r,
    buildHuffmanTree (buildFrequencyTable file) = Some (ptr r) /\
    is_leaf r = false /\
    coded_by (ptr r) (generateCodes (ptr r) "" ∅) file /\
    compress file
    = Some {| written :=
                writeHeader (buildFrequencyTable file) ++
                writeCompressedData (generateCodes (ptr r) "" ∅) file;
              cout := compress_messages |}.
Proof.
  intros Hne.
  assert (buildFrequencyTable file <> ∅) as Hm
    by by rewrite buildFrequencyTable_empty_iff.
  destruct (tree_and_codes _ Hm) as (r & Hb & Hint & Hcoded).
  exists r. split_and!; [done|done| |].
  - apply Hcoded. intros s Hs. by apply buildFrequencyTable_is_Some.
  - unfold compress. rewrite bool_decide_false by done. by rewrite Hb.
Qed.

(** Decoding a table, the tree built from it, and the first [k] bytes of
    the packed codes of [syms], where the table counts as many symbols as
    [syms] has: the first [j] symbols come out, and success is announced. *)
Lemma decompress_packed ind (frequencyMap : gmap char Z) r syms k :
  unsigned_values frequencyMap ->
  buildHuffmanTree frequencyMap = Some (ptr r) -> is_leaf r = false ->
  coded_by (ptr r) (generateCodes (ptr r) "" ∅) syms ->
  totalChars_of frequencyMap = Z.of_nat (length syms) ->
  exists j,
    succeeds_with (take j syms)
      (decompress ind
         (writeHeader frequencyMap ++
          take k (writeCompressedData (generateCodes (ptr r) "" ∅) syms))) /\
    (j <= 8 * k)%nat /\
    ((length (writeCompressedData (generateCodes (ptr r) "" ∅) syms) <= k)%nat
     -> j = length syms).
Proof.
  intros Hu Hb Hint Hcoded Htotal.
  set (codes := generateCodes (ptr r) "" ∅) in *.
  unfold succeeds_with, decompress.
  rewrite readHeader_writeHeader by done. rewrite Hb. simpl.
  unfold decodeData, remaining. cbn [failbit unread]. rewrite Htotal.
  destruct (Z.of_nat (length syms) =? 0) eqn:E.
  { exists 0%nat. apply Z.eqb_eq in E.
    assert (syms = []) as -> by (destruct syms; [done|simpl in E; lia]).
    simpl. split_and!; [done|lia|done]. }
  rewrite decode_loop_bits, flat_map_bits_take.
  destruct (writeCompressedData_bits codes syms) as [n Hbits].
  { intros c Hc. destruct (Hcoded c Hc) as (p & Hp & _). eauto. }
  rewrite Hbits.
  destruct (decode_bits_take r (Z.of_nat (length syms)) codes syms
              (repeat false n) (8 * k) 0 [] Hint Hcoded)
    as (j & st' & -> & Hout & Hj & _ & Hall); [left; lia|].
  exists j. simpl in *. rewrite Hout. split_and!; [done|done|].
  intros Hlen. apply Hall.
  apply (f_equal length) in Hbits.
  rewrite length_app in Hbits.
  assert (forall bytes : list byte,
            length (flat_map bits_of_byte bytes) = (8 * length bytes)%nat)
    as Hl8.
  { induction bytes as [|b bytes IHb]; [done|].
    cbn [flat_map]. rewrite length_app, IHb, length_bits_of_byte. simpl. lia. }
  rewrite Hl8 in Hbits. lia.
Qed.

(** Compressing a file in which no byte value occurs [2^32] times or more
    and decompressing the result, or a truncation of it after the header,
    yields the file, or a beginning of it. *)
Lemma decompress_compress_take ind file :
  file <> [] -> counters_fit file ->
  exists r,
    compress file
    = Some {| written :=
                writeHeader (buildFrequencyTable file) ++
                writeCompressedData (generateCodes (ptr r) "" ∅) file;
              cout := compress_messages |} /\
    forall k, exists j,
      succeeds_with (take j file)
        (decompress ind
           (writeHeader (buildFrequencyTable file) ++
            take k (writeCompressedData (generateCodes (ptr r) "" ∅) file))) /\
      (j <= 8 * k)%nat /\
      ((length (writeCompressedData (generateCodes (ptr r) "" ∅) file) <= k)%nat
       -> j = length file).
Proof.
  intros Hne Hfit.
  destruct (compress_nonempty file Hne) as (r & Hb & Hint & Hcoded & Hc).
  exists r. split; [done|]. intros k.
  apply decompress_packed;
    auto using buildFrequencyTable_unsigned, totalChars_of_buildFrequencyTable.
Qed.

Lemma decompress_empty ind : succeeds_with [] (decompress ind []).
Proof.
  destruct (readHeader ind (open [])) as [m s] eqn:E.
  eapply decompress_failed_header; [done|].
  pose proof (readHeader_loop_failed ind
                (Z.to_nat (le_value (store sizeof_size_t (ind_mapSize ind) [])))
                0 {| unread := []; failbit := true |} ∅ eq_refl) as Hs.
  unfold readHeader, open, read in E. simpl in E, Hs.
  rewrite E in Hs. simpl in Hs. by rewrite Hs.
Qed.

(** C1, as amended: for every byte sequence that is not empty and in
    which no byte value occurs [2^32] times or more (sequences of identical
    bytes and sequences with all 256 byte values included), [compress]
    runs to its end and [decompress] turns its output back into the
    sequence. *)
Theorem compress_decompress_identity ind (S : list byte) :
  S <> [] -> counters_fit S ->
  exists r, compress S = Some r /\ succeeds_with S (decompress ind (written r)).
Proof.
  intros Hne Hfit.
  destruct (decompress_compress_take ind S Hne Hfit) as (r & Hc & Hk).
  eexists. split; [exact Hc|]. cbn [written].
  destruct (Hk (length (writeCompressedData
                          (generateCodes (ptr r) "" ∅) S)))
    as (j & Hd & _ & Hall).
  specialize (Hall (Nat.le_refl _)). subst j.
  by rewrite !take_ge in Hd by lia.
Qed.

End RoundTrip.

Section Claims.
Context `{!Platform} `{!PriorityQueue}.

(** The codes of a sequence of symbols take the decoder from the root
    back to the root, one symbol put for each. *)
Lemma decode_bits_codes r totalChars huffmanCodes syms : forall rest cnt out,
  is_leaf r = false ->
  coded_by (ptr r) huffmanCodes syms ->
  cnt + Z.of_nat (length syms) <= totalChars ->
  decode_bits (ptr r) totalChars (encode huffmanCodes syms ++ rest)
    {| currentNode := ptr r; decodedCount := cnt; output := out |}
  = decode_bits (ptr r) totalChars rest
      {| currentNode := ptr r;
         decodedCount := cnt + Z.of_nat (length syms);
         output := out ++ syms |}.
Proof.
  induction syms as [|s syms IH]; intros rest cnt out Hint Hcoded Hcnt.
  { cbn [encode flat_map app length]. by rewrite Z.add_0_r, app_nil_r. }
  apply coded_by_cons in Hcoded as [(p & Hcode & Hpath) Hcoded].
  rewrite length_cons in Hcnt.
  cbn [encode flat_map]. rewrite Hcode. cbn [default from_option id].
  rewrite bits_of_code_string, <- app_assoc.
  fold (encode huffmanCodes syms).
  rewrite (decode_bits_walk _ _ r s) by (done || lia).
  rewrite IH by (done || lia). rewrite length_cons, <- app_assoc.
  do 2 f_equal. lia.
Qed.

(** C2, as amended: let the stream hold, after the header of a table,
    the codes of fewer symbols than the table declares, followed by no
    more than the beginning of a code.  [decompress] does not fail: there
    is no result that stands for an error.  It writes exactly the symbols
    whose codes are complete, and announces success. *)
Theorem truncated_stream_is_not_reported ind (frequencyMap : gmap char Z)
    (treeRoot : shared_ptr) (syms : list char) (partial : list bool)
    (bytes : list byte) :
  unsigned_values frequencyMap ->
  buildHuffmanTree frequencyMap = Some treeRoot ->
  (forall s, s ∈ syms -> is_Some (frequencyMap !! s)) ->
  flat_map bits_of_byte bytes
  = encode (generateCodes treeRoot "" ∅) syms ++ partial ->
  (exists s code more,
     generateCodes treeRoot "" ∅ !! s = Some code /\
     bits_of_code code = partial ++ more /\ more <> []) ->
  Z.of_nat (length syms) < totalChars_of frequencyMap ->
  succeeds_with syms (decompress ind (writeHeader frequencyMap ++ bytes)).
Proof.
  intros Hu Hbuild Hsyms Hbits (s & code & more & Hcode & Hmore & Hne) Hless.
  assert (frequencyMap <> ∅) as Hm.
  { intros ->. unfold totalChars_of in Hless.
    assert (map_items (∅ : gmap char Z) = []) as Hnil.
    { apply length_zero_iff_nil. by rewrite length_map_items, map_size_empty. }
    rewrite Hnil in Hless. cbn in Hless. lia. }
  destruct (buildHuffmanTree_paths _ Hm) as (r & Hb & Hint & Hnd & _).
  destruct (tree_and_codes _ Hm) as (r' & Hb' & _ & Hcoded).
  rewrite Hb in Hb'. injection Hb' as <-.
  rewrite Hbuild in Hb. injection Hb as ->.
  specialize (Hcoded syms Hsyms).
  apply (generateCodes_lookup _ _ _ Hnd) in Hcode as (p & Hp & ->).
  rewrite bits_of_code_string in Hmore. subst p.
  destruct more as [|b more]; [done|].
  unfold succeeds_with, decompress.
  rewrite readHeader_writeHeader by done. rewrite Hbuild.
  cbn [mbind option_bind]. unfold decodeData, remaining.
  cbn [failbit unread].
  destruct (totalChars_of frequencyMap =? 0) eqn:E; [lia|].
  rewrite decode_loop_bits, Hbits.
  rewrite decode_bits_codes by (done || lia).
  destruct (decode_bits_partial (ptr r) (totalChars_of frequencyMap) r s
              partial b more (0 + Z.of_nat (length syms)) ([] ++ syms) Hp)
    as (n' & -> & _); [lia|].
  done.
Qed.

(** C9: let the bits of the stream be the codes of a sequence of symbols
    of the table, followed by padding only if the sequence has as many
    symbols as the table declares.  Then [decodeData] never dereferences a
    null pointer, and after every number [k] of bits the cursor points to a
    node: no bit selects an absent child. *)
Theorem cursor_never_null (frequencyMap : gmap char Z) :
  frequencyMap <> ∅ ->
  exists treeRoot,
    buildHuffmanTree frequencyMap = Some treeRoot /\
    forall (syms : list char) (pad : list bool) (bytes : list byte),
      (forall s, s ∈ syms -> is_Some (frequencyMap !! s)) ->
      flat_map bits_of_byte bytes
      = encode (generateCodes treeRoot "" ∅) syms ++ pad ->
      Z.of_nat (length syms) = totalChars_of frequencyMap \/
      (Z.of_nat (length syms) <= totalChars_of frequencyMap /\ pad = []) ->
      (forall k, exists st,
         decode_bits treeRoot (totalChars_of frequencyMap)
           (take k (flat_map bits_of_byte bytes))
           {| currentNode := treeRoot; decodedCount := 0; output := [] |}
         = Some st /\ currentNode st <> null) /\
      (forall k, exists st,
         decode_loop treeRoot (totalChars_of frequencyMap) (take k bytes)
           {| currentNode := treeRoot; decodedCount := 0; output := [] |}
         = Some st /\ currentNode st <> null) /\
      is_Some (decodeData frequencyMap treeRoot (open bytes)).
Proof.
  intros Hne. destruct (tree_and_codes _ Hne) as (r & Hb & Hint & Hcoded).
  exists (ptr r). split; [done|].
  intros syms pad bytes Hsyms Hbits Htotal.
  assert (forall k, exists st,
            decode_bits (ptr r) (totalChars_of frequencyMap)
              (take k (flat_map bits_of_byte bytes))
              {| currentNode := ptr r; decodedCount := 0; output := [] |}
            = Some st /\ currentNode st <> null) as Hsafe.
  { intros k. rewrite Hbits.
    destruct (decode_bits_take r (totalChars_of frequencyMap)
                (generateCodes (ptr r) "" ∅) syms pad k 0 []
                Hint (Hcoded syms Hsyms))
      as (j & st & Hrun & _ & _ & Hcur & _); [|by eauto].
    destruct Htotal as [?|[? ?]]; [left|right]; by rewrite ?Z.add_0_l. }
  split_and!; [done| |].
  - intros k. rewrite decode_loop_bits, flat_map_bits_take. apply Hsafe.
  - unfold decodeData, remaining. cbn [open failbit unread].
    destruct (_ =? 0); [by eauto|].
    destruct (Hsafe (length (flat_map bits_of_byte bytes))) as (st & Hrun & _).
    rewrite take_ge in Hrun by lia.
    rewrite decode_loop_bits, Hrun. simpl. eauto.
Qed.

(** C10: for every input that contains the byte '$', the code table has
    an entry exactly for the bytes of the input; every entry is the path to
    a leaf carrying its symbol, so no entry comes from an inner node; the
    entry of '$' is the path to the leaf that counts the occurrences of '$'
    in the input; and the input is compressed and decompressed like any
    other (exactly, as long as no counter wraps around). *)
Theorem dollar_is_an_ordinary_symbol (S : list byte) :
  "$"%byte ∈ S ->
  exists treeRoot,
    buildHuffmanTree (buildFrequencyTable S) = Some treeRoot /\
    let huffmanCodes := generateCodes treeRoot "" ∅ in
    (forall c, is_Some (huffmanCodes !! c) <-> c ∈ S) /\
    (forall c code,
       huffmanCodes !! c = Some code ->
       exists path n,
         code = code_string path /\ descend treeRoot path = ptr n /\
         is_leaf n = true /\ data n = c /\
         frequency n = wrap32 (Z.of_nat (occurrences c S))) /\
    is_Some (huffmanCodes !! "$"%byte) /\
    (counters_fit S ->
     forall ind, exists r,
       compress S = Some r /\ succeeds_with S (decompress ind (written r))).
Proof.
  intros Hin.
  assert (buildFrequencyTable S <> ∅) as Hne.
  { rewrite buildFrequencyTable_empty_iff. intros ->. by apply elem_of_nil in Hin. }
  destruct (buildHuffmanTree_spec _ Hne) as (r & Hb & Hint & Hleaves).
  destruct (buildHuffmanTree_paths _ Hne) as (r' & Hb' & _ & Hnd & Hdom).
  rewrite Hb in Hb'. injection Hb' as <-.
  exists (ptr r). split; [done|]. cbv zeta.
  assert (forall c, is_Some (generateCodes (ptr r) "" ∅ !! c) <-> c ∈ S) as Hentries.
  { intros c. rewrite <- elem_of_dom, (code_table_dom _ _ Hnd Hdom), elem_of_dom.
    apply buildFrequencyTable_is_Some. }
  split_and!; [done| |by apply Hentries|].
  - intros c code Hc. apply generateCodes_lookup in Hc as (p & Hp & ->); [|done].
    destruct (descend_paths _ _ _ Hp) as (n & Hd & Hleaf & Hdata & Hfreq).
    exists p, n. split_and!; [done..|].
    rewrite Hleaves in Hfreq. apply elem_of_map_items in Hfreq.
    rewrite buildFrequencyTable_lookup in Hfreq.
    destruct (decide _); [done|]. by injection Hfreq.
  - intros Hfit ind.
    destruct (decompress_compress_take ind S) as (r0 & Hc & Hk);
      [by intros ->; apply elem_of_nil in Hin|done|].
    eexists. split; [exact Hc|]. cbn [written].
    destruct (Hk (length (writeCompressedData
                            (generateCodes (ptr r0) "" ∅) S)))
      as (j & Hd & _ & Hall).
    specialize (Hall (Nat.le_refl _)). subst j.
    by rewrite !take_ge in Hd by lia.
Qed.

(** C4: the code at the empty file.  The first half of the claim holds:
    [compress] turns an empty input into an empty output file, with a
    message and no error.  The second half does not: [decompress] has no
    guard for the empty file and calls [readHeader], whose first read
    finds the end of the file and leaves the stream failed.  The count and
    the pairs are then whatever the uninitialised locals held; with the
    stale values 1, 'x' and 7 the table becomes {x: 7}.  The output is
    empty all the same, because a failed stream yields nothing to decode. *)
Theorem empty_file_header_is_read :
  compress []
  = Some {| written := [];
            cout := ["Building frequency table...";
                     "Input file is empty. Creating an empty compressed file."]
                    %string |} /\
  (forall ind,
     ~ untouched [] (readHeader ind (open [])).2 /\
     succeeds_with [] (decompress ind [])) /\
  readHeader stale_x7 (open [])
  = ({["x"%byte := 7]}, {| unread := []; failbit := true |}).
Proof.
  split_and!; [done| |done].
  intros ind. split; [|apply decompress_empty].
  unfold readHeader, open, read. cbn [failbit unread].
  by rewrite readHeader_loop_failed.
Qed.

End Claims.

(** ** Ranges of the integers, and the null pointer *)

Section Bounds.
Context `{!Platform} `{!PriorityQueue}.

Lemma length_store n old got : (length got <= n)%nat -> length (store n old got) = n.
Proof.
  intros Hn. unfold store. rewrite length_app, length_drop, length_le_bytes. lia.
Qed.

Lemma length_read n s : (length (read n s).1 <= n)%nat.
Proof.
  unfold read. destruct (failbit s); simpl; [lia|]. rewrite length_take. lia.
Qed.

Lemma readHeader_loop_unsigned ind n i s acc :
  unsigned_values acc -> unsigned_values (readHeader_loop ind n i s acc).1.
Proof.
  revert i s acc. induction n as [|n IH]; intros i s acc Hacc; [done|].
  cbn [readHeader_loop].
  destruct (read 1 s) as [got1 s1].
  pose proof (length_read sizeof_unsigned s1) as Hlen.
  destruct (read sizeof_unsigned s1) as [got2 s2]. simpl in Hlen.
  apply IH. intros c f. rewrite lookup_insert.
  destruct (decide _); [|by apply Hacc].
  intros [= <-].
  pose proof (le_value_range (store sizeof_unsigned (ind_frequency ind i) got2))
    as Hr.
  by rewrite length_store in Hr.
Qed.

(** Whatever the file holds, the table read from it has frequencies of
    type [unsigned]. *)
Lemma readHeader_unsigned ind s : unsigned_values (readHeader ind s).1.
Proof.
  unfold readHeader. destruct (read sizeof_size_t s) as [got s1].
  by apply readHeader_loop_unsigned.
Qed.

(** The sum of the frequencies fits the [long long] accumulator. *)
Lemma totalChars_of_range (frequencyMap : gmap char Z) :
  unsigned_values frequencyMap -> 0 <= totalChars_of frequencyMap < 2 ^ 63.
Proof.
  intros Hu. rewrite totalChars_of_sum.
  assert (forall l : list char,
    0 <= foldr Z.add 0 ((fun c => default 0 (frequencyMap !! c)) <$> l)
      <= 2 ^ 32 * Z.of_nat (length l)) as Hsum.
  { induction l as [|c l IH]; [simpl; lia|].
    rewrite fmap_cons, length_cons, Nat2Z.inj_succ. cbn [foldr].
    assert (0 <= default 0 (frequencyMap !! c) < 2 ^ 32).
    { destruct (frequencyMap !! c) as [f|] eqn:E; simpl; [by eapply Hu|lia]. }
    lia. }
  specialize (Hsum chars_ascending).
  rewrite length_chars_ascending in Hsum. lia.
Qed.

(** So the total that [decodeData] computes after [readHeader] is the
    sum of the frequencies, without overflow. *)
Lemma totalChars_after_readHeader ind s :
  0 <= totalChars_of (readHeader ind s).1 < 2 ^ 63.
Proof. apply totalChars_of_range, readHeader_unsigned. Qed.

(** Outside the precondition of C9 the null pointer is reached: in the
    tree for a single symbol a 1 bit selects the absent right child, and
    the next bit dereferences it. *)
Lemma stray_bit_dereferences_null (a : char) :
  decodeData {[a := 2]}
    (ptr (Node "$"%byte 2 (ptr (Node a 2 null null)) null)) (open [x40])
  = None.
Proof.
  unfold decodeData, totalChars_of. rewrite map_items_singleton.
  cbn [fold_left snd].
  case_platform; reflexivity.
Qed.

End Bounds.

(** ** Counters that wrap around *)

Section Wrap.
Context `{!Platform} `{!PriorityQueue}.

Lemma counters_fit_short (file : list byte) :
  Z.of_nat (length file) < 2 ^ 32 -> counters_fit file.
Proof.
  intros Hlen c. unfold occurrences.
  pose proof (count_occ_bound byte_eq_dec c file). lia.
Qed.

Lemma buildFrequencyTable_repeat (a : char) (n : nat) :
  n <> 0%nat ->
  buildFrequencyTable (repeat a n) = {[a := wrap32 (Z.of_nat n)]}.
Proof.
  intros Hn. apply map_eq. intros c.
  rewrite buildFrequencyTable_lookup. unfold occurrences.
  destruct (decide (c = a)) as [->|Hne].
  - rewrite count_occ_repeat_eq, lookup_singleton_eq by done.
    by rewrite decide_False by done.
  - rewrite count_occ_repeat_neq, lookup_singleton_ne by done.
    by rewrite decide_True by done.
Qed.

(** A file of [n] equal bytes, [n] a positive multiple of [2^32], is
    compressed, and the result is decompressed to the empty file. *)
Lemma decompress_compress_wrapped ind (a : char) (n : nat) :
  n <> 0%nat -> wrap32 (Z.of_nat n) = 0 ->
  exists r,
    compress (repeat a n) = Some r /\
    succeeds_with [] (decompress ind (written r)).
Proof.
  intros Hn Hwrap.
  assert (repeat a n <> []) as Hne by by destruct n.
  destruct (compress_nonempty _ Hne) as (r & Hb & _ & _ & Hc).
  eexists. split; [exact Hc|]. cbn [written].
  unfold succeeds_with, decompress.
  rewrite readHeader_writeHeader by apply buildFrequencyTable_unsigned.
  rewrite Hb. cbn [mbind option_bind].
  unfold decodeData.
  rewrite buildFrequencyTable_repeat, Hwrap by done.
  unfold totalChars_of. by rewrite map_items_singleton.
Qed.

End Wrap.

(** ** Counterexamples to the claims as they were stated *)

(** C1, as stated, fails for large files: 4 GiB of one byte value make
    its 32-bit counter wrap around to 0, and the compressed file is
    decompressed to the empty file. *)
Lemma round_trip_fails_at_four_gib :
  four_gib_of_a <> [] /\
  exists r,
    @compress signed_char_platform list_queue four_gib_of_a = Some r /\
    succeeds_with []
      (@decompress signed_char_platform list_queue zeroed (written r)).
Proof.
  unfold four_gib_of_a. split.
  - intros E. apply (f_equal length) in E. rewrite repeat_length in E.
    change (length (@nil byte)) with 0%nat in E. lia.
  - apply decompress_compress_wrapped; [lia|].
    unfold wrap32. rewrite Z2Nat.id by lia. reflexivity.
Qed.

(** C2, as stated, fails: the compressed form of nine bytes 'a' is a
    header declaring nine symbols and two bytes of codes.  With the last
    byte cut off, [decompress] writes eight bytes 'a' and announces
    success. *)
Lemma truncated_stream_is_decoded_silently :
  exists r,
    @compress signed_char_platform list_queue (repeat "a"%byte 9) = Some r /\
    length (written r) = 15%nat /\
    @totalChars_of signed_char_platform
      (readHeader zeroed (open (take 14 (written r)))).1
    = 9 /\
    succeeds_with (repeat "a"%byte 8)
      (@decompress signed_char_platform list_queue zeroed
         (take 14 (written r))).
Proof.
  eexists. split; [vm_compute; reflexivity|].
  split_and!; vm_compute; reflexivity.
Qed.


(** C8, as stated, fails where [char] is signed: for the table of the
    bytes 0x41 and 0x80 the header lists 0x80 first. *)
Lemma header_not_in_byte_order :
  @writeHeader signed_char_platform (buildFrequencyTable low_and_high)
  <> header_by_byte_value (buildFrequencyTable low_and_high).
Proof. intros E. vm_compute in E. discriminate E. Qed.

(** Where [char] is unsigned the same table is written in byte order. *)
Lemma header_in_byte_order_when_unsigned :
  @writeHeader unsigned_char_platform (buildFrequencyTable low_and_high)
  = header_by_byte_value (buildFrequencyTable low_and_high).
Proof. vm_compute. reflexivity. Qed.

(** ** The theorems at concrete inputs *)

Lemma aaabbc_fits : counters_fit aaabbc.
Proof. apply counters_fit_short. vm_compute. reflexivity. Qed.

Lemma aaabbc_table_not_empty : buildFrequencyTable aaabbc <> ∅.
Proof. rewrite buildFrequencyTable_empty_iff. discriminate. Qed.

Lemma aaabbc_not_empty : aaabbc <> [].
Proof. discriminate. Qed.

Lemma compress_decompress_identity_witness :
  aaabbc <> [] /\ counters_fit aaabbc /\
  exists r,
    @compress signed_char_platform list_queue aaabbc = Some r /\
    succeeds_with aaabbc
      (@decompress signed_char_platform list_queue zeroed (written r)).
Proof.
  split; [exact aaabbc_not_empty|]. split; [exact aaabbc_fits|].
  exact (@compress_decompress_identity signed_char_platform list_queue zeroed
           aaabbc aaabbc_not_empty aaabbc_fits).
Defined.

Lemma aaabbc_tree_is_built :
  @buildHuffmanTree signed_char_platform list_queue (buildFrequencyTable aaabbc)
  = Some aaabbc_tree.
Proof. vm_compute. reflexivity. Qed.

Lemma aaabb_in_table :
  forall s, s ∈ bytes_of_string "aaabb" ->
            is_Some (buildFrequencyTable aaabbc !! s).
Proof.
  intros s Hs. apply buildFrequencyTable_is_Some.
  change (s ∈ ["a"; "a"; "a"; "b"; "b"]%byte) in Hs.
  change aaabbc with (["a"; "a"; "a"; "b"; "b"] ++ ["c"])%byte.
  apply elem_of_app. by left.
Qed.

Lemma first_byte_of_aaabbc :
  flat_map (@bits_of_byte signed_char_platform) [x1f]
  = encode (generateCodes aaabbc_tree "" ∅) (bytes_of_string "aaabb")
    ++ [true].
Proof. vm_compute. reflexivity. Qed.

Lemma code_of_c_begun :
  exists s code more,
    generateCodes aaabbc_tree "" ∅ !! s = Some code /\
    bits_of_code code = [true] ++ more /\ more <> [].
Proof. exists "c"%byte, "10"%string, [false]. by vm_compute. Qed.

Lemma aaabb_is_less :
  Z.of_nat (length (bytes_of_string "aaabb"))
  < @totalChars_of signed_char_platform (buildFrequencyTable aaabbc).
Proof. vm_compute. reflexivity. Qed.

(** The compressed form of "aaabbc" is its header followed by the bytes
    0x1f and 0x00; here the last byte is missing. *)
Lemma truncated_stream_is_not_reported_witness :
  unsigned_values (buildFrequencyTable aaabbc) /\
  @buildHuffmanTree signed_char_platform list_queue (buildFrequencyTable aaabbc)
  = Some aaabbc_tree /\
  (forall s, s ∈ bytes_of_string "aaabb" ->
             is_Some (buildFrequencyTable aaabbc !! s)) /\
  flat_map (@bits_of_byte signed_char_platform) [x1f]
  = encode (generateCodes aaabbc_tree "" ∅) (bytes_of_string "aaabb")
    ++ [true] /\
  (exists s code more,
     generateCodes aaabbc_tree "" ∅ !! s = Some code /\
     bits_of_code code = [true] ++ more /\ more <> []) /\
  Z.of_nat (length (bytes_of_string "aaabb"))
  < @totalChars_of signed_char_platform (buildFrequencyTable aaabbc) /\
  @compress signed_char_platform list_queue aaabbc
  = Some {| written :=
              @writeHeader signed_char_platform (buildFrequencyTable aaabbc)
              ++ [x1f; x00];
            cout := compress_messages |} /\
  succeeds_with (bytes_of_string "aaabb")
    (@decompress signed_char_platform list_queue zeroed
       (@writeHeader signed_char_platform (buildFrequencyTable aaabbc)
        ++ [x1f])).
Proof.
  split; [exact (buildFrequencyTable_unsigned aaabbc)|].
  split; [exact aaabbc_tree_is_built|]. split; [exact aaabb_in_table|].
  split; [exact first_byte_of_aaabbc|]. split; [exact code_of_c_begun|].
  split; [exact aaabb_is_less|]. split; [vm_compute; reflexivity|].
  exact (@truncated_stream_is_not_reported signed_char_platform list_queue
           zeroed (buildFrequencyTable aaabbc) aaabbc_tree
           (bytes_of_string "aaabb") [true] [x1f]
           (buildFrequencyTable_unsigned aaabbc) aaabbc_tree_is_built
           aaabb_in_table first_byte_of_aaabbc code_of_c_begun aaabb_is_less).
Defined.



Lemma codes_prefix_free_witness :
  buildFrequencyTable aaabbc <> ∅ /\
  exists treeRoot,
    @buildHuffmanTree signed_char_platform list_queue
      (buildFrequencyTable aaabbc) = Some treeRoot /\
    let huffmanCodes := generateCodes treeRoot "" ∅ in
    dom huffmanCodes = dom (buildFrequencyTable aaabbc) /\
    (forall c code,
       huffmanCodes !! c = Some code -> code <> ""%string /\ bit_string code) /\
    (forall c1 c2 code1 code2,
       c1 <> c2 ->
       huffmanCodes !! c1 = Some code1 -> huffmanCodes !! c2 = Some code2 ->
       ~ string_prefix code1 code2).
Proof.
  split; [exact aaabbc_table_not_empty|].
  apply (@codes_prefix_free signed_char_platform list_queue
           (buildFrequencyTable aaabbc) aaabbc_table_not_empty).
Defined.

Lemma header_round_trip_witness :
  buildFrequencyTable aaabbc <> ∅ /\
  unsigned_values (buildFrequencyTable aaabbc) /\
  readHeader zeroed
    (open (@writeHeader signed_char_platform (buildFrequencyTable aaabbc)))
  = (buildFrequencyTable aaabbc, {| unread := []; failbit := false |}).
Proof.
  split; [exact aaabbc_table_not_empty|].
  split; [apply buildFrequencyTable_unsigned|].
  apply (@header_round_trip signed_char_platform zeroed
           (buildFrequencyTable aaabbc) aaabbc_table_not_empty).
  apply buildFrequencyTable_unsigned.
Defined.

Lemma header_in_char_order_witness :
  buildFrequencyTable low_and_high <> ∅ /\
  exists items : list (char * Z),
    @writeHeader signed_char_platform (buildFrequencyTable low_and_high)
    = le_bytes sizeof_size_t (Z.of_nat (length items)) ++
      flat_map (fun pair : char * Z =>
                  pair.1 :: le_bytes sizeof_unsigned pair.2) items /\
    (forall c f,
       (c, f) ∈ items <-> buildFrequencyTable low_and_high !! c = Some f) /\
    StronglySorted (@char_lt signed_char_platform) items.*1 /\
    (@char_signed signed_char_platform = false ->
     @writeHeader signed_char_platform (buildFrequencyTable low_and_high)
     = header_by_byte_value (buildFrequencyTable low_and_high)).
Proof.
  assert (buildFrequencyTable low_and_high <> ∅) as Hne.
  { rewrite buildFrequencyTable_empty_iff. discriminate. }
  split; [exact Hne|].
  apply (@header_in_char_order signed_char_platform
           (buildFrequencyTable low_and_high) Hne).
Defined.

Lemma cursor_never_null_witness :
  buildFrequencyTable aaabbc <> ∅ /\
  exists treeRoot,
    @buildHuffmanTree signed_char_platform list_queue
      (buildFrequencyTable aaabbc) = Some treeRoot /\
    forall (syms : list char) (pad : list bool) (bytes : list byte),
      (forall s, s ∈ syms -> is_Some (buildFrequencyTable aaabbc !! s)) ->
      flat_map (@bits_of_byte signed_char_platform) bytes
      = encode (generateCodes treeRoot "" ∅) syms ++ pad ->
      Z.of_nat (length syms)
      = @totalChars_of signed_char_platform (buildFrequencyTable aaabbc) \/
      (Z.of_nat (length syms)
       <= @totalChars_of signed_char_platform (buildFrequencyTable aaabbc) /\
       pad = []) ->
      (forall k, exists st,
         decode_bits treeRoot
           (@totalChars_of signed_char_platform (buildFrequencyTable aaabbc))
           (take k (flat_map (@bits_of_byte signed_char_platform) bytes))
           {| currentNode := treeRoot; decodedCount := 0; output := [] |}
         = Some st /\ currentNode st <> null) /\
      (forall k, exists st,
         @decode_loop signed_char_platform treeRoot
           (@totalChars_of signed_char_platform (buildFrequencyTable aaabbc))
           (take k bytes)
           {| currentNode := treeRoot; decodedCount := 0; output := [] |}
         = Some st /\ currentNode st <> null) /\
      is_Some (@decodeData signed_char_platform (buildFrequencyTable aaabbc)
                 treeRoot (open bytes)).
Proof.
  split; [exact aaabbc_table_not_empty|].
  apply (@cursor_never_null signed_char_platform list_queue
           (buildFrequencyTable aaabbc) aaabbc_table_not_empty).
Defined.

Lemma dollar_is_an_ordinary_symbol_witness :
  "$"%byte ∈ bytes_of_string "a$b$" /\
  exists treeRoot,
    @buildHuffmanTree signed_char_platform list_queue
      (buildFrequencyTable (bytes_of_string "a$b$")) = Some treeRoot /\
    let huffmanCodes := generateCodes treeRoot "" ∅ in
    (forall c, is_Some (huffmanCodes !! c) <-> c ∈ bytes_of_string "a$b$") /\
    (forall c code,
       huffmanCodes !! c = Some code ->
       exists path n,
         code = code_string path /\ descend treeRoot path = ptr n /\
         is_leaf n = true /\ data n = c /\
         frequency n
         = wrap32 (Z.of_nat (occurrences c (bytes_of_string "a$b$")))) /\
    is_Some (huffmanCodes !! "$"%byte) /\
    (counters_fit (bytes_of_string "a$b$") ->
     forall ind, exists r,
       @compress signed_char_platform list_queue (bytes_of_string "a$b$")
       = Some r /\
       succeeds_with (bytes_of_string "a$b$")
         (@decompress signed_char_platform list_queue ind (written r))).
Proof.
  assert ("$"%byte ∈ bytes_of_string "a$b$") as Hin.
  { apply (bool_decide_unpack _). vm_compute. exact I. }
  split; [exact Hin|].
  apply (@dollar_is_an_ordinary_symbol signed_char_platform list_queue
           (bytes_of_string "a$b$") Hin).
Defined.

(** * Further properties of the code *)

(** ** Invariants of the tree builder *)

Section BuildInvariant.
Context `{!Platform} `{!PriorityQueue}.
Variable P : HuffmanNode -> Prop.
Hypothesis P_merged : forall l r, P l -> P r -> P (merged l r).

Lemma pq_top_elem q x : pq_top q = Some x -> x ∈ pq_elements q.
Proof. intros Hx. rewrite (pq_elements_pop q x Hx). left. Qed.

Lemma pq_pop_Forall q x :
  pq_top q = Some x -> Forall P (pq_elements q) ->
  P x /\ Forall P (pq_elements (pq_pop q)).
Proof.
  intros Hx Hall. rewrite (pq_elements_pop q x Hx) in Hall.
  by apply Forall_cons in Hall.
Qed.

Lemma merge_loop_preserves fuel q q' :
  merge_loop fuel q = Some q' ->
  Forall P (pq_elements q) -> Forall P (pq_elements q').
Proof.
  revert q. induction fuel as [|fuel IH]; intros q; cbn [merge_loop];
    case_bool_decide; try done; try by intros [= <-].
  destruct (pq_top q) as [l|] eqn:Hl; [|done]. cbn [mbind option_bind].
  destruct (pq_top (pq_pop q)) as [r|] eqn:Hr; [|done]. cbn [mbind option_bind].
  intros Hrun Hall. apply (IH _ Hrun).
  apply (pq_pop_Forall _ _ Hl) in Hall as [Pl Hall].
  apply (pq_pop_Forall _ _ Hr) in Hall as [Pr Hall].
  rewrite pq_elements_push. constructor; [by apply P_merged|done].
Qed.

Lemma push_leaves_Forall (m : gmap char Z) :
  (forall c f, m !! c = Some f -> P (make_shared c f)) ->
  Forall P (pq_elements (push_leaves m)).
Proof.
  intros Hleaf. rewrite push_leaves_elements, Forall_fmap.
  apply Forall_forall. intros [c f] Hin%elem_of_map_items. by apply Hleaf.
Qed.

(** A property of nodes that holds for the leaves and is kept by merging
    (and by the dummy parent, when there is one symbol) holds for the root. *)
Lemma buildHuffmanTree_preserves (m : gmap char Z) root :
  (size m = 1%nat ->
   forall x, P x -> P (Node "$"%byte (frequency x) (ptr x) null)) ->
  (forall c f, m !! c = Some f -> P (make_shared c f)) ->
  buildHuffmanTree m = Some (ptr root) -> P root.
Proof.
  intros Hdummy Hleaf. unfold buildHuffmanTree.
  destruct (pq_empty _); [done|].
  pose proof (push_leaves_Forall m Hleaf) as Hall.
  pose proof (pq_size_push_leaves m) as Hsize.
  destruct (add_dummy_parent (push_leaves m)) as [q1|] eqn:H1; [|done].
  cbn [mbind option_bind].
  assert (Forall P (pq_elements q1)) as Hall1.
  { unfold add_dummy_parent in H1. case_bool_decide as Hone.
    - destruct (pq_top (push_leaves m)) as [x|] eqn:Hx; [|done].
      cbn [mbind option_bind] in H1. injection H1 as <-.
      apply (pq_pop_Forall _ _ Hx) in Hall as [Px Hall].
      rewrite pq_elements_push. constructor; [|done].
      apply Hdummy; [congruence|done].
    - by injection H1 as <-. }
  destruct (merge_loop (pq_size q1) q1) as [q2|] eqn:H2; [|done].
  cbn [mbind option_bind].
  destruct (pq_top q2) as [x|] eqn:Hx; [|done].
  cbn [mbind option_bind]. intros [= <-].
  pose proof (merge_loop_preserves _ _ _ H2 Hall1) as Hall2.
  by apply (pq_pop_Forall _ _ Hx) in Hall2 as [Px _].
Qed.

End BuildInvariant.

Lemma weight_app_sum (l1 l2 : list (char * Z)) :
  foldr Z.add 0 (l1 ++ l2).*2 = foldr Z.add 0 l1.*2 + foldr Z.add 0 l2.*2.
Proof.
  induction l1 as [|[c f] l1 IH]; [done|].
  rewrite <- app_comm_cons, !fmap_cons. cbn [foldr snd]. rewrite IH. lia.
Qed.

Lemma weight_merged l r :
  weight (ptr (merged l r)) = weight (ptr l) + weight (ptr r).
Proof. unfold weight, merged. cbn [leaves is_leaf left right is_null andb].
  by rewrite app_nil_l, weight_app_sum. Qed.

Lemma wrap32_add z1 z2 : wrap32 (wrap32 z1 + wrap32 z2) = wrap32 (z1 + z2).
Proof. unfold wrap32. by rewrite <- Zplus_mod. Qed.

Lemma wrap32_small z : 0 <= z < 2 ^ 32 -> wrap32 z = z.
Proof. intros. by apply Z.mod_small. Qed.

Lemma weight_perm_sum (l1 l2 : list (char * Z)) :
  l1 ≡ₚ l2 -> foldr Z.add 0 l1.*2 = foldr Z.add 0 l2.*2.
Proof.
  induction 1 as [|[] ?? _ IH|[] [] ?|???? IH1 ? IH2];
    rewrite ?fmap_cons; cbn [foldr snd]; lia.
Qed.

Section TreeFacts.
Context `{!Platform} `{!PriorityQueue}.

Lemma totalChars_of_weight (m : gmap char Z) :
  totalChars_of m = foldr Z.add 0 (map_items m).*2.
Proof.
  unfold totalChars_of. generalize (map_items m). intros items.
  assert (forall a, fold_left (fun t (pair : char * Z) => t + pair.2) items a
                    = a + foldr Z.add 0 items.*2) as ->; [|lia].
  induction items as [|[c f] items IH]; intros a; [simpl; lia|].
  rewrite fmap_cons. cbn [fold_left foldr snd]. rewrite IH. lia.
Qed.

(** X1: [buildHuffmanTree] returns the null pointer for the empty table.
    For any other table it returns an inner node, and the leaves below it
    are exactly the entries of the table, each symbol once with its
    frequency. *)
Theorem tree_leaves_are_the_table (frequencyMap : gmap char Z) :
  if decide (frequencyMap = ∅) then buildHuffmanTree frequencyMap = Some null
  else exists root,
      buildHuffmanTree frequencyMap = Some (ptr root) /\
      is_leaf root = false /\
      leaves (ptr root) ≡ₚ map_items frequencyMap /\
      NoDup (leaves (ptr root)).*1.
Proof.
  destruct (decide _) as [->|Hne]; [apply buildHuffmanTree_empty|].
  destruct (buildHuffmanTree_spec _ Hne) as (root & Hb & Hint & Hl).
  exists root. split_and!; [done..|].
  rewrite Hl. apply NoDup_map_items_fst.
Qed.

(** X2: the frequency stored in the root is the sum of the frequencies
    of the table, modulo [2^32]: the number of symbols of the file, as
    long as that is below [2^32]. *)
Theorem root_frequency_is_the_total (frequencyMap : gmap char Z) :
  frequencyMap <> ∅ -> unsigned_values frequencyMap ->
  exists root,
    buildHuffmanTree frequencyMap = Some (ptr root) /\
    frequency root = wrap32 (totalChars_of frequencyMap).
Proof.
  intros Hne Hu.
  destruct (buildHuffmanTree_spec _ Hne) as (root & Hb & _ & Hl).
  exists root. split; [done|].
  rewrite totalChars_of_weight, <- (weight_perm_sum _ _ Hl).
  apply (buildHuffmanTree_preserves
           (fun n => frequency n = wrap32 (weight (ptr n))) ) with frequencyMap.
  - intros l r Hl' Hr'. rewrite weight_merged. cbn [merged frequency].
    by rewrite Hl', Hr', wrap32_add.
  - intros _ x Hx. cbn [frequency]. rewrite Hx. f_equal.
    unfold weight. cbn [leaves is_leaf left right is_null andb].
    destruct x as [d f [] []]; cbn [leaves is_leaf left right is_null andb];
      by rewrite ?app_nil_r.
  - intros c f Hf. unfold weight. cbn.
    rewrite Z.add_0_r. symmetry. apply wrap32_small. by eapply Hu.
  - done.
Qed.

Lemma buildHuffmanTree_strict (frequencyMap : gmap char Z) :
  (2 <= size frequencyMap)%nat ->
  exists root,
    buildHuffmanTree frequencyMap = Some (ptr root) /\
    is_leaf root = false /\ strict (ptr root) = true.
Proof.
  intros Hsize.
  assert (frequencyMap <> ∅) as Hne.
  { intros ->. rewrite map_size_empty in Hsize. lia. }
  destruct (buildHuffmanTree_spec _ Hne) as (root & Hb & Hint & _).
  exists root. split_and!; [done..|].
  apply (buildHuffmanTree_preserves (fun n => strict (ptr n) = true))
    with frequencyMap; [|lia|done|done].
  intros l r Hl Hr.
  change (strict (ptr (merged l r))) with (strict (ptr l) && strict (ptr r)).
  by rewrite Hl, Hr.
Qed.

(** X3: for a table with two symbols or more the tree is a strict binary
    tree: every node is a leaf or has both children. *)
Theorem tree_is_strict (frequencyMap : gmap char Z) :
  (2 <= size frequencyMap)%nat ->
  exists root,
    buildHuffmanTree frequencyMap = Some (ptr root) /\
    is_leaf root = false /\ strict (ptr root) = true.
Proof. apply buildHuffmanTree_strict. Qed.

End TreeFacts.

(** ** Counting, comparing, generating codes *)

(** X4: after [buildFrequencyTable] a byte that does not occur in the
    file has no entry, and a byte that occurs has the number of its
    occurrences modulo [2^32]. *)
Theorem frequency_table_counts (file : list byte) (c : char) :
  buildFrequencyTable file !! c
  = if decide (occurrences c file = 0%nat) then None
    else Some (Z.of_nat (occurrences c file) mod 2 ^ 32).
Proof. apply buildFrequencyTable_lookup. Qed.

(** X5: when no byte value occurs [2^32] times or more, the frequencies
    of the table add up to the length of the file; this sum is the number
    of symbols that [decodeData] decodes. *)
Theorem frequency_table_total `{!Platform} (file : list byte) :
  counters_fit file ->
  totalChars_of (buildFrequencyTable file) = Z.of_nat (length file).
Proof. apply totalChars_of_buildFrequencyTable. Qed.

(** X6: [CompareNodes] is a strict weak ordering, as [std::priority_queue]
    requires of its comparison: it is irreflexive and transitive, and so is
    the relation of two nodes that it orders neither way. *)
Theorem CompareNodes_strict_weak_order :
  (forall x, CompareNodes x x = false) /\
  (forall x y z,
     CompareNodes x y = true -> CompareNodes y z = true ->
     CompareNodes x z = true) /\
  (forall x y z,
     CompareNodes x y = false -> CompareNodes y x = false ->
     CompareNodes y z = false -> CompareNodes z y = false ->
     CompareNodes x z = false /\ CompareNodes z x = false).
Proof.
  unfold CompareNodes. split_and!.
  - intros x. apply Z.ltb_irrefl.
  - intros x y z. rewrite !Z.ltb_lt. lia.
  - intros x y z. rewrite !Z.ltb_ge. lia.
Qed.

(** X7: [generateCodes] run on a table that already has entries, with
    any code for the root: a symbol at a leaf gets the root's code followed
    by the decisions that lead to the leaf, and the entry of every other
    symbol is left as it was. *)
Theorem generateCodes_changes_only_leaves (node : shared_ptr) (code : string)
    (huffmanCodes : gmap char string) (c : char) :
  NoDup (paths node).*1 ->
  (forall p, (c, p) ∈ paths node ->
     generateCodes node code huffmanCodes !! c = Some (code +:+ code_string p)) /\
  (c ∉ (paths node).*1 ->
     generateCodes node code huffmanCodes !! c = huffmanCodes !! c).
Proof.
  intros Hnd. rewrite generateCodes_paths. split.
  - intros p Hp.
    by apply (fold_insert_lookup_in (fun p => code +:+ code_string p)).
  - intros Hc.
    by apply (fold_insert_lookup_notin (fun p => code +:+ code_string p)).
Qed.

(** ** Sizes of what is written *)

Section Sizes.
Context `{!Platform} `{!PriorityQueue}.

Lemma length_writeHeader (frequencyMap : gmap char Z) :
  length (writeHeader frequencyMap) = (8 + 5 * size frequencyMap)%nat.
Proof.
  unfold writeHeader. rewrite length_app, length_le_bytes, <- length_map_items.
  unfold sizeof_size_t. f_equal.
  induction (map_items frequencyMap) as [|[c f] items IH]; [done|].
  cbn [flat_map]. rewrite length_app, IH. cbn [length fst snd].
  rewrite length_le_bytes. unfold sizeof_unsigned. lia.
Qed.

(** X8: the header takes 8 bytes for the count and 5 bytes for every
    entry of the table. *)
Theorem header_length (frequencyMap : gmap char Z) :
  length (writeHeader frequencyMap) = (8 + 5 * size frequencyMap)%nat.
Proof. apply length_writeHeader. Qed.

Lemma length_flat_map_bits (bytes : list byte) :
  length (flat_map bits_of_byte bytes) = (8 * length bytes)%nat.
Proof.
  induction bytes as [|b bytes IH]; [done|].
  cbn [flat_map]. rewrite length_app, IH, length_bits_of_byte. simpl. lia.
Qed.

(** The padding is shorter than a byte. *)
Lemma writeCompressedData_padding huffmanCodes file :
  (forall c, c ∈ file -> exists p, huffmanCodes !! c = Some (code_string p)) ->
  exists n,
    (n < 8)%nat /\
    flat_map bits_of_byte (writeCompressedData huffmanCodes file)
    = encode huffmanCodes file ++ repeat false n.
Proof.
  intros Hc. destruct (writeCompressedData_bits _ _ Hc) as [n Hn].
  pose proof (f_equal length Hn) as Hlen.
  rewrite length_flat_map_bits, length_app, repeat_length in Hlen.
  destruct (decide (n < 8)%nat) as [?|Hge]; [by eauto|].
  (* the padding is what the last byte holds beyond the codes *)
  exfalso. revert Hn Hlen. unfold writeCompressedData.
  destruct (fold_put_code_holds huffmanCodes file
              {| buffer := 0; bitCount := 0; packed := [] |} [] Hc)
    as (pending & Hp & Hbuf & Hcnt & Hbits).
  { exists []. simpl. split_and!; [lia|done..]. }
  cbn [app] in Hbits. rewrite Hcnt.
  pose proof (f_equal length Hbits) as Hl.
  rewrite length_app, length_flat_map_bits in Hl.
  destruct (0 <? Z.of_nat (length pending)) eqn:E; intros _;
    rewrite ?length_app; simpl length.
  - apply Z.ltb_lt in E. lia.
  - lia.
Qed.

Lemma length_writeCompressedData huffmanCodes file :
  (forall c, c ∈ file -> exists p, huffmanCodes !! c = Some (code_string p)) ->
  length (writeCompressedData huffmanCodes file)
  = ((length (encode huffmanCodes file) + 7) / 8)%nat.
Proof.
  intros Hc. destruct (writeCompressedData_padding _ _ Hc) as (n & Hn & Hbits).
  pose proof (f_equal length Hbits) as Hlen.
  rewrite length_flat_map_bits, length_app, repeat_length in Hlen.
  apply Nat.div_unique with (7 - n)%nat; lia.
Qed.

(** X9: when every byte of the file has a code of '0's and '1's, the
    bytes that [writeCompressedData] writes spell, most significant bit
    first, the codes of the bytes in order followed by fewer than eight
    zero bits; their number is the number of code bits divided by 8,
    rounded up. *)
Theorem packed_codes (huffmanCodes : gmap char string) (file : list byte) :
  (forall c, c ∈ file -> exists p, huffmanCodes !! c = Some (code_string p)) ->
  exists n,
    (n < 8)%nat /\
    flat_map bits_of_byte (writeCompressedData huffmanCodes file)
    = encode huffmanCodes file ++ repeat false n /\
    length (writeCompressedData huffmanCodes file)
    = ((length (encode huffmanCodes file) + 7) / 8)%nat.
Proof.
  intros Hc. destruct (writeCompressedData_padding _ _ Hc) as (n & Hn & Hbits).
  exists n. split_and!; [done..|]. by apply length_writeCompressedData.
Qed.

Lemma put_code_missing huffmanCodes st c :
  default ""%string (huffmanCodes !! c) = ""%string ->
  put_code huffmanCodes st c = st.
Proof. unfold put_code. by intros ->. Qed.

(** X10: a byte that has no entry in the code table (or the empty code)
    is passed over without a word: [writeCompressedData] writes what it
    would write for the file without such bytes. *)
Theorem bytes_without_code_are_dropped (huffmanCodes : gmap char string)
    (file : list byte) :
  writeCompressedData huffmanCodes file
  = writeCompressedData huffmanCodes
      (filter (fun c => default ""%string (huffmanCodes !! c) <> ""%string)
              file).
Proof.
  unfold writeCompressedData.
  assert (forall st,
    fold_left (put_code huffmanCodes) file st
    = fold_left (put_code huffmanCodes)
        (filter (fun c => default ""%string (huffmanCodes !! c) <> ""%string)
                file) st) as ->; [|done].
  induction file as [|c file IH]; intros st; [done|].
  rewrite filter_cons. destruct (decide _) as [Hc|Hc]; cbn [fold_left].
  - apply IH.
  - rewrite put_code_missing; [apply IH|].
    by destruct (decide (default ""%string (huffmanCodes !! c) = ""%string)).
Qed.

End Sizes.

(** ** What [compress] writes *)

Section CompressOutput.
Context `{!Platform} `{!PriorityQueue}.

(** The tree for a single symbol. *)
Lemma buildHuffmanTree_singleton (c : char) (f : Z) :
  buildHuffmanTree {[c := f]}
  = Some (ptr (Node "$"%byte f (ptr (Node c f null null)) null)).
Proof.
  unfold buildHuffmanTree, pq_empty.
  pose proof (pq_size_push_leaves {[c := f]}) as Hsize.
  rewrite map_size_singleton in Hsize.
  rewrite bool_decide_false by lia.
  unfold add_dummy_parent. rewrite bool_decide_true by done.
  destruct (pq_elements_singleton _ Hsize) as (x & Hx & -> & Hpop).
  cbn [mbind option_bind].
  pose proof (push_leaves_elements {[c := f]}) as Hp.
  rewrite map_items_singleton, Hx in Hp. apply Permutation_singleton_l in Hp.
  injection Hp as ->. cbn [frequency make_shared fst snd].
  set (dummy := Node _ _ _ null).
  pose proof (pq_elements_push dummy (pq_pop (push_leaves {[c := f]}))) as Hd.
  rewrite Hpop in Hd. apply Permutation_singleton_r in Hd.
  assert (pq_size (pq_push dummy (pq_pop (push_leaves {[c := f]}))) = 1%nat)
    as Hone by (unfold pq_size; by rewrite Hd).
  rewrite Hone. cbn [merge_loop]. rewrite bool_decide_false by lia.
  cbn [mbind option_bind].
  destruct (pq_elements_singleton _ Hone) as (y & Hy & -> & _).
  cbn [mbind option_bind]. congruence.
Qed.

Lemma zero_bits_zero_bytes (bytes : list byte) :
  flat_map bits_of_byte bytes = repeat false (8 * length bytes) ->
  bytes = repeat x00 (length bytes).
Proof.
  induction bytes as [|b bytes IH]; [done|].
  cbn [flat_map length repeat].
  replace (8 * S (length bytes))%nat with (8 + 8 * length bytes)%nat by lia.
  rewrite repeat_app. intros [Hb Hrest]%app_inj_1; [|done].
  f_equal; [|by apply IH].
  clear -Hb. case_platform; destruct b; vm_compute in Hb; congruence.
Qed.

(** X11: a file of [n] equal bytes, [0 < n < 2^32], is compressed to
    the count 1, the byte, the number [n] and [n / 8] (rounded up) zero
    bytes: one bit, 0, for every byte of the file. *)
Theorem compress_run_of_one_byte (a : char) (n : nat) :
  n <> 0%nat -> Z.of_nat n < 2 ^ 32 ->
  compress (repeat a n)
  = Some {| written :=
              le_bytes sizeof_size_t 1 ++
              a :: le_bytes sizeof_unsigned (Z.of_nat n) ++
              repeat x00 ((n + 7) / 8);
            cout := compress_messages |}.
Proof.
  intros Hn Hlt. unfold compress.
  rewrite buildFrequencyTable_repeat by done.
  rewrite wrap32_small by lia.
  rewrite bool_decide_false by apply insert_non_empty.
  rewrite buildHuffmanTree_singleton. cbn [mbind option_bind].
  do 2 f_equal. unfold writeHeader.
  rewrite map_size_singleton, map_items_singleton.
  cbn [flat_map fst snd]. rewrite app_nil_r, <- app_assoc. f_equal.
  cbn [app]. do 2 f_equal.
  set (codes := generateCodes _ _ _).
  assert (codes = {[a := "0"%string]}) as -> by done.
  assert (forall c, c ∈ repeat a n ->
            exists p, ({[a := "0"%string]} : gmap char string) !! c
                      = Some (code_string p)) as Hc.
  { intros c ->%list_elem_of_In%repeat_spec.
    exists [false]. by rewrite lookup_singleton_eq. }
  assert (encode {[a := "0"%string]} (repeat a n) = repeat false n) as Henc.
  { clear. induction n as [|n IH]; [done|].
    cbn [repeat encode flat_map]. rewrite lookup_singleton_eq.
    cbn [default id]. fold (encode {[a := "0"%string]} (repeat a n)).
    by rewrite IH. }
  pose proof (length_writeCompressedData _ _ Hc) as Hlen.
  destruct (writeCompressedData_padding _ _ Hc) as (k & Hk & Hbits).
  rewrite Henc, repeat_length in Hlen. rewrite Henc, <- repeat_app in Hbits.
  rewrite <- Hlen. apply zero_bits_zero_bytes. rewrite Hbits. f_equal.
  pose proof (f_equal length Hbits) as Hl.
  rewrite length_flat_map_bits, repeat_length in Hl. lia.
Qed.

(** X12: [compress] has no undefined behaviour.  What it writes is
    empty exactly when the input is empty; otherwise it is the header
    followed by at least one byte of codes, 14 bytes or more. *)
Theorem compress_output_size (file : list byte) :
  exists r,
    compress file = Some r /\
    (written r = [] <-> file = []) /\
    (file <> [] ->
     (14 <= length (written r))%nat /\
     take (8 + 5 * size (buildFrequencyTable file)) (written r)
     = writeHeader (buildFrequencyTable file)).
Proof.
  destruct (decide (file = [])) as [->|Hne].
  { eexists. split; [done|]. by split. }
  destruct (compress_nonempty file Hne) as (r & Hb & Hint & Hcoded & ->).
  eexists. split; [done|]. cbn [written].
  assert (buildFrequencyTable file <> ∅) as Hm
    by by rewrite buildFrequencyTable_empty_iff.
  apply map_size_non_empty_iff in Hm.
  set (codes := generateCodes (ptr r) "" ∅) in *.
  assert (forall c, c ∈ file ->
            exists p, codes !! c = Some (code_string p)) as Hc.
  { intros c Hin. destruct (Hcoded c Hin) as (p & Hp & _). eauto. }
  pose proof (length_writeCompressedData codes file Hc) as Hlen.
  assert (1 <= length (encode codes file))%nat as Hbits.
  { destruct file as [|s file]; [done|].
    destruct (Hcoded s) as (p & Hp & Hpath); [left|].
    apply paths_nonempty_of_internal in Hpath; [|done].
    cbn [encode flat_map]. rewrite Hp. cbn [default id].
    rewrite bits_of_code_string, length_app.
    destruct p; [done|]. simpl. lia. }
  assert (1 <= length (writeCompressedData codes file))%nat as Hdata.
  { rewrite Hlen. apply Nat.div_le_lower_bound; lia. }
  pose proof (length_writeHeader (buildFrequencyTable file)) as Hh.
  split.
  - split; [|done]. intros E%(f_equal length).
    rewrite length_app in E. simpl in E. lia.
  - intros _. split; [rewrite length_app; lia|].
    rewrite <- Hh. by rewrite take_app_length.
Qed.

End CompressOutput.

(** ** Reading headers *)

Section ReadingHeaders.
Context `{!Platform} `{!PriorityQueue}.

(** X13: a header that is complete - a count followed by as many pairs -
    is read to its end and no further, and the table gives every symbol the
    frequency of the last pair that names it. *)
Theorem readHeader_complete ind (items : list (char * Z)) (rest : list byte) :
  Forall (fun kv : char * Z => 0 <= kv.2 < 2 ^ 32) items ->
  Z.of_nat (length items) < 2 ^ 64 ->
  readHeader ind
    (open (le_bytes sizeof_size_t (Z.of_nat (length items)) ++
           flat_map (fun pair : char * Z =>
                       pair.1 :: le_bytes sizeof_unsigned pair.2) items ++
           rest))
  = ((list_to_map (reverse items) : gmap char Z),
     {| unread := rest; failbit := false |}).
Proof.
  intros Hu Hlen. unfold readHeader, open.
  pose proof (read_exact (le_bytes sizeof_size_t (Z.of_nat (length items))))
    as Hread.
  rewrite length_le_bytes in Hread. rewrite Hread.
  rewrite store_full by apply length_le_bytes.
  rewrite le_value_le_bytes_small
    by (change (256 ^ Z.of_nat sizeof_size_t) with (2 ^ 64); lia).
  rewrite Nat2Z.id, readHeader_loop_pairs by done.
  by rewrite fold_insert_list_to_map.
Qed.

(** X14: whatever the file holds, every frequency that [readHeader]
    stores is below [2^32] and the table has at most 256 entries, so the
    sum that [decodeData] accumulates in a [long long] does not overflow. *)
Theorem decoder_total_fits ind (s : ifstream) :
  unsigned_values (readHeader ind s).1 /\
  (size (readHeader ind s).1 <= 256)%nat /\
  0 <= totalChars_of (readHeader ind s).1 < 2 ^ 63.
Proof.
  split; [apply readHeader_unsigned|].
  split; [apply size_le_256|apply totalChars_after_readHeader].
Qed.

(** X15: [readHeader] reads none but assigned locals exactly when the
    file holds the 8 bytes of the pair count and 5 bytes for every pair
    that the count declares.  On any other file - one shorter than 8
    bytes, such as the empty file, or one with fewer pairs than declared -
    it reads a local that no [read] has assigned.  Where all locals are
    assigned, the table and the stream that [readHeader] leaves do not
    depend on what the locals held before. *)
Theorem header_is_read_from_assigned_locals (file : list byte) :
  (is_Some (readHeader_defined (open file)) <->
   (sizeof_size_t <= length file)%nat /\
   Z.of_nat (1 + sizeof_unsigned) * le_value (take sizeof_size_t file)
   <= Z.of_nat (length (drop sizeof_size_t file))) /\
  (forall r,
     readHeader_defined (open file) = Some r ->
     forall ind, readHeader ind (open file) = r).
Proof.
  split; [|intros r Hr ind; by apply readHeader_defined_agrees].
  pose proof (le_value_range (take sizeof_size_t file)) as [Hcount _].
  unfold readHeader_defined, open.
  destruct (decide (sizeof_size_t <= length file)%nat) as [Hlen|Hlen].
  - rewrite read_into_local_exact by done.
    set (n := Z.to_nat (le_value (take sizeof_size_t file))).
    set (body := drop sizeof_size_t file).
    assert (le_value (take sizeof_size_t file) = Z.of_nat n) as ->
        by (unfold n; lia).
    destruct (decide ((1 + sizeof_unsigned) * n <= length body)%nat)
      as [Hn|Hn].
    + rewrite readHeader_loop_defined_pairs by done.
      split; [intros _; split; [done|lia]|by eauto].
    + rewrite readHeader_loop_defined_short
        by (try right; cbn [unread]; lia).
      split; [by intros [? [=]]|lia].
  - rewrite read_into_local_short by (done || right; cbn [unread]; lia).
    split; [by intros [? [=]]|lia].
Qed.

End ReadingHeaders.

(** ** What the decoder can and cannot do *)

Lemma nodes_self n : n ∈ nodes (ptr n).
Proof. destruct n. left. Qed.

Lemma nodes_child root n (b : bool) c :
  n ∈ nodes root -> (if b then right n else left n) = ptr c -> c ∈ nodes root.
Proof.
  induction root as [|d f l r IHl IHr] using shared_ptr_induction;
    cbn [nodes]; [by intros ?%elem_of_nil|].
  rewrite elem_of_cons, elem_of_app. intros [->|[Hn|Hn]] Hc.
  - cbn [left right] in Hc. right. rewrite elem_of_app.
    destruct b; [right|left]; rewrite Hc; apply nodes_self.
  - right. rewrite elem_of_app. left. by apply IHl.
  - right. rewrite elem_of_app. right. by apply IHr.
Qed.

Lemma nodes_leaf root n :
  n ∈ nodes root -> is_leaf n = true -> (data n, frequency n) ∈ leaves root.
Proof.
  induction root as [|d f l r IHl IHr] using shared_ptr_induction;
    cbn [nodes leaves]; [by intros ?%elem_of_nil|].
  rewrite elem_of_cons, !elem_of_app. intros [->|[Hn|Hn]] Hleaf.
  - left. rewrite Hleaf. left.
  - right. left. by apply IHl.
  - right. right. by apply IHr.
Qed.

Lemma nodes_strict root n :
  strict root = true -> n ∈ nodes root ->
  is_leaf n = true \/ (exists l r, left n = ptr l /\ right n = ptr r).
Proof.
  induction root as [|d f l r IHl IHr] using shared_ptr_induction;
    cbn [nodes strict]; [by intros _ ?%elem_of_nil|].
  rewrite elem_of_cons, elem_of_app. intros Hs [->|[Hn|Hn]].
  - destruct l as [|l], r as [|r]; cbn in Hs |- *; try done; eauto.
  - apply IHl; [|done]. destruct l, r; cbn in Hs |- *; try done.
    by apply andb_prop in Hs as [? ?].
  - apply IHr; [|done]. destruct l, r; cbn in Hs |- *; try done.
    by apply andb_prop in Hs as [? ?].
Qed.

Lemma decode_bit_ok treeRoot totalChars z st st' :
  decoder_ok treeRoot totalChars st -> decodedCount st < totalChars ->
  decode_bit treeRoot z st = Some st' -> decoder_ok treeRoot totalChars st'.
Proof.
  intros (Hcur & Hcnt & Hle & Hout) Hlt. unfold decode_bit.
  destruct (currentNode st) as [|cur] eqn:Ecur; [done|].
  destruct Hcur as [?|(n & [= <-] & Hn)]; [done|].
  destruct (if z =? 0 then left cur else right cur) as [|c] eqn:Hc.
  - intros [= <-]. split_and!; cbn; auto.
  - assert (c ∈ nodes treeRoot) as Hcn.
    { apply (nodes_child treeRoot cur (negb (z =? 0)) c Hn).
      by destruct (z =? 0). }
    destruct (is_leaf c) eqn:Hleaf; intros [= <-]; split_and!; cbn; eauto.
    + destruct treeRoot as [|r]; [by left|]. right. exists r.
      split; [done|apply nodes_self].
    + rewrite length_app. simpl. lia.
    + lia.
    + apply Forall_app. split; [done|]. constructor; [|done].
      apply list_elem_of_fmap. exists (data c, frequency c).
      split; [done|]. by apply nodes_leaf.
Qed.

Lemma decode_bits_ok treeRoot totalChars bits st st' :
  decoder_ok treeRoot totalChars st ->
  decode_bits treeRoot totalChars bits st = Some st' ->
  decoder_ok treeRoot totalChars st'.
Proof.
  revert st. induction bits as [|b bits IH]; intros st Hok; cbn [decode_bits].
  - by intros [= <-].
  - case_bool_decide; [by intros [= <-]|].
    destruct (decode_bit _ _ _) as [st1|] eqn:E; [|done].
    cbn [mbind option_bind]. apply IH.
    eapply decode_bit_ok; [done|lia|done].
Qed.

Lemma decode_bit_safe treeRoot r z st :
  treeRoot = ptr r -> is_leaf r = false -> strict treeRoot = true ->
  at_inner_node treeRoot st ->
  exists st', decode_bit treeRoot z st = Some st' /\ at_inner_node treeRoot st'.
Proof.
  intros Hroot Hint Hstrict (n & Hcur & Hn & Hinner). unfold decode_bit.
  rewrite Hcur.
  destruct (nodes_strict _ _ Hstrict Hn) as [?|(l' & r' & Hl & Hr)];
    [congruence|].
  assert (exists c, (if z =? 0 then left n else right n) = ptr c)
    as [c Hc] by (destruct (z =? 0); eauto).
  rewrite Hc.
  assert (c ∈ nodes treeRoot) as Hcn.
  { apply (nodes_child treeRoot n (negb (z =? 0)) c Hn). by destruct (z =? 0). }
  destruct (is_leaf c) eqn:Hleaf; eexists; (split; [done|]).
  - exists r. cbn. rewrite Hroot. split_and!; [done|apply nodes_self|done].
  - exists c. by cbn.
Qed.

Lemma decode_bits_safe treeRoot r totalChars bits st :
  treeRoot = ptr r -> is_leaf r = false -> strict treeRoot = true ->
  at_inner_node treeRoot st ->
  exists st', decode_bits treeRoot totalChars bits st = Some st' /\
              at_inner_node treeRoot st'.
Proof.
  intros Hroot Hint Hstrict. revert st.
  induction bits as [|b bits IH]; intros st Hst; cbn [decode_bits]; [by eauto|].
  case_bool_decide; [by eauto|].
  destruct (decode_bit_safe treeRoot r (Z.b2z b) st Hroot Hint Hstrict Hst)
    as (st1 & -> & Hst1).
  cbn [mbind option_bind]. by apply IH.
Qed.

Section DecoderFacts.
Context `{!Platform} `{!PriorityQueue}.

Lemma map_items_of_empty {V} : map_items (∅ : gmap char V) = [].
Proof.
  apply length_zero_iff_nil. by rewrite length_map_items, map_size_empty.
Qed.

(** X16: whatever the tree, the table and the stream: when [decodeData]
    returns it has written no more bytes than the frequencies of the table
    add up to, and every byte it has written is the symbol of a leaf of the
    tree. *)
Theorem decoded_output_is_bounded (frequencyMap : gmap char Z)
    (treeRoot : shared_ptr) (inputFile : ifstream) (out : list byte) :
  decodeData frequencyMap treeRoot inputFile = Some out ->
  Z.of_nat (length out) <= Z.max 0 (totalChars_of frequencyMap) /\
  Forall (fun b => b ∈ (leaves treeRoot).*1) out.
Proof.
  unfold decodeData. destruct (_ =? 0); [intros [= <-]; simpl; split; [lia|done]|].
  rewrite decode_loop_bits.
  destruct (decode_bits _ _ _ _) as [st|] eqn:E; [|done].
  cbn [mbind option_bind]. intros [= <-].
  apply decode_bits_ok in E as (_ & Hcnt & Hle & Hout).
  - split; [lia|done].
  - split_and!; cbn; [|done|lia|done].
    destruct treeRoot as [|r]; [by left|]. right. exists r.
    split; [done|apply nodes_self].
Qed.

Lemma decodeData_safe (frequencyMap : gmap char Z) r inputFile :
  is_leaf r = false -> strict (ptr r) = true ->
  is_Some (decodeData frequencyMap (ptr r) inputFile).
Proof.
  intros Hint Hstrict. unfold decodeData. destruct (_ =? 0); [by eauto|].
  rewrite decode_loop_bits.
  destruct (decode_bits_safe (ptr r) r (totalChars_of frequencyMap)
              (flat_map bits_of_byte (remaining inputFile))
              {| currentNode := ptr r; decodedCount := 0; output := [] |}
              eq_refl Hint Hstrict) as (st & -> & _).
  - exists r. split_and!; [done|apply nodes_self|done].
  - cbn. eauto.
Qed.

(** X17: [decompress] dereferences no null pointer, whatever the file
    holds, unless the table read from the header has exactly one symbol. *)
Theorem decompress_is_safe ind (file : list byte) :
  size (readHeader ind (open file)).1 <> 1%nat ->
  is_Some (decompress ind file).
Proof.
  unfold decompress. destruct (readHeader ind (open file)) as [m s].
  cbn [fst]. intros Hsize.
  destruct (decide (size m = 0%nat)) as [Hz|Hz].
  - apply map_size_empty_iff in Hz as ->.
    rewrite buildHuffmanTree_empty. cbn [mbind option_bind].
    unfold decodeData, totalChars_of. rewrite map_items_of_empty. cbn. eauto.
  - destruct (buildHuffmanTree_strict m) as (r & -> & Hint & Hstrict); [lia|].
    cbn [mbind option_bind].
    destruct (decodeData_safe m r s Hint Hstrict) as [out ->]. cbn. eauto.
Qed.

End DecoderFacts.

Section BeyondTheCodes.
Context `{!Platform} `{!PriorityQueue}.

Lemma flat_map_bits_app (l1 l2 : list byte) :
  flat_map bits_of_byte (l1 ++ l2)
  = flat_map bits_of_byte l1 ++ flat_map bits_of_byte l2.
Proof. apply flat_map_app. Qed.

(** A header, the packed codes of [syms] under the tree of the header's
    table, and any bytes after them. *)
Lemma decompress_packed_then_more ind (frequencyMap : gmap char Z) r syms more :
  unsigned_values frequencyMap ->
  buildHuffmanTree frequencyMap = Some (ptr r) -> is_leaf r = false ->
  coded_by (ptr r) (generateCodes (ptr r) "" ∅) syms ->
  totalChars_of frequencyMap = Z.of_nat (length syms) ->
  succeeds_with syms
    (decompress ind
       (writeHeader frequencyMap ++
        writeCompressedData (generateCodes (ptr r) "" ∅) syms ++ more)).
Proof.
  intros Hu Hb Hint Hcoded Htotal.
  set (codes := generateCodes (ptr r) "" ∅) in *.
  unfold succeeds_with, decompress.
  rewrite readHeader_writeHeader by done. rewrite Hb. cbn [mbind option_bind].
  unfold decodeData, remaining. cbn [failbit unread]. rewrite Htotal.
  destruct (Z.of_nat (length syms) =? 0) eqn:E.
  { apply Z.eqb_eq in E.
    assert (syms = []) as -> by (destruct syms; [done|simpl in E; lia]).
    done. }
  rewrite decode_loop_bits, flat_map_bits_app.
  destruct (writeCompressedData_bits codes syms) as [n Hbits].
  { intros c Hc. destruct (Hcoded c Hc) as (p & Hp & _). eauto. }
  rewrite Hbits, <- app_assoc.
  set (pad := repeat false n ++ flat_map bits_of_byte more).
  destruct (decode_bits_take r (Z.of_nat (length syms)) codes syms pad
              (length (encode codes syms ++ pad)) 0 [] Hint Hcoded)
    as (j & st' & Hrun & Hout & _ & _ & Hall); [left; lia|].
  rewrite take_ge in Hrun by lia. rewrite Hrun. cbn [mbind option_bind].
  destruct Hall as [-> _]; [rewrite length_app; lia|].
  rewrite Hout, take_ge by lia. done.
Qed.

(** X18: decoding stops by count.  Whatever bytes follow the compressed
    form of a file (not empty, no byte value [2^32] times or more),
    [decompress] yields the file. *)
Theorem trailing_bytes_are_ignored ind (file more : list byte) :
  file <> [] -> counters_fit file ->
  exists r,
    compress file = Some r /\
    succeeds_with file (decompress ind (written r ++ more)).
Proof.
  intros Hne Hfit.
  destruct (compress_nonempty file Hne) as (r & Hb & Hint & Hcoded & Hc).
  eexists. split; [exact Hc|]. cbn [written]. rewrite <- app_assoc.
  apply decompress_packed_then_more;
    auto using buildFrequencyTable_unsigned, totalChars_of_buildFrequencyTable.
Qed.

(** X19: the decoder uses the table for the tree and for the total only.
    Under any table, a sequence of symbols of the table that has as many
    symbols as the frequencies add up to is recovered from its packed
    codes, whether or not each symbol occurs as often as the table says. *)
Theorem decoder_checks_only_the_total ind (frequencyMap : gmap char Z)
    (syms : list char) :
  unsigned_values frequencyMap ->
  (forall s, s ∈ syms -> is_Some (frequencyMap !! s)) ->
  totalChars_of frequencyMap = Z.of_nat (length syms) ->
  syms <> [] ->
  exists treeRoot,
    buildHuffmanTree frequencyMap = Some treeRoot /\
    succeeds_with syms
      (decompress ind
         (writeHeader frequencyMap ++
          writeCompressedData (generateCodes treeRoot "" ∅) syms)).
Proof.
  intros Hu Hsyms Htotal Hne.
  assert (frequencyMap <> ∅) as Hm.
  { intros ->. destruct syms as [|s syms]; [done|].
    destruct (Hsyms s) as [f Hf]; [left|]. by rewrite lookup_empty in Hf. }
  destruct (tree_and_codes _ Hm) as (r & Hb & Hint & Hcoded).
  exists (ptr r). split; [done|].
  rewrite <- (app_nil_r (writeCompressedData _ _)).
  apply decompress_packed_then_more; auto.
Qed.

Lemma decode_bits_zeros (a : char) (f : Z) (i : nat) bits cnt out :
  cnt + Z.of_nat i <= f ->
  decode_bits (single_symbol_root a f) f (repeat false i ++ bits)
    {| currentNode := single_symbol_root a f; decodedCount := cnt;
       output := out |}
  = decode_bits (single_symbol_root a f) f bits
      {| currentNode := single_symbol_root a f;
         decodedCount := cnt + Z.of_nat i; output := out ++ repeat a i |}.
Proof.
  revert cnt out. induction i as [|i IH]; intros cnt out Hle.
  - cbn [repeat app]. by rewrite Z.add_0_r, app_nil_r.
  - cbn [repeat app decode_bits decodedCount].
    rewrite bool_decide_false by lia.
    cbn [decode_bit single_symbol_root currentNode Z.b2z Z.eqb left right
         is_leaf is_null andb data decodedCount output mbind option_bind].
    rewrite IH by lia. do 2 f_equal; try lia.
    by rewrite <- app_assoc.
Qed.

(** X20: a null pointer is dereferenced when the table has one symbol
    and the packed bits hold a 1 before as many 0s as the table declares
    symbols, followed by one more bit: the 1 selects the right child of the
    dummy parent, which is absent, and the next bit follows it. *)
Theorem stray_one_bit_crashes_decoder ind (a : char) (f : Z) (i : nat)
    (b : bool) (bits : list bool) (bytes : list byte) :
  0 <= f < 2 ^ 32 -> Z.of_nat i < f ->
  flat_map bits_of_byte bytes = repeat false i ++ true :: b :: bits ->
  decompress ind (writeHeader {[a := f]} ++ bytes) = None.
Proof.
  intros Hf Hi Hbits. unfold decompress.
  rewrite readHeader_writeHeader.
  2: { intros c g [<- <-]%lookup_singleton_Some. done. }
  rewrite buildHuffmanTree_singleton. cbn [mbind option_bind].
  unfold decodeData, totalChars_of. rewrite map_items_singleton.
  cbn [fold_left snd]. rewrite Z.add_0_l.
  destruct (f =? 0) eqn:E; [apply Z.eqb_eq in E; lia|].
  unfold remaining. cbn [failbit unread].
  rewrite decode_loop_bits, Hbits.
  fold (single_symbol_root a f). rewrite decode_bits_zeros by lia.
  cbn [decode_bits decodedCount]. rewrite bool_decide_false by lia.
  cbn [decode_bit single_symbol_root currentNode Z.b2z Z.eqb left right
       decodedCount output mbind option_bind decode_bits].
  by rewrite bool_decide_false by lia.
Qed.

End BeyondTheCodes.

(** ** The command line *)

Section CommandLine.
Context `{!Platform} `{!PriorityQueue}.

(** Compressing and decompressing, as in the theorem for C1. *)
Lemma decompress_compress ind (file : list byte) :
  file <> [] -> counters_fit file ->
  exists r, compress file = Some r /\
            succeeds_with file (decompress ind (written r)).
Proof.
  intros Hne Hfit.
  destruct (decompress_compress_take ind file Hne Hfit) as (r & Hc & Hk).
  eexists. split; [exact Hc|]. cbn [written].
  destruct (Hk (length (writeCompressedData
                          (generateCodes (ptr r) "" ∅) file)))
    as (j & Hd & _ & Hall).
  specialize (Hall (Nat.le_refl _)). subst j.
  by rewrite !take_ge in Hd by lia.
Qed.

Lemma elem_of_pair (x a b : string) : x ∈ [a; b] <-> x = a \/ x = b.
Proof. rewrite !elem_of_cons, elem_of_nil. tauto. Qed.

Lemma elem_of_commands (x : string) :
  x ∈ ["c"; "compress"; "d"; "decompress"]%string <->
  (x = "c" \/ x = "compress")%string \/ (x = "d" \/ x = "decompress")%string.
Proof. rewrite !elem_of_cons, elem_of_nil. tauto. Qed.

Lemma main_four ind (program command inputFile outputFile : string) fs :
  main ind [program; command; inputFile; outputFile] fs
  = if bool_decide (command = "c"%string \/ command = "compress"%string) then
      '(con, fs) ← HuffmanCoding.compress inputFile outputFile fs;
      Some (0, con, fs)
    else if bool_decide (command = "d"%string \/ command = "decompress"%string)
    then
      '(con, fs) ← HuffmanCoding.decompress ind inputFile outputFile fs;
      Some (0, con, fs)
    else
      Some (1, {| cout_lines := showUsage;
                  cerr_lines := ["Error: Invalid command '" +:+ command
                                 +:+ "'"] |}, fs).
Proof. done. Qed.

(** X21: the exit status of [main] is 1 when it is not given exactly
    three arguments or the command is none of c, compress, d, decompress;
    it then prints the usage and touches no file.  In every other case
    the exit status is 0. *)
Theorem main_exit_status ind (argv : list string) (fs fs' : filesystem)
    (status : Z) (con : console) :
  main ind argv fs = Some (status, con, fs') ->
  (status = 1 <->
   length argv <> 4%nat \/
   nth 1 argv ""%string ∉ ["c"; "compress"; "d"; "decompress"]%string) /\
  (status <> 1 -> status = 0) /\
  (status = 1 -> fs' = fs /\ cout_lines con = showUsage).
Proof.
  unfold main. case_bool_decide as Hargc.
  { intros [= <- <- <-]. split_and!; [|done|done]. split; auto. }
  set (command := nth 1 argv ""%string).
  case_bool_decide as Hc.
  { destruct (HuffmanCoding.compress _ _ _) as [[con1 fs1]|]; [|done].
    cbn [mbind option_bind]. intros [= <- <- <-].
    split_and!; [|done|done]. split; [done|].
    intros [?|Hnot]; [done|]. exfalso. apply Hnot, elem_of_commands. by left. }
  case_bool_decide as Hd.
  { destruct (HuffmanCoding.decompress _ _ _ _) as [[con1 fs1]|]; [|done].
    cbn [mbind option_bind]. intros [= <- <- <-].
    split_and!; [|done|done]. split; [done|].
    intros [?|Hnot]; [done|]. exfalso. apply Hnot, elem_of_commands. by right. }
  intros [= <- <- <-]. split_and!; [|done|done]. split; [|done].
  intros _. right. rewrite elem_of_commands. tauto.
Qed.

(** X22: when the input file does not exist, or the output file cannot
    be opened, [main] prints one line on [std::cerr], creates and changes
    no file, and exits with status 0 all the same. *)
Theorem main_file_errors_exit_0 ind
    (program command inputFile outputFile : string) (fs : filesystem) :
  command ∈ ["c"; "compress"; "d"; "decompress"]%string ->
  files fs !! inputFile = None \/ writable fs outputFile = false ->
  main ind [program; command; inputFile; outputFile] fs
  = Some (0,
          {| cout_lines := [];
             cerr_lines :=
               [match files fs !! inputFile with
                | None => "Error: Could not open input file: " +:+ inputFile
                | Some _ => "Error: Could not open output file: "
                            +:+ outputFile
                end] |},
          fs).
Proof.
  intros Hcmd Hfail. rewrite main_four.
  unfold HuffmanCoding.compress, HuffmanCoding.decompress.
  assert (match files fs !! inputFile with
          | None => True
          | Some _ => writable fs outputFile = false
          end) as Hcase.
  { destruct (files fs !! inputFile); [by destruct Hfail|done]. }
  apply elem_of_commands in Hcmd as [Hc|Hd].
  - rewrite bool_decide_eq_true_2 by done.
    destruct (files fs !! inputFile); rewrite ?Hcase; done.
  - rewrite bool_decide_eq_false_2
      by (destruct Hd as [-> | ->]; by intros [?|?]).
    rewrite bool_decide_eq_true_2 by done.
    destruct (files fs !! inputFile); rewrite ?Hcase; done.
Qed.

(** X23: compressing the file [a] to [b] and decompressing [b] to [c]
    through the command line leaves in [c] the contents of [a], with both
    runs exiting with status 0 and nothing on [std::cerr], and changes no
    file other than [b] and [c].  The file [a] must not be empty, and no
    byte value may occur [2^32] times or more in it; the paths [b] and [c]
    must be writable and [b] other than [a] and [c]. *)
Theorem command_line_round_trip ind (program1 program2 : string)
    (compress_command decompress_command a b c : string)
    (content : list byte) (fs : filesystem) :
  compress_command ∈ ["c"; "compress"]%string ->
  decompress_command ∈ ["d"; "decompress"]%string ->
  files fs !! a = Some content -> content <> [] -> counters_fit content ->
  writable fs b = true -> writable fs c = true -> a <> b -> b <> c ->
  exists con1 fs1 con2 fs2,
    main ind [program1; compress_command; a; b] fs = Some (0, con1, fs1) /\
    main ind [program2; decompress_command; b; c] fs1 = Some (0, con2, fs2) /\
    cerr_lines con1 = [] /\ cerr_lines con2 = [] /\
    files fs2 !! c = Some content /\
    (forall p, p <> b -> p <> c -> files fs2 !! p = files fs !! p).
Proof.
  intros Hc Hd Ha Hne Hfit Hwb Hwc Hab Hbc.
  destruct (decompress_compress ind content Hne Hfit) as (r & Hr & Hback).
  assert (bool_decide (compress_command = "c"%string
                       \/ compress_command = "compress"%string) = true)
    as Hc1.
  { by apply bool_decide_eq_true, elem_of_pair. }
  assert (bool_decide (decompress_command = "c"%string
                       \/ decompress_command = "compress"%string) = false)
    as Hd1.
  { apply bool_decide_eq_false.
    apply elem_of_pair in Hd as [-> | ->]; by intros [?|?]. }
  assert (bool_decide (decompress_command = "d"%string
                       \/ decompress_command = "decompress"%string) = true)
    as Hd2.
  { by apply bool_decide_eq_true, elem_of_pair. }
  set (fs1 := close b (written r) (create b fs)).
  assert (main ind [program1; compress_command; a; b] fs
          = Some (0, {| cout_lines := cout r; cerr_lines := [] |}, fs1))
    as Hrun1.
  { rewrite main_four, Hc1. unfold HuffmanCoding.compress.
    rewrite Ha, Hwb. cbn [create files].
    rewrite lookup_insert_ne by done. rewrite Ha.
    cbn [default id]. by rewrite Hr. }
  set (fs2 := close c content (create c fs1)).
  assert (main ind [program2; decompress_command; b; c] fs1
          = Some (0, {| cout_lines := decompress_messages;
                        cerr_lines := [] |}, fs2))
    as Hrun2.
  { rewrite main_four, Hd1, Hd2. unfold HuffmanCoding.decompress.
    assert (files fs1 !! b = Some (written r)) as Hb
        by (cbn; by rewrite lookup_insert_eq).
    rewrite Hb. change (writable fs1 c) with (writable fs c). rewrite Hwc.
    cbn [create files]. rewrite lookup_insert_ne by done. rewrite Hb.
    cbn [default id]. by rewrite Hback. }
  exists {| cout_lines := cout r; cerr_lines := [] |}, fs1,
         {| cout_lines := decompress_messages; cerr_lines := [] |}, fs2.
  split_and!; [done..| |].
  - cbn. by rewrite lookup_insert_eq.
  - intros p Hpb Hpc. cbn. by rewrite !lookup_insert_ne by done.
Qed.

(** X24: in a file system where opening a file for writing empties it
    at once, compressing a file onto itself loses it: the input is read
    after the output has been opened, so [compress] finds an empty input,
    says so, and leaves the file empty, with exit status 0. *)
Theorem compress_onto_itself_empties_the_file ind (program command a : string)
    (content : list byte) (fs : filesystem) :
  command ∈ ["c"; "compress"]%string ->
  files fs !! a = Some content -> writable fs a = true ->
  exists fs',
    main ind [program; command; a; a] fs
    = Some (0,
            {| cout_lines :=
                 ["Building frequency table...";
                  "Input file is empty. Creating an empty compressed file."]
                 %string;
               cerr_lines := [] |},
            fs') /\
    files fs' = <[a := []]> (files fs).
Proof.
  intros Hc Ha Hw. rewrite main_four.
  assert (bool_decide (command = "c"%string \/ command = "compress"%string)
          = true) as ->.
  { by apply bool_decide_eq_true, elem_of_pair. }
  unfold HuffmanCoding.compress. rewrite Ha, Hw.
  cbn [create files]. rewrite lookup_insert_eq. cbn [default id].
  eexists. split; [done|]. cbn. by rewrite insert_insert_eq.
Qed.

End CommandLine.

(** * The tree of least length *)

(** ** Trees of codes and the exchange of leaves *)

Lemma sum_of_cons x l : sum_of (x :: l) = x + sum_of l.
Proof. done. Qed.

Lemma sum_of_app l1 l2 : sum_of (l1 ++ l2) = sum_of l1 + sum_of l2.
Proof. induction l1 as [|x l1 IH]; cbn [app]; rewrite ?sum_of_cons; [done|lia]. Qed.

#[global] Instance sum_of_perm : Proper ((≡ₚ) ==> (=)) sum_of.
Proof. induction 1; rewrite ?sum_of_cons; lia. Qed.

Lemma sum_of_nonneg l : Forall (fun w => 0 <= w) l -> 0 <= sum_of l.
Proof. induction 1; rewrite ?sum_of_cons; [done|lia]. Qed.

Lemma total_weight_Fork l r : total_weight (Fork l r) = total_weight l + total_weight r.
Proof. apply sum_of_app. Qed.

Lemma leaf_weights_nonempty t : leaf_weights t <> [].
Proof.
  induction t as [w|l IHl r IHr]; [done|]. cbn [leaf_weights].
  intros [? _]%app_eq_nil. done.
Qed.

Lemma leaf_weights_singleton t w : leaf_weights t ≡ₚ [w] -> t = Leaf w.
Proof.
  intros Hp%Permutation_singleton_r. destruct t as [w'|l r]; cbn in Hp.
  - congruence.
  - pose proof (leaf_weights_nonempty l). pose proof (leaf_weights_nonempty r).
    apply (f_equal length) in Hp. rewrite length_app in Hp. cbn in Hp.
    destruct (leaf_weights l), (leaf_weights r); cbn in *; done || lia.
Qed.

Lemma leaf_at_elem t w : w ∈ leaf_weights t -> exists d, leaf_at t w d.
Proof.
  induction t as [w'|l IHl r IHr]; cbn [leaf_weights].
  - intros ->%list_elem_of_singleton. eexists. constructor.
  - intros [Hl|Hr]%elem_of_app.
    + destruct (IHl Hl) as [d Hd]. eexists. by apply leaf_at_left.
    + destruct (IHr Hr) as [d Hd]. eexists. by apply leaf_at_right.
Qed.

Lemma some_leaf t : exists w d, leaf_at t w d.
Proof.
  induction t as [w|l (w & d & Hl) r _].
  - exists w, 0%nat. constructor.
  - exists w, (S d). by apply leaf_at_left.
Qed.

(** Another weight in the place of a leaf. *)
Lemma replace_leaf t w d w' :
  leaf_at t w d ->
  exists t' rest,
    leaf_weights t ≡ₚ w :: rest /\ leaf_weights t' ≡ₚ w' :: rest /\
    cost t' = cost t + (w' - w) * Z.of_nat d.
Proof.
  induction 1 as [w|l r w d _ (l' & rest & Hl & Hl' & Hc)
                   |l r w d _ (r' & rest & Hr & Hr' & Hc)].
  - exists (Leaf w'), []. cbn. split_and!; [done..|lia].
  - exists (Fork l' r), (rest ++ leaf_weights r). cbn [leaf_weights cost].
    rewrite Hl, Hl'. split_and!; [done..|].
    unfold total_weight. rewrite Hl, Hl', !sum_of_cons. lia.
  - exists (Fork l r'), (leaf_weights l ++ rest). cbn [leaf_weights cost].
    rewrite Hr, Hr'. split_and!; [by rewrite Permutation_middle..|].
    unfold total_weight. rewrite Hr, Hr', !sum_of_cons. lia.
Qed.

(** Beside a leaf of a tree that has more leaves than this one there is
    another leaf that lies as deep or deeper; [b] is put in its place. *)
Lemma other_leaf t w d b :
  leaf_at t w d -> (exists l r, t = Fork l r) ->
  exists z dz t' rest,
    (d <= dz)%nat /\
    leaf_weights t ≡ₚ w :: z :: rest /\ leaf_weights t' ≡ₚ w :: b :: rest /\
    cost t' = cost t + (b - z) * Z.of_nat dz.
Proof.
  induction 1 as [w|l r w d Hat IH|l r w d Hat IH]; intros Hfork.
  - by destruct Hfork as (? & ? & ?).
  - assert ((exists wl, l = Leaf wl) \/ exists l1 l2, l = Fork l1 l2)
      as [[wl ->]|Hl12] by (destruct l; eauto).
    + inversion Hat; subst.
      destruct (some_leaf r) as (z & dz & Hz).
      destruct (replace_leaf _ _ _ b Hz) as (r' & rest & Hr & Hr' & Hc).
      exists z, (S dz), (Fork (Leaf w) r'), rest.
      cbn [leaf_weights cost app]. rewrite Hr, Hr'.
      split_and!; [lia|done..|].
      unfold total_weight. rewrite Hr, Hr', !sum_of_cons. lia.
    + destruct (IH Hl12) as (z & dz & l' & rest & Hd & Hl & Hl' & Hc).
      exists z, (S dz), (Fork l' r), (rest ++ leaf_weights r).
      cbn [leaf_weights cost]. rewrite Hl, Hl'.
      split_and!; [lia|done..|].
      unfold total_weight. rewrite Hl, Hl', !sum_of_cons. lia.
  - assert ((exists wr, r = Leaf wr) \/ exists r1 r2, r = Fork r1 r2)
      as [[wr ->]|Hr12] by (destruct r; eauto).
    + inversion Hat; subst.
      destruct (some_leaf l) as (z & dz & Hz).
      destruct (replace_leaf _ _ _ b Hz) as (l' & rest & Hl & Hl' & Hc).
      exists z, (S dz), (Fork l' (Leaf w)), rest.
      cbn [leaf_weights cost app]. rewrite Hl, Hl'.
      split_and!; [lia|by rewrite Permutation_app_comm..|].
      unfold total_weight. rewrite Hl, Hl', !sum_of_cons. lia.
    + destruct (IH Hr12) as (z & dz & r' & rest & Hd & Hr & Hr' & Hc).
      exists z, (S dz), (Fork l r'), (leaf_weights l ++ rest).
      cbn [leaf_weights cost]. rewrite Hr, Hr'.
      split_and!; [lia| | |].
      * by rewrite <- !Permutation_middle.
      * by rewrite <- !Permutation_middle.
      * unfold total_weight. rewrite Hr, Hr', !sum_of_cons. lia.
Qed.

Lemma leaf_at_single t w w' d : leaf_weights t ≡ₚ [w'] -> leaf_at t w d -> d = 0%nat.
Proof. intros ->%leaf_weights_singleton. by inversion 1. Qed.

Lemma total_weight_Leaf w : total_weight (Leaf w) = w.
Proof. unfold total_weight. cbn. lia. Qed.

(** The step of the exchange argument: two least weights that lie in
    different subtrees are brought together in the subtree where the one
    lies deeper. *)
Lemma bring_together n
    (IH : forall t a b W,
        (length (leaf_weights t) <= n)%nat ->
        leaf_weights t ≡ₚ a :: b :: W ->
        (forall w, w ∈ W -> a <= w /\ b <= w) ->
        exists t1, leaf_weights t1 ≡ₚ (a + b) :: W /\ cost t1 + a + b <= cost t)
    l r a b A B da db :
  (length (leaf_weights l) + length (leaf_weights r) <= S n)%nat ->
  leaf_weights l ≡ₚ a :: A -> leaf_weights r ≡ₚ b :: B -> B <> [] ->
  leaf_at l a da -> leaf_at r b db -> (da <= db)%nat ->
  (forall w, w ∈ A ++ B -> a <= w /\ b <= w) ->
  exists t1, leaf_weights t1 ≡ₚ (a + b) :: A ++ B /\
             cost t1 + a + b <= cost (Fork l r).
Proof.
  intros Hn Hl Hr HB Ha Hb Hd Hleast.
  destruct (other_leaf r b db a Hb)
    as (z & dz & r' & rest & Hdz & Hrz & Hr' & Hcr).
  { destruct r as [w|r1 r2]; [|by eauto].
    apply Permutation_length in Hr. by destruct B. }
  destruct (replace_leaf l a da z Ha) as (l' & restl & Hla & Hl' & Hcl).
  assert (restl ≡ₚ A) as HA.
  { apply (Permutation_cons_inv (a:=a)). by rewrite <- Hla, <- Hl. }
  assert (B ≡ₚ z :: rest) as HBz.
  { apply (Permutation_cons_inv (a:=b)). by rewrite <- Hr, <- Hrz. }
  assert (a <= z) as Haz.
  { apply Hleast. rewrite HBz. apply elem_of_app. right. left. }
  destruct (IH r' a b rest) as (r1 & Hr1 & Hc1).
  - apply Permutation_length in Hl, Hr', Hrz. cbn in *. lia.
  - rewrite Hr'. apply perm_swap.
  - intros w Hw. apply Hleast. rewrite HBz. apply elem_of_app. right.
    by right.
  - exists (Fork l' r1). cbn [leaf_weights cost]. split.
    + rewrite Hl', Hr1, HA, HBz. cbn [app].
      rewrite <- !Permutation_middle. apply perm_swap.
    + unfold total_weight. rewrite Hl', Hr1, Hla, Hrz, !sum_of_cons. nia.
Qed.

(** In any tree the two least weights can be made siblings and merged
    into one leaf: the tree for the merged weights costs their sum less,
    or less still. *)
Lemma merge_two_least n : forall t a b W,
  (length (leaf_weights t) <= n)%nat ->
  leaf_weights t ≡ₚ a :: b :: W ->
  (forall w, w ∈ W -> a <= w /\ b <= w) ->
  exists t1, leaf_weights t1 ≡ₚ (a + b) :: W /\ cost t1 + a + b <= cost t.
Proof.
  induction n as [|n IH]; intros t a b W Hn Hp Hleast.
  { apply Permutation_length in Hp. cbn in Hp. lia. }
  destruct t as [w|l r].
  { by apply Permutation_length in Hp. }
  cbn [leaf_weights] in Hn, Hp. rewrite length_app in Hn.
  pose proof (leaf_weights_nonempty l) as Hl0.
  pose proof (leaf_weights_nonempty r) as Hr0.
  assert (0 < length (leaf_weights l))%nat as Hl1
      by (destruct (leaf_weights l); cbn; [done|lia]).
  assert (0 < length (leaf_weights r))%nat as Hr1
      by (destruct (leaf_weights r); cbn; [done|lia]).
  (* one of the two in each subtree *)
  assert (forall a b A B,
    leaf_weights l ≡ₚ a :: A -> leaf_weights r ≡ₚ b :: B ->
    (forall w, w ∈ A ++ B -> a <= w /\ b <= w) ->
    exists t1, leaf_weights t1 ≡ₚ (a + b) :: A ++ B /\
               cost t1 + a + b <= cost (Fork l r)) as Hsides.
  { clear a b W Hp Hleast. intros a b A B Hl Hr Hleast.
    destruct (leaf_at_elem l a) as [da Ha]; [rewrite Hl; left|].
    destruct (leaf_at_elem r b) as [db Hb]; [rewrite Hr; left|].
    assert (forall t1, leaf_weights t1 ≡ₚ (b + a) :: B ++ A /\
                       cost t1 + b + a <= cost (Fork r l) ->
                       leaf_weights t1 ≡ₚ (a + b) :: A ++ B /\
                       cost t1 + a + b <= cost (Fork l r)) as Hmirror.
    { intros t1 [Hp Hc]. split.
      - by rewrite Hp, Z.add_comm, (Permutation_app_comm B A).
      - cbn [cost] in *. lia. }
    assert (forall w, w ∈ B ++ A -> b <= w /\ a <= w) as Hleast'.
    { intros w Hw. rewrite (Permutation_app_comm B A) in Hw.
      by destruct (Hleast w Hw). }
    destruct (decide (B = [])) as [->|HB].
    - assert (db = 0%nat) as -> by apply (leaf_at_single _ _ _ _ Hr Hb).
      destruct (decide (A = [])) as [->|HA].
      + apply leaf_weights_singleton in Hl as ->, Hr as ->.
        exists (Leaf (a + b)). cbn [cost leaf_weights app].
        rewrite !total_weight_Leaf. split; [done|lia].
      + destruct (bring_together n IH r l b a [] A 0%nat da)
          as [t1 Ht1]; [lia|done..|lia|done|].
        exists t1. by apply Hmirror.
    - destruct (decide (da <= db)%nat) as [Hd|Hd].
      + by apply (bring_together n IH l r a b A B da db).
      + assert (A <> []) as HA.
        { intros ->. pose proof (leaf_at_single _ _ _ _ Hl Ha). lia. }
        destruct (bring_together n IH r l b a B A db da)
          as [t1 Ht1]; [lia|done..|lia|done|].
        exists t1. by apply Hmirror. }
  assert (a ∈ leaf_weights l ++ leaf_weights r) as Ha by (rewrite Hp; left).
  apply elem_of_app in Ha as [Ha|Ha];
    apply elem_of_Permutation in Ha as [A HA].
  - assert (A ++ leaf_weights r ≡ₚ b :: W) as Hp'.
    { apply (Permutation_cons_inv (a:=a)). by rewrite <- Hp, HA. }
    assert (b ∈ A ++ leaf_weights r) as Hb by (rewrite Hp'; left).
    apply elem_of_app in Hb as [Hb|Hb];
      apply elem_of_Permutation in Hb as [B HB].
    + (* both in the left subtree *)
      assert (W ≡ₚ B ++ leaf_weights r) as HW.
      { apply (Permutation_cons_inv (a:=b)). by rewrite <- Hp', HB. }
      destruct (IH l a b B) as (l1 & Hl1' & Hc1).
      * lia.
      * by rewrite HA, HB.
      * intros w Hw. apply Hleast. rewrite HW. apply elem_of_app. by left.
      * exists (Fork l1 r). cbn [leaf_weights cost]. split.
        -- by rewrite Hl1', HW.
        -- unfold total_weight. rewrite Hl1', HA, HB, !sum_of_cons. lia.
    + assert (W ≡ₚ A ++ B) as HW.
      { apply (Permutation_cons_inv (a:=b)).
        by rewrite <- Hp', HB, Permutation_middle. }
      destruct (Hsides a b A B HA HB) as (t1 & Ht1 & Hc1).
      { intros w Hw. apply Hleast. by rewrite HW. }
      exists t1. by rewrite HW.
  - assert (leaf_weights l ++ A ≡ₚ b :: W) as Hp'.
    { apply (Permutation_cons_inv (a:=a)).
      by rewrite <- Hp, HA, Permutation_middle. }
    assert (b ∈ leaf_weights l ++ A) as Hb by (rewrite Hp'; left).
    apply elem_of_app in Hb as [Hb|Hb];
      apply elem_of_Permutation in Hb as [B HB].
    + assert (W ≡ₚ B ++ A) as HW.
      { apply (Permutation_cons_inv (a:=b)). by rewrite <- Hp', HB. }
      destruct (Hsides b a B A HB HA) as (t1 & Ht1 & Hc1).
      { intros w Hw. rewrite <- HW in Hw. by destruct (Hleast w Hw). }
      exists t1. split; [by rewrite Ht1, HW, Z.add_comm|lia].
    + (* both in the right subtree *)
      assert (W ≡ₚ leaf_weights l ++ B) as HW.
      { apply (Permutation_cons_inv (a:=b)).
        by rewrite <- Hp', HB, Permutation_middle. }
      destruct (IH r a b B) as (r1 & Hr1' & Hc1).
      * lia.
      * by rewrite HA, HB.
      * intros w Hw. apply Hleast. rewrite HW. apply elem_of_app. by right.
      * exists (Fork l r1). cbn [leaf_weights cost]. split.
        -- by rewrite Hr1', HW, Permutation_middle.
        -- unfold total_weight. rewrite Hr1', HA, HB, !sum_of_cons. lia.
Qed.

(** ** The trees of the program as trees of codes *)

Lemma cost_nonneg t : Forall (fun w => 0 <= w) (leaf_weights t) -> 0 <= cost t.
Proof.
  induction t as [w|l IHl r IHr]; cbn [leaf_weights cost]; [done|].
  intros [Hl Hr]%Forall_app.
  pose proof (sum_of_nonneg _ Hl). pose proof (sum_of_nonneg _ Hr).
  specialize (IHl Hl). specialize (IHr Hr). unfold total_weight. lia.
Qed.

Section Lengths.
Variable count : char -> Z.

Lemma weighted_length_step (b : bool) (ps : list (char * list bool)) :
  sum_of ((fun leaf : char * list bool =>
             count leaf.1 * Z.of_nat (length leaf.2))
          <$> (prod_map id (cons b) <$> ps))
  = sum_of ((fun leaf : char * list bool =>
               count leaf.1 * Z.of_nat (length leaf.2)) <$> ps)
    + sum_of (count <$> ps.*1).
Proof.
  induction ps as [|[c p] ps IH]; [done|].
  rewrite !fmap_cons, !sum_of_cons, IH. cbn [prod_map fst snd id length].
  lia.
Qed.

Lemma paths_step_fst (b : bool) (ps : list (char * list bool)) :
  (prod_map id (cons b) <$> ps).*1 = ps.*1.
Proof. induction ps as [|[c p] ps IH]; [done|]. rewrite !fmap_cons. by f_equal. Qed.

Lemma weighted_length_inner d f l r :
  is_leaf (Node d f l r) = false ->
  weighted_length count (ptr (Node d f l r))
  = weighted_length count l + weighted_length count r
    + symbols_weight count l + symbols_weight count r.
Proof.
  intros Hleaf. unfold weighted_length, symbols_weight. cbn [paths].
  rewrite Hleaf, app_nil_l, fmap_app, sum_of_app, !weighted_length_step. lia.
Qed.

Lemma symbols_weight_inner d f l r :
  is_leaf (Node d f l r) = false ->
  symbols_weight count (ptr (Node d f l r))
  = symbols_weight count l + symbols_weight count r.
Proof.
  intros Hleaf. unfold symbols_weight. cbn [paths].
  rewrite Hleaf, app_nil_l, !fmap_app, sum_of_app, !paths_step_fst. lia.
Qed.

Lemma paths_of_leaf d f l r :
  is_leaf (Node d f l r) = true -> paths (ptr (Node d f l r)) = [(d, [])].
Proof.
  unfold is_leaf. cbn [left right]. intros [Hl Hr]%andb_prop.
  destruct l, r; done.
Qed.

Lemma paths_ptr_nonempty n : paths (ptr n) <> [].
Proof.
  assert (forall node, node <> null -> paths node <> []) as Hall.
  { induction node as [|d f l r IHl IHr] using shared_ptr_induction; [done|].
    intros _. cbn [paths]. destruct (is_leaf (Node d f l r)) eqn:Hleaf;
      [done|]. rewrite app_nil_l. intros [Hl Hr]%app_eq_nil.
    apply fmap_nil_inv in Hl, Hr.
    destruct l as [|nl]; [|by apply IHl].
    destruct r as [|nr]; [done|by apply IHr]. }
  by apply Hall.
Qed.

Lemma symbols_weight_nonneg node :
  (forall c, 0 <= count c) -> 0 <= symbols_weight count node.
Proof.
  intros Hc. apply sum_of_nonneg, Forall_fmap, Forall_forall. intros c _.
  apply Hc.
Qed.

(** A tree of the program, with its one-child nodes taken out, as a
    [code_tree]: the symbols keep their counts and no code gets longer. *)
Lemma code_tree_of_paths node :
  (forall c, 0 <= count c) -> paths node <> [] ->
  exists t, leaf_weights t = count <$> (paths node).*1 /\
            cost t <= weighted_length count node.
Proof.
  intros Hc. induction node as [|d f l r IHl IHr] using shared_ptr_induction;
    [done|]. intros _.
  destruct (is_leaf (Node d f l r)) eqn:Hleaf.
  - exists (Leaf (count d)). unfold weighted_length.
    rewrite (paths_of_leaf _ _ _ _ Hleaf).
    split; [reflexivity|]. cbn. lia.
  - rewrite (weighted_length_inner _ _ _ _ Hleaf).
    pose proof (symbols_weight_nonneg l Hc).
    pose proof (symbols_weight_nonneg r Hc).
    assert ((paths (ptr (Node d f l r))).*1 = (paths l).*1 ++ (paths r).*1)
      as ->.
    { cbn [paths]. by rewrite Hleaf, app_nil_l, fmap_app, !paths_step_fst. }
    destruct (decide (paths l = [])) as [Hl|Hl];
      destruct (decide (paths r = [])) as [Hr|Hr].
    + destruct l as [|nl]; [|by destruct (paths_ptr_nonempty nl)].
      destruct r as [|nr]; [done|by destruct (paths_ptr_nonempty nr)].
    + destruct (IHr Hr) as (t & Ht & Hcost). exists t.
      rewrite Hl. cbn [fmap list_fmap app]. split; [done|].
      unfold weighted_length at 1. rewrite Hl. cbn. lia.
    + destruct (IHl Hl) as (t & Ht & Hcost). exists t.
      rewrite Hr, app_nil_r. split; [done|].
      unfold weighted_length at 2. rewrite Hr. cbn. lia.
    + destruct (IHl Hl) as (tl & Htl & Hcl).
      destruct (IHr Hr) as (tr & Htr & Hcr).
      exists (Fork tl tr). cbn [leaf_weights cost].
      rewrite Htl, Htr, fmap_app. split; [done|].
      unfold total_weight. rewrite Htl, Htr. unfold symbols_weight. lia.
Qed.

End Lengths.

(** ** The loop of [buildHuffmanTree] *)

Section Optimal.
Context `{!Platform} `{!PriorityQueue}.
Variable count : char -> Z.

Lemma queue_length_perm q1 q2 : q1 ≡ₚ q2 -> queue_length count q1 = queue_length count q2.
Proof. intros Hp. unfold queue_length. by rewrite Hp. Qed.

Lemma top_is_least q x :
  pq_top q = Some x -> forall y, y ∈ pq_elements q -> frequency x <= frequency y.
Proof.
  intros Hx y Hy. pose proof (pq_top_least q x y Hx Hy) as Hc.
  unfold CompareNodes in Hc. by apply Z.ltb_ge in Hc.
Qed.

Lemma merge_loop_optimal fuel : forall q q' root,
  merge_loop fuel q = Some q' -> pq_top q' = Some root ->
  Forall (sums_its_leaves count) (pq_elements q) ->
  sum_of (frequency <$> pq_elements q) < 2 ^ 32 ->
  forall t, leaf_weights t ≡ₚ frequency <$> pq_elements q ->
            weighted_length count (ptr root)
            <= queue_length count (pq_elements q) + cost t.
Proof.
  assert (forall q root,
            ~ (1 < pq_size q)%nat -> pq_top q = Some root ->
            forall t, leaf_weights t ≡ₚ frequency <$> pq_elements q ->
                      weighted_length count (ptr root)
                      <= queue_length count (pq_elements q) + cost t) as Hbase.
  { intros q root Hsize Hroot t Ht.
    assert (pq_elements q = [root]) as Hq.
    { pose proof (pq_elements_pop q root Hroot) as Hp.
      unfold pq_size in Hsize. rewrite Hp in Hsize. cbn in Hsize.
      destruct (pq_elements (pq_pop q)); [|cbn in Hsize; lia].
      by apply Permutation_singleton_r in Hp. }
    rewrite Hq in *. unfold queue_length. cbn.
    apply leaf_weights_singleton in Ht as ->. cbn. lia. }
  induction fuel as [|fuel IH]; intros q q' root; cbn [merge_loop];
    case_bool_decide as Hsize; try done;
    try (intros [= <-] Hroot _ _ t Ht; by apply Hbase).
  - destruct (pq_top q) as [l|] eqn:Hl; [|done]. cbn [mbind option_bind].
    destruct (pq_top (pq_pop q)) as [r|] eqn:Hr; [|done].
    cbn [mbind option_bind].
    set (newNode := Node _ _ (ptr l) (ptr r)).
    intros Hrun Hroot Hall Hsum t Ht.
    pose proof (pq_elements_pop q l Hl) as Hq1.
    pose proof (pq_elements_pop _ r Hr) as Hq2.
    set (rest := pq_elements (pq_pop (pq_pop q))) in *.
    assert (pq_elements q ≡ₚ l :: r :: rest) as Hq by by rewrite Hq1, Hq2.
    rewrite Hq in Hall, Hsum, Ht. rewrite (queue_length_perm _ _ Hq).
    apply Forall_cons in Hall as [[Hfl Hl0] Hall].
    apply Forall_cons in Hall as [[Hfr Hr0] Hall].
    rewrite !fmap_cons, !sum_of_cons in Hsum.
    assert (0 <= sum_of (frequency <$> rest)) as Hrest0.
    { apply sum_of_nonneg, Forall_fmap.
      eapply Forall_impl; [exact Hall|]. by intros x [_ ?]. }
    assert (frequency newNode = frequency l + frequency r) as Hnew.
    { unfold newNode. cbn [frequency]. apply wrap32_small. lia. }
    assert (forall w, w ∈ frequency <$> rest ->
                      frequency l <= w /\ frequency r <= w) as Hleast.
    { intros w (y & -> & Hy)%list_elem_of_fmap. split.
      - apply (top_is_least q l Hl). rewrite Hq. by do 2 right.
      - apply (top_is_least _ r Hr). rewrite Hq2. by right. }
    rewrite !fmap_cons in Ht.
    destruct (merge_two_least _ t _ _ _ (Nat.le_refl _) Ht Hleast)
      as (t1 & Ht1 & Hc1).
    pose proof (pq_elements_push newNode (pq_pop (pq_pop q))) as Hq3.
    fold rest in Hq3.
    assert (is_leaf newNode = false) as Hinner by done.
    assert (weighted_length count (ptr newNode)
            = weighted_length count (ptr l) + weighted_length count (ptr r)
              + frequency l + frequency r) as Hwl.
    { unfold newNode in *. rewrite (weighted_length_inner _ _ _ _ _ Hinner).
      lia. }
    assert (sums_its_leaves count newNode) as Hnew'.
    { split; [|lia]. rewrite Hnew. unfold newNode.
      rewrite (symbols_weight_inner _ _ _ _ _ Hinner). lia. }
    assert (Forall (sums_its_leaves count)
              (pq_elements (pq_push newNode (pq_pop (pq_pop q))))) as Hall'
        by (rewrite Hq3; by constructor).
    assert (sum_of (frequency
                    <$> pq_elements (pq_push newNode (pq_pop (pq_pop q))))
            < 2 ^ 32) as Hsum'
        by (rewrite Hq3, fmap_cons, sum_of_cons, Hnew; lia).
    assert (leaf_weights t1
            ≡ₚ frequency
               <$> pq_elements (pq_push newNode (pq_pop (pq_pop q))))
      as Ht1' by by rewrite Hq3, fmap_cons, Hnew.
    pose proof (IH _ _ _ Hrun Hroot Hall' Hsum' t1 Ht1') as Hrec.
    rewrite (queue_length_perm _ _ Hq3) in Hrec.
    unfold queue_length in *. rewrite !fmap_cons, !sum_of_cons in *. lia.
Qed.

End Optimal.

Section OptimalTree.
Context `{!Platform} `{!PriorityQueue}.

Lemma count_in_items (m : gmap char Z) :
  count_in m <$> (map_items m).*1 = (map_items m).*2.
Proof.
  assert (forall items : list (char * Z),
            (forall c f, (c, f) ∈ items -> m !! c = Some f) ->
            count_in m <$> items.*1 = items.*2) as Hall.
  { induction items as [|[c f] items IH]; intros Hin; [done|].
    rewrite !fmap_cons. cbn [fst snd]. f_equal.
    - unfold count_in. rewrite (Hin c f); [done|left].
    - apply IH. intros c' f' Hc. apply Hin. by right. }
  apply Hall. intros c f. apply elem_of_map_items.
Qed.

Lemma count_in_nonneg (m : gmap char Z) c :
  unsigned_values m -> 0 <= count_in m c.
Proof.
  intros Hu. unfold count_in. destruct (m !! c) as [f|] eqn:Hc; [|done].
  cbn. by destruct (Hu c f Hc).
Qed.

Lemma sum_of_foldr (l : list Z) : foldr Z.add 0 l = sum_of l.
Proof. done. Qed.

Lemma map_size_one (m : gmap char Z) :
  size m = 1%nat -> exists c f, m = {[c := f]}.
Proof.
  intros Hsize. pose proof (length_map_items m) as Hlen.
  rewrite Hsize in Hlen.
  destruct (map_items m) as [|[c f] [|??]] eqn:Hitems; try done.
  exists c, f. apply map_eq. intros k.
  destruct (decide (k = c)) as [->|Hk].
  - rewrite lookup_singleton_eq. apply elem_of_map_items. rewrite Hitems. left.
  - rewrite lookup_singleton_ne by done.
    destruct (m !! k) as [v|] eqn:Hv; [|done].
    apply elem_of_map_items in Hv. rewrite Hitems in Hv.
    apply list_elem_of_singleton in Hv. congruence.
Qed.

(** For a table of two symbols or more whose frequencies add up to less
    than [2^32]: against any binary tree that carries the frequencies at
    its leaves, the tree built gives the shorter text, or one as short. *)
Lemma buildHuffmanTree_optimal (m : gmap char Z) :
  unsigned_values m -> totalChars_of m < 2 ^ 32 -> (2 <= size m)%nat ->
  exists root,
    buildHuffmanTree m = Some (ptr root) /\
    forall t, leaf_weights t ≡ₚ (map_items m).*2 ->
              weighted_length (count_in m) (ptr root) <= cost t.
Proof.
  intros Hu Htotal Hsize.
  destruct (buildHuffmanTree_spec m) as (root & Hbuild & _).
  { apply map_size_non_empty_iff. lia. }
  exists root. split; [done|]. intros t Ht.
  unfold buildHuffmanTree in Hbuild.
  destruct (pq_empty _); [done|].
  pose proof (pq_size_push_leaves m) as Hq0.
  unfold add_dummy_parent in Hbuild.
  rewrite bool_decide_false in Hbuild by lia. cbn [mbind option_bind] in Hbuild.
  destruct (merge_loop _ _) as [q2|] eqn:Hrun; [|done].
  cbn [mbind option_bind] in Hbuild.
  destruct (pq_top q2) as [x|] eqn:Hx; [|done].
  cbn [mbind option_bind] in Hbuild. injection Hbuild as ->.
  pose proof (push_leaves_elements m) as Hleaves.
  assert (frequency <$> pq_elements (push_leaves m) ≡ₚ (map_items m).*2)
    as Hfreq.
  { rewrite Hleaves. clear. induction (map_items m) as [|[c f] items IH];
      [done|]. rewrite !fmap_cons. by f_equiv. }
  assert (queue_length (count_in m) (pq_elements (push_leaves m)) = 0)
    as Hzero.
  { rewrite (queue_length_perm _ _ _ Hleaves). unfold queue_length. clear.
    induction (map_items m) as [|[c f] items IH]; [done|].
    rewrite !fmap_cons, sum_of_cons, IH. unfold weighted_length. cbn. lia. }
  pose proof (merge_loop_optimal (count_in m) _ _ _ _ Hrun Hx) as Hopt.
  rewrite Hzero in Hopt. apply Hopt.
  - rewrite Hleaves. apply Forall_fmap, Forall_forall.
    intros [c f] Hc%elem_of_map_items. split.
    + unfold symbols_weight, count_in. cbn. rewrite Hc. cbn. lia.
    + cbn. by destruct (Hu c f Hc).
  - rewrite Hfreq, <- sum_of_foldr, <- totalChars_of_weight. done.
  - by rewrite Hfreq.
Qed.

End OptimalTree.

(** ** The tree and the compressed file *)

Section LeastLength.
Context `{!Platform} `{!PriorityQueue}.

Lemma weighted_length_ext (f g : char -> Z) node :
  (forall c, f c = g c) -> weighted_length f node = weighted_length g node.
Proof.
  intros Hfg. unfold weighted_length. f_equal. apply list_fmap_ext.
  intros _ [c p] _. cbn. by rewrite Hfg.
Qed.

Lemma buildHuffmanTree_least_length (m : gmap char Z) :
  unsigned_values m -> totalChars_of m < 2 ^ 32 ->
  exists root,
    buildHuffmanTree m = Some root /\
    forall other,
      (paths other).*1 ≡ₚ (map_items m).*1 ->
      (forall c p, (c, p) ∈ paths other -> p <> []) ->
      weighted_length (count_in m) root <= weighted_length (count_in m) other.
Proof.
  intros Hu Htotal.
  destruct (decide (size m = 0%nat)) as [Hz|Hz];
    [|destruct (decide (size m = 1%nat)) as [H1|H1]].
  - apply map_size_empty_inv in Hz as ->. exists null.
    split; [apply buildHuffmanTree_empty|]. intros other Hsyms _.
    rewrite map_items_of_empty in Hsyms. apply Permutation_nil_r in Hsyms.
    apply fmap_nil_inv in Hsyms. unfold weighted_length. by rewrite Hsyms.
  - destruct (map_size_one m H1) as (a & f & ->).
    eexists. split; [apply buildHuffmanTree_singleton|].
    intros other Hsyms Hcodes. rewrite map_items_singleton in Hsyms.
    apply Permutation_singleton_r in Hsyms.
    destruct (paths other) as [|[c p] [|??]] eqn:Hpaths; try done.
    injection Hsyms as ->.
    assert (p <> []) as Hp by (apply (Hcodes a); left).
    assert (0 <= count_in {[a := f]} a) as Hf by by apply count_in_nonneg.
    unfold weighted_length. rewrite Hpaths. cbn.
    destruct p; [done|]. cbn [length]. nia.
  - destruct (buildHuffmanTree_optimal m Hu Htotal) as (root & Hroot & Hopt);
      [lia|].
    exists (ptr root). split; [done|]. intros other Hsyms _.
    destruct (code_tree_of_paths (count_in m) other) as (t & Ht & Hcost).
    + intros c. by apply count_in_nonneg.
    + intros Hnil. rewrite Hnil in Hsyms. apply Permutation_nil_l in Hsyms.
      apply (f_equal length) in Hsyms.
      rewrite length_fmap, length_map_items in Hsyms. cbn in Hsyms. lia.
    + etrans; [apply Hopt|exact Hcost].
      by rewrite Ht, Hsyms, count_in_items.
Qed.

(** X25: for a table whose frequencies add up to less than [2^32],
    [buildHuffmanTree] builds a tree of least length.  Take any other tree
    that has exactly one leaf for every symbol of the table, none of them at
    its root: the sum over the symbols of frequency times code length is for
    the tree built no more than for the other tree. *)
Theorem huffman_tree_has_least_length (frequencyMap : gmap char Z) :
  unsigned_values frequencyMap -> totalChars_of frequencyMap < 2 ^ 32 ->
  exists root,
    buildHuffmanTree frequencyMap = Some root /\
    forall other,
      (paths other).*1 ≡ₚ (map_items frequencyMap).*1 ->
      (forall c p, (c, p) ∈ paths other -> p <> []) ->
      weighted_length (count_in frequencyMap) root
      <= weighted_length (count_in frequencyMap) other.
Proof. apply buildHuffmanTree_least_length. Qed.

Lemma count_in_buildFrequencyTable file c :
  counters_fit file ->
  count_in (buildFrequencyTable file) c = Z.of_nat (occurrences c file).
Proof.
  intros Hfit. unfold count_in. rewrite buildFrequencyTable_lookup.
  destruct (decide _) as [->|_]; [done|]. cbn.
  apply wrap32_small. specialize (Hfit c). lia.
Qed.

Lemma weighted_occurrences_nil (ps : list (char * list bool)) :
  sum_of ((fun leaf : char * list bool =>
             Z.of_nat (occurrences leaf.1 []) * Z.of_nat (length leaf.2))
          <$> ps) = 0.
Proof.
  induction ps as [|[c p] ps IH]; [done|].
  rewrite fmap_cons, sum_of_cons, IH. cbn. lia.
Qed.

Lemma weighted_occurrences_cons (ps : list (char * list bool)) c0 p0 file :
  NoDup ps.*1 -> (c0, p0) ∈ ps ->
  sum_of ((fun leaf : char * list bool =>
             Z.of_nat (occurrences leaf.1 (c0 :: file))
             * Z.of_nat (length leaf.2)) <$> ps)
  = Z.of_nat (length p0)
    + sum_of ((fun leaf : char * list bool =>
                 Z.of_nat (occurrences leaf.1 file)
                 * Z.of_nat (length leaf.2)) <$> ps).
Proof.
  unfold occurrences.
  induction ps as [|[c p] ps IH]; intros Hnodup Hp0;
    [by apply elem_of_nil in Hp0|].
  rewrite !fmap_cons, !sum_of_cons. cbn [fst snd].
  rewrite fmap_cons in Hnodup. apply NoDup_cons in Hnodup as [Hnew Hnodup].
  cbn [fst] in Hnew.
  apply elem_of_cons in Hp0 as [[= <- <-]|Hp0].
  - assert (sum_of ((fun leaf : char * list bool =>
               Z.of_nat (count_occ byte_eq_dec (c0 :: file) leaf.1)
               * Z.of_nat (length leaf.2)) <$> ps)
            = sum_of ((fun leaf : char * list bool =>
               Z.of_nat (count_occ byte_eq_dec file leaf.1)
               * Z.of_nat (length leaf.2)) <$> ps)) as ->.
    { f_equal. apply list_fmap_ext. intros i [c p] Hcp.
      cbn [fst snd count_occ].
      destruct (byte_eq_dec c0 c) as [<-|_]; [|done].
      exfalso. apply Hnew. apply list_elem_of_fmap. exists (c0, p).
      split; [done|]. by apply list_elem_of_lookup_2 in Hcp. }
    cbn [count_occ]. destruct (byte_eq_dec c0 c0); [|done]. lia.
  - rewrite (IH Hnodup Hp0). cbn [count_occ].
    destruct (byte_eq_dec c0 c) as [<-|_]; [|lia].
    exfalso. apply Hnew. apply list_elem_of_fmap. by exists (c0, p0).
Qed.

(** The number of code bits of a file is, symbol by symbol, the number of
    occurrences times the length of the code. *)
Lemma length_encode node (file : list byte) :
  NoDup (paths node).*1 -> (forall c, c ∈ file -> c ∈ (paths node).*1) ->
  Z.of_nat (length (encode (generateCodes node "" ∅) file))
  = weighted_length (fun c => Z.of_nat (occurrences c file)) node.
Proof.
  intros Hnodup. unfold weighted_length.
  induction file as [|c0 file IH]; intros Hin.
  - by rewrite weighted_occurrences_nil.
  - assert (c0 ∈ (paths node).*1) as Hc0 by (apply Hin; left).
    apply list_elem_of_fmap in Hc0 as ([c p0] & Hc & Hp0). cbn in Hc.
    subst c.
    assert (generateCodes node "" ∅ !! c0 = Some (code_string p0)) as Hcode.
    { apply generateCodes_lookup; [done|]. by exists p0. }
    rewrite (weighted_occurrences_cons _ _ p0) by done.
    unfold encode in *. cbn [flat_map]. rewrite length_app, Nat2Z.inj_add, IH.
    2:{ intros c Hc. apply Hin. by right. }
    rewrite Hcode. cbn [default from_option id].
    by rewrite bits_of_code_string.
Qed.

End LeastLength.

Section Shortest.
Context `{!Platform} `{!PriorityQueue}.

Lemma coded_by_paths node (file : list byte) :
  NoDup (paths node).*1 -> (forall c, c ∈ file -> c ∈ (paths node).*1) ->
  forall c, c ∈ file ->
            exists p, generateCodes node "" ∅ !! c = Some (code_string p).
Proof.
  intros Hnodup Hin c Hc.
  pose proof (Hin c Hc) as Hc'.
  apply list_elem_of_fmap in Hc' as ([c' p] & Heq & Hp). cbn in Heq. subst c'. exists p. apply generateCodes_lookup; [done|].
  by exists p.
Qed.

(** X26: [compress] writes the shortest output that a tree of codes
    allows.  For a file that is not empty and shorter than [2^32] bytes, take
    any other tree with exactly one leaf for every byte value of the file,
    none at its root: the codes of [compress] spell the file in no more bits
    than the codes of the other tree, and the output of [compress] is no
    longer than the same header followed by the file packed with the other
    codes. *)
Theorem compress_output_is_shortest (file : list byte) :
  file <> [] -> Z.of_nat (length file) < 2 ^ 32 ->
  exists root r,
    buildHuffmanTree (buildFrequencyTable file) = Some root /\
    compress file = Some r /\
    forall other,
      (paths other).*1 ≡ₚ (map_items (buildFrequencyTable file)).*1 ->
      (forall c p, (c, p) ∈ paths other -> p <> []) ->
      (length (encode (generateCodes root "" ∅) file)
       <= length (encode (generateCodes other "" ∅) file))%nat /\
      (length (written r)
       <= length (writeHeader (buildFrequencyTable file) ++
                  writeCompressedData (generateCodes other "" ∅) file))%nat.
Proof.
  intros Hne Hlen. set (m := buildFrequencyTable file).
  pose proof (counters_fit_short file Hlen) as Hfit.
  destruct (compress_nonempty file Hne) as (r0 & Hb & _ & _ & Hcompress).
  fold m in Hb, Hcompress.
  destruct (buildHuffmanTree_paths m) as (r1 & Hb1 & _ & Hnodup & Hsyms).
  { unfold m. by rewrite buildFrequencyTable_empty_iff. }
  rewrite Hb in Hb1. injection Hb1 as <-.
  destruct (buildHuffmanTree_least_length m) as (root & Hb2 & Hleast).
  { apply buildFrequencyTable_unsigned. }
  { unfold m. by rewrite totalChars_of_buildFrequencyTable. }
  rewrite Hb in Hb2. injection Hb2 as <-.
  eexists _, _. split; [done|]. split; [done|].
  intros other Hother Hcodes. cbn [written].
  assert (forall c, c ∈ file -> c ∈ (paths (ptr r0)).*1) as Hin.
  { intros c Hc. apply Hsyms. by apply buildFrequencyTable_is_Some. }
  assert (NoDup (paths other).*1) as Hnodup'.
  { rewrite Hother. apply NoDup_map_items_fst. }
  assert (forall c, c ∈ file -> c ∈ (paths other).*1) as Hin'.
  { intros c Hc. rewrite Hother. apply list_elem_of_fmap.
    destruct (proj2 (buildFrequencyTable_is_Some file c) Hc) as [v Hv].
    exists (c, v). split; [done|]. by apply elem_of_map_items. }
  assert (length (encode (generateCodes (ptr r0) "" ∅) file)
          <= length (encode (generateCodes other "" ∅) file))%nat as Hbits.
  { apply Nat2Z.inj_le. rewrite !length_encode by done.
    rewrite <- (weighted_length_ext (count_in m) _ (ptr r0)),
      <- (weighted_length_ext (count_in m) _ other)
      by (intros c; by apply count_in_buildFrequencyTable).
    by apply Hleast. }
  split; [done|]. rewrite !length_app.
  rewrite !length_writeCompressedData by by apply coded_by_paths.
  apply Nat.add_le_mono_l, Nat.Div0.div_le_mono. lia.
Qed.

End Shortest.

(** ** The length of a code *)

Lemma length_code_string (p : list bool) :
  String.length (code_string p) = length p.
Proof. induction p as [|b p IH]; [done|]. cbn. by rewrite IH. Qed.

Lemma paths_inner d f l r :
  is_leaf (Node d f l r) = false ->
  paths (ptr (Node d f l r))
  = (prod_map id (cons false) <$> paths l)
    ++ (prod_map id (cons true) <$> paths r).
Proof. intros Hleaf. cbn [paths]. by rewrite Hleaf. Qed.

(** In a strict tree a leaf lies less deep than there are leaves. *)
Lemma strict_depth node c p :
  strict node = true -> (c, p) ∈ paths node ->
  (length p < length (paths node))%nat.
Proof.
  revert p. induction node as [|d f l r IHl IHr] using shared_ptr_induction;
    intros p; [by intros _ ?%elem_of_nil|].
  destruct l as [|nl], r as [|nr]; try done.
  - intros _ Hin. cbn in Hin.
    apply list_elem_of_singleton in Hin as [= -> ->]. cbn. lia.
  - intros Hs. change (strict (ptr nl) && strict (ptr nr) = true) in Hs.
    apply andb_prop in Hs as [Hl Hr].
    rewrite paths_inner by done. rewrite length_app, !length_fmap.
    pose proof (paths_ptr_nonempty nl) as Hnl.
    pose proof (paths_ptr_nonempty nr) as Hnr.
    assert (0 < length (paths (ptr nl)))%nat
      by (destruct (paths (ptr nl)); cbn; [done|lia]).
    assert (0 < length (paths (ptr nr)))%nat
      by (destruct (paths (ptr nr)); cbn; [done|lia]).
    intros [Hin|Hin]%elem_of_app;
      apply list_elem_of_fmap in Hin as ([c' p'] & [= -> ->] & Hin);
      cbn [length].
    + specialize (IHl _ Hl Hin). lia.
    + specialize (IHr _ Hr Hin). lia.
Qed.

Section CodeLengths.
Context `{!Platform} `{!PriorityQueue}.

(** X27: no code is empty and no code is longer than there are symbols
    less one (one bit, when there is a single symbol): the codes that
    [generateCodes] stores for the tree of [buildHuffmanTree] have from 1 to
    255 characters. *)
Theorem code_lengths_are_bounded (frequencyMap : gmap char Z) :
  exists root,
    buildHuffmanTree frequencyMap = Some root /\
    forall c code,
      generateCodes root "" ∅ !! c = Some code ->
      (1 <= String.length code)%nat /\
      (String.length code <= Nat.max 1 (size frequencyMap - 1))%nat /\
      (String.length code <= 255)%nat.
Proof.
  pose proof (size_le_256 frequencyMap) as H256.
  destruct (decide (size frequencyMap = 0%nat)) as [Hz|Hz];
    [|destruct (decide (size frequencyMap = 1%nat)) as [H1|H1]].
  - apply map_size_empty_inv in Hz as ->. exists null.
    split; [apply buildHuffmanTree_empty|]. by intros c code.
  - destruct (map_size_one frequencyMap H1) as (a & f & ->).
    eexists. split; [apply buildHuffmanTree_singleton|].
    intros c code. cbn [generateCodes is_leaf left right is_null andb].
    rewrite lookup_insert_Some, lookup_empty.
    intros [[_ <-]|[_ [=]]].
    change (String.length ("" +:+ "0")) with 1%nat. lia.
  - destruct (buildHuffmanTree_strict frequencyMap)
      as (root & Hbuild & Hinner & Hstrict); [lia|].
    destruct (buildHuffmanTree_spec frequencyMap) as (root' & Hb & _ & Hleaves).
    { apply map_size_non_empty_iff. lia. }
    rewrite Hbuild in Hb. injection Hb as <-.
    exists (ptr root). split; [done|]. intros c code Hcode.
    assert (NoDup (paths (ptr root)).*1) as Hnodup.
    { rewrite paths_fst, Hleaves. apply NoDup_map_items_fst. }
    apply (generateCodes_lookup _ _ _ Hnodup) in Hcode as (p & Hp & ->).
    rewrite length_code_string.
    pose proof (paths_nonempty_of_internal _ _ _ Hinner Hp) as Hne.
    pose proof (strict_depth _ _ _ Hstrict Hp) as Hdepth.
    assert (length (paths (ptr root)) = size frequencyMap) as Hlen.
    { rewrite <- (length_fmap fst), paths_fst, length_fmap, Hleaves.
      apply length_map_items. }
    destruct p; [done|]. cbn [length] in *. lia.
Qed.

End CodeLengths.

(** ** No expansion *)

(** A tree in which no leaf lies deeper than [k], for up to [2^k] weights. *)
Lemma balanced_tree (k : nat) : forall ws : list Z,
  Forall (fun w => 0 <= w) ws -> (1 <= length ws <= 2 ^ k)%nat ->
  exists t, leaf_weights t = ws /\ cost t <= Z.of_nat k * sum_of ws.
Proof.
  induction k as [|k IH]; intros ws Hpos Hlen.
  - destruct ws as [|w [|??]]; cbn in Hlen; try lia.
    exists (Leaf w). split; [done|]. cbn. lia.
  - pose proof (sum_of_nonneg _ Hpos) as Hsum.
    destruct (decide (length ws <= 2 ^ k)%nat) as [Hle|Hgt].
    + destruct (IH ws Hpos) as (t & Ht & Hc); [lia|].
      exists t. split; [done|]. nia.
    + rewrite Nat.pow_succ_r' in Hlen.
      rewrite <- (take_drop (2 ^ k) ws) in Hpos, Hsum |- *.
      apply Forall_app in Hpos as [Hpos1 Hpos2].
      destruct (IH (take (2 ^ k) ws) Hpos1) as (t1 & Ht1 & Hc1).
      { rewrite length_take. lia. }
      destruct (IH (drop (2 ^ k) ws) Hpos2) as (t2 & Ht2 & Hc2).
      { rewrite length_drop. lia. }
      exists (Fork t1 t2). cbn [leaf_weights cost]. rewrite Ht1, Ht2.
      split; [done|]. unfold total_weight. rewrite Ht1, Ht2, sum_of_app.
      lia.
Qed.

Section NoExpansion.
Context `{!Platform} `{!PriorityQueue}.

(** The tree built spends at most eight bits on a symbol, on average. *)
Lemma buildHuffmanTree_eight_bits (m : gmap char Z) :
  unsigned_values m -> totalChars_of m < 2 ^ 32 ->
  exists root,
    buildHuffmanTree m = Some root /\
    weighted_length (count_in m) root <= 8 * totalChars_of m.
Proof.
  intros Hu Htotal.
  pose proof (totalChars_of_range m Hu) as [Hpos _].
  destruct (decide (size m = 0%nat)) as [Hz|Hz];
    [|destruct (decide (size m = 1%nat)) as [H1|H1]].
  - apply map_size_empty_inv in Hz as ->. exists null.
    split; [apply buildHuffmanTree_empty|]. unfold weighted_length. cbn. lia.
  - destruct (map_size_one m H1) as (a & f & ->).
    eexists. split; [apply buildHuffmanTree_singleton|].
    rewrite totalChars_of_weight, map_items_singleton in Hpos |- *.
    unfold weighted_length, count_in. cbn in Hpos |- *.
    rewrite lookup_singleton_eq. cbn. lia.
  - destruct (buildHuffmanTree_optimal m Hu Htotal) as (root & Hroot & Hopt);
      [lia|].
    exists (ptr root). split; [done|].
    destruct (balanced_tree 8 (map_items m).*2) as (t & Ht & Hcost).
    + apply Forall_fmap, Forall_forall. intros [c f] Hc%elem_of_map_items.
      cbn. by destruct (Hu c f Hc).
    + rewrite length_fmap, length_map_items.
      pose proof (size_le_256 m). change (2 ^ 8)%nat with 256%nat. lia.
    + etrans; [apply Hopt; by rewrite Ht|].
      by rewrite totalChars_of_weight, sum_of_foldr.
Qed.

(** X28: compressing never makes the data longer.  For a file shorter
    than [2^32] bytes the bytes of codes that [compress] writes after the
    header are no more than the bytes of the file, so that the output is
    longer than the input by the header at most: 8 bytes and 5 for every
    byte value that occurs, 1288 bytes at most. *)
Theorem compress_expands_by_the_header_at_most (file : list byte) :
  Z.of_nat (length file) < 2 ^ 32 ->
  exists r,
    compress file = Some r /\
    (length (written r)
     <= 8 + 5 * size (buildFrequencyTable file) + length file)%nat /\
    (length (written r) <= 1288 + length file)%nat.
Proof.
  intros Hlen. set (m := buildFrequencyTable file).
  pose proof (size_le_256 m) as H256.
  destruct (decide (file = [])) as [->|Hne].
  { eexists. split; [done|]. cbn. lia. }
  pose proof (counters_fit_short file Hlen) as Hfit.
  destruct (compress_nonempty file Hne) as (r0 & Hb & _ & _ & Hcompress).
  fold m in Hb, Hcompress.
  destruct (buildHuffmanTree_paths m) as (r1 & Hb1 & _ & Hnodup & Hsyms).
  { unfold m. by rewrite buildFrequencyTable_empty_iff. }
  rewrite Hb in Hb1. injection Hb1 as <-.
  destruct (buildHuffmanTree_eight_bits m) as (root & Hb2 & Height).
  { apply buildFrequencyTable_unsigned. }
  { unfold m. by rewrite totalChars_of_buildFrequencyTable. }
  rewrite Hb in Hb2. injection Hb2 as <-.
  eexists. split; [done|]. cbn [written].
  assert (forall c, c ∈ file -> c ∈ (paths (ptr r0)).*1) as Hin.
  { intros c Hc. apply Hsyms. by apply buildFrequencyTable_is_Some. }
  assert (length (encode (generateCodes (ptr r0) "" ∅) file)
          <= 8 * length file)%nat as Hbits.
  { apply Nat2Z.inj_le. rewrite length_encode by done.
    rewrite <- (weighted_length_ext (count_in m))
      by (intros c; by apply count_in_buildFrequencyTable).
    unfold m in *. rewrite totalChars_of_buildFrequencyTable in Height
      by done. lia. }
  rewrite length_app, length_writeHeader.
  rewrite length_writeCompressedData by by apply coded_by_paths.
  assert ((length (encode (generateCodes (ptr r0) "" ∅) file) + 7) / 8
          <= length file)%nat.
  { apply Nat.lt_succ_r, Nat.Div0.div_lt_upper_bound. lia. }
  fold m. lia.
Qed.

End NoExpansion.

(** ** The theorems above at concrete inputs *)

Lemma aaabbc_two_symbols : (2 <= size (buildFrequencyTable aaabbc))%nat.
Proof. by_evaluation. Qed.

Lemma root_frequency_is_the_total_witness :
  buildFrequencyTable aaabbc <> ∅ /\
  unsigned_values (buildFrequencyTable aaabbc) /\
  exists root,
    @buildHuffmanTree signed_char_platform list_queue
      (buildFrequencyTable aaabbc) = Some (ptr root) /\
    frequency root
    = wrap32 (@totalChars_of signed_char_platform (buildFrequencyTable aaabbc)).
Proof.
  split; [exact aaabbc_table_not_empty|].
  split; [exact (buildFrequencyTable_unsigned aaabbc)|].
  exact (@root_frequency_is_the_total signed_char_platform list_queue
           (buildFrequencyTable aaabbc) aaabbc_table_not_empty
           (buildFrequencyTable_unsigned aaabbc)).
Defined.

Lemma tree_is_strict_witness :
  (2 <= size (buildFrequencyTable aaabbc))%nat /\
  exists root,
    @buildHuffmanTree signed_char_platform list_queue
      (buildFrequencyTable aaabbc) = Some (ptr root) /\
    is_leaf root = false /\ strict (ptr root) = true.
Proof.
  split; [exact aaabbc_two_symbols|].
  exact (@tree_is_strict signed_char_platform list_queue
           (buildFrequencyTable aaabbc) aaabbc_two_symbols).
Defined.

Lemma frequency_table_total_witness :
  counters_fit aaabbc /\
  @totalChars_of signed_char_platform (buildFrequencyTable aaabbc)
  = Z.of_nat (length aaabbc).
Proof.
  split; [exact aaabbc_fits|].
  exact (@frequency_table_total signed_char_platform aaabbc aaabbc_fits).
Defined.

Lemma another_tree_NoDup : NoDup (paths another_tree).*1.
Proof. by_evaluation. Qed.

Lemma b_in_another_tree : ("b"%byte, [false; true]) ∈ paths another_tree.
Proof. by_evaluation. Qed.

Lemma z_not_in_another_tree : "z"%byte ∉ (paths another_tree).*1.
Proof. by_evaluation. Qed.

(** In a tree of three leaves, with the starting code "1" and a table
    that has entries for [b] and [z]: the entry of the leaf symbol [b] is
    replaced by "1" followed by its path "01", and the entry of [z], which
    is at no leaf, stays. *)
Lemma generateCodes_changes_only_leaves_witness :
  NoDup (paths another_tree).*1 /\
  ("b"%byte, [false; true]) ∈ paths another_tree /\
  generateCodes another_tree "1" old_codes !! "b"%byte
  = Some ("1" +:+ code_string [false; true])%string /\
  ("z"%byte ∉ (paths another_tree).*1) /\
  generateCodes another_tree "1" old_codes !! "z"%byte
  = old_codes !! "z"%byte.
Proof.
  split; [exact another_tree_NoDup|]. split; [exact b_in_another_tree|].
  split.
  - exact (proj1 (generateCodes_changes_only_leaves another_tree "1"
                    old_codes "b"%byte another_tree_NoDup)
             [false; true] b_in_another_tree).
  - split; [exact z_not_in_another_tree|].
    exact (proj2 (generateCodes_changes_only_leaves another_tree "1"
                    old_codes "z"%byte another_tree_NoDup)
             z_not_in_another_tree).
Defined.

Lemma two_codes_cover :
  forall c, c ∈ bytes_of_string "aab" ->
            exists p, two_codes !! c = Some (code_string p).
Proof.
  intros c Hc. vm_compute in Hc.
  repeat (apply elem_of_cons in Hc as [->|Hc]);
    [by exists [false]|by exists [false]|by exists [true; false]|].
  by apply elem_of_nil in Hc.
Qed.

Lemma packed_codes_witness :
  (forall c, c ∈ bytes_of_string "aab" ->
             exists p, two_codes !! c = Some (code_string p)) /\
  exists n,
    (n < 8)%nat /\
    flat_map (@bits_of_byte signed_char_platform)
      (@writeCompressedData signed_char_platform two_codes
         (bytes_of_string "aab"))
    = encode two_codes (bytes_of_string "aab") ++ repeat false n /\
    length (@writeCompressedData signed_char_platform two_codes
              (bytes_of_string "aab"))
    = ((length (encode two_codes (bytes_of_string "aab")) + 7) / 8)%nat.
Proof.
  split; [exact two_codes_cover|].
  exact (@packed_codes signed_char_platform two_codes (bytes_of_string "aab")
           two_codes_cover).
Defined.

Lemma compress_run_of_one_byte_witness :
  3%nat <> 0%nat /\ Z.of_nat 3 < 2 ^ 32 /\
  @compress signed_char_platform list_queue (repeat "a"%byte 3)
  = Some {| written :=
              le_bytes sizeof_size_t 1 ++
              "a"%byte :: le_bytes sizeof_unsigned (Z.of_nat 3) ++
              repeat x00 ((3 + 7) / 8);
            cout := compress_messages |}.
Proof.
  assert (3%nat <> 0%nat) as Hne by discriminate.
  assert (Z.of_nat 3 < 2 ^ 32) as Hlt by reflexivity.
  split; [exact Hne|]. split; [exact Hlt|].
  exact (@compress_run_of_one_byte signed_char_platform list_queue
           "a"%byte 3%nat Hne Hlt).
Defined.

Lemma two_pairs_unsigned :
  Forall (fun kv : char * Z => 0 <= kv.2 < 2 ^ 32) two_pairs.
Proof. repeat constructor; cbn; lia. Qed.

Lemma readHeader_complete_witness :
  Forall (fun kv : char * Z => 0 <= kv.2 < 2 ^ 32) two_pairs /\
  Z.of_nat (length two_pairs) < 2 ^ 64 /\
  readHeader stale_x7
    (open (le_bytes sizeof_size_t (Z.of_nat (length two_pairs)) ++
           flat_map (fun pair : char * Z =>
                       pair.1 :: le_bytes sizeof_unsigned pair.2) two_pairs ++
           [xff]))
  = ((list_to_map (reverse two_pairs) : gmap char Z),
     {| unread := [xff]; failbit := false |}).
Proof.
  assert (Z.of_nat (length two_pairs) < 2 ^ 64) as Hlt by reflexivity.
  split; [exact two_pairs_unsigned|]. split; [exact Hlt|].
  exact (readHeader_complete stale_x7 two_pairs [xff]
           two_pairs_unsigned Hlt).
Defined.

Lemma two_a_decoded :
  @decodeData signed_char_platform {["a"%byte := 2]}
    (single_symbol_root "a" 2) (open [x00])
  = Some (bytes_of_string "aa").
Proof. vm_compute. reflexivity. Qed.

Lemma decoded_output_is_bounded_witness :
  @decodeData signed_char_platform {["a"%byte := 2]}
    (single_symbol_root "a" 2) (open [x00])
  = Some (bytes_of_string "aa") /\
  Z.of_nat (length (bytes_of_string "aa"))
  <= Z.max 0 (@totalChars_of signed_char_platform {["a"%byte := 2]}) /\
  Forall (fun b => b ∈ (leaves (single_symbol_root "a" 2)).*1)
         (bytes_of_string "aa").
Proof.
  split; [exact two_a_decoded|].
  exact (@decoded_output_is_bounded signed_char_platform {["a"%byte := 2]}
           (single_symbol_root "a" 2) (open [x00]) (bytes_of_string "aa")
           two_a_decoded).
Defined.

Lemma aaabbc_header_three_symbols :
  size (readHeader zeroed
          (open aaabbc_header_and_noise)).1 <> 1%nat.
Proof. by_evaluation. Qed.

Lemma decompress_is_safe_witness :
  size (readHeader zeroed
          (open aaabbc_header_and_noise)).1 <> 1%nat /\
  is_Some (@decompress signed_char_platform list_queue zeroed
             aaabbc_header_and_noise).
Proof.
  split; [exact aaabbc_header_three_symbols|].
  exact (@decompress_is_safe signed_char_platform list_queue zeroed
           aaabbc_header_and_noise aaabbc_header_three_symbols).
Defined.

Lemma trailing_bytes_are_ignored_witness :
  aaabbc <> [] /\ counters_fit aaabbc /\
  exists r,
    @compress signed_char_platform list_queue aaabbc = Some r /\
    succeeds_with aaabbc
      (@decompress signed_char_platform list_queue zeroed
         (written r ++ [xff; x00])).
Proof.
  split; [exact aaabbc_not_empty|]. split; [exact aaabbc_fits|].
  exact (@trailing_bytes_are_ignored signed_char_platform list_queue zeroed
           aaabbc [xff; x00] aaabbc_not_empty aaabbc_fits).
Defined.

Lemma cccccc_in_table :
  forall s, s ∈ cccccc -> is_Some (buildFrequencyTable aaabbc !! s).
Proof.
  intros s Hs. vm_compute in Hs.
  repeat (apply elem_of_cons in Hs as [->|Hs]);
    [by eexists..|by apply elem_of_nil in Hs].
Qed.

Lemma cccccc_total :
  @totalChars_of signed_char_platform (buildFrequencyTable aaabbc)
  = Z.of_nat (length cccccc).
Proof. vm_compute. reflexivity. Qed.

Lemma cccccc_not_empty : cccccc <> [].
Proof. discriminate. Qed.

Lemma decoder_checks_only_the_total_witness :
  unsigned_values (buildFrequencyTable aaabbc) /\
  (forall s, s ∈ cccccc -> is_Some (buildFrequencyTable aaabbc !! s)) /\
  @totalChars_of signed_char_platform (buildFrequencyTable aaabbc)
  = Z.of_nat (length cccccc) /\
  cccccc <> [] /\
  exists treeRoot,
    @buildHuffmanTree signed_char_platform list_queue
      (buildFrequencyTable aaabbc) = Some treeRoot /\
    succeeds_with cccccc
      (@decompress signed_char_platform list_queue zeroed
         (@writeHeader signed_char_platform (buildFrequencyTable aaabbc) ++
          @writeCompressedData signed_char_platform
            (generateCodes treeRoot "" ∅) cccccc)).
Proof.
  split; [exact (buildFrequencyTable_unsigned aaabbc)|].
  split; [exact cccccc_in_table|]. split; [exact cccccc_total|].
  split; [exact cccccc_not_empty|].
  exact (@decoder_checks_only_the_total signed_char_platform list_queue zeroed
           (buildFrequencyTable aaabbc) cccccc
           (buildFrequencyTable_unsigned aaabbc) cccccc_in_table
           cccccc_total cccccc_not_empty).
Defined.

Lemma x40_bits :
  flat_map (@bits_of_byte signed_char_platform) [x40]
  = repeat false 1 ++ true :: false :: repeat false 5.
Proof. vm_compute. reflexivity. Qed.

Lemma stray_one_bit_crashes_decoder_witness :
  0 <= 2 < 2 ^ 32 /\ Z.of_nat 1 < 2 /\
  flat_map (@bits_of_byte signed_char_platform) [x40]
  = repeat false 1 ++ true :: false :: repeat false 5 /\
  @decompress signed_char_platform list_queue zeroed
    (@writeHeader signed_char_platform {["a"%byte := 2]} ++ [x40])
  = None.
Proof.
  assert (0 <= 2 < 2 ^ 32) as Hf by (split; [discriminate|reflexivity]).
  assert (Z.of_nat 1 < 2) as Hi by reflexivity.
  split; [exact Hf|]. split; [exact Hi|]. split; [exact x40_bits|].
  exact (@stray_one_bit_crashes_decoder signed_char_platform list_queue
           zeroed "a"%byte 2 1%nat false (repeat false 5) [x40]
           Hf Hi x40_bits).
Defined.

Lemma main_invalid_command :
  @main signed_char_platform list_queue zeroed
    ["huffman"; "x"; "in"; "out"]%string one_file
  = Some (1, invalid_command, one_file).
Proof. reflexivity. Qed.

Lemma main_exit_status_witness :
  @main signed_char_platform list_queue zeroed
    ["huffman"; "x"; "in"; "out"]%string one_file
  = Some (1, invalid_command, one_file) /\
  (1 = 1 <->
   length ["huffman"; "x"; "in"; "out"]%string <> 4%nat \/
   nth 1 ["huffman"; "x"; "in"; "out"]%string ""%string
     ∉ ["c"; "compress"; "d"; "decompress"]%string) /\
  (1 <> 1 -> 1 = 0) /\
  (1 = 1 -> one_file = one_file /\ cout_lines invalid_command = showUsage).
Proof.
  split; [exact main_invalid_command|].
  exact (@main_exit_status signed_char_platform list_queue zeroed
           ["huffman"; "x"; "in"; "out"]%string one_file one_file
           1 invalid_command main_invalid_command).
Defined.

Lemma c_is_a_command :
  "c"%string ∈ ["c"; "compress"; "d"; "decompress"]%string.
Proof. apply elem_of_cons. by left. Qed.

Lemma one_file_has_no_other :
  files one_file !! "missing"%string = None \/
  writable one_file "out"%string = false.
Proof. left. reflexivity. Qed.

Lemma main_file_errors_exit_0_witness :
  "c"%string ∈ ["c"; "compress"; "d"; "decompress"]%string /\
  (files one_file !! "missing"%string = None \/
   writable one_file "out"%string = false) /\
  @main signed_char_platform list_queue zeroed
    ["huffman"; "c"; "missing"; "out"]%string one_file
  = Some (0,
          {| cout_lines := [];
             cerr_lines :=
               [match files one_file !! "missing"%string with
                | None => "Error: Could not open input file: " +:+ "missing"
                | Some _ => "Error: Could not open output file: " +:+ "out"
                end]%string |},
          one_file).
Proof.
  split; [exact c_is_a_command|]. split; [exact one_file_has_no_other|].
  exact (@main_file_errors_exit_0 signed_char_platform list_queue zeroed
           "huffman" "c" "missing" "out" one_file
           c_is_a_command one_file_has_no_other).
Defined.

Lemma c_compresses : "c"%string ∈ ["c"; "compress"]%string.
Proof. apply elem_of_cons. by left. Qed.

Lemma d_decompresses : "d"%string ∈ ["d"; "decompress"]%string.
Proof. apply elem_of_cons. by left. Qed.

Lemma one_file_in : files one_file !! "in"%string = Some aaabbc.
Proof. reflexivity. Qed.

Lemma command_line_round_trip_witness :
  "c"%string ∈ ["c"; "compress"]%string /\
  "d"%string ∈ ["d"; "decompress"]%string /\
  files one_file !! "in"%string = Some aaabbc /\ aaabbc <> [] /\
  counters_fit aaabbc /\
  writable one_file "packed"%string = true /\
  writable one_file "out"%string = true /\
  "in"%string <> "packed"%string /\ "packed"%string <> "out"%string /\
  exists con1 fs1 con2 fs2,
    @main signed_char_platform list_queue zeroed
      ["huffman"; "c"; "in"; "packed"]%string one_file
    = Some (0, con1, fs1) /\
    @main signed_char_platform list_queue zeroed
      ["huffman"; "d"; "packed"; "out"]%string fs1
    = Some (0, con2, fs2) /\
    cerr_lines con1 = [] /\ cerr_lines con2 = [] /\
    files fs2 !! "out"%string = Some aaabbc /\
    (forall p, p <> "packed"%string -> p <> "out"%string ->
               files fs2 !! p = files one_file !! p).
Proof.
  assert ("in"%string <> "packed"%string) as Hab by discriminate.
  assert ("packed"%string <> "out"%string) as Hbc by discriminate.
  split; [exact c_compresses|]. split; [exact d_decompresses|].
  split; [exact one_file_in|]. split; [exact aaabbc_not_empty|].
  split; [exact aaabbc_fits|].
  split; [reflexivity|]. split; [reflexivity|].
  split; [exact Hab|]. split; [exact Hbc|].
  exact (@command_line_round_trip signed_char_platform list_queue zeroed
           "huffman" "huffman" "c" "d" "in" "packed" "out" aaabbc one_file
           c_compresses d_decompresses one_file_in aaabbc_not_empty
           aaabbc_fits eq_refl eq_refl Hab Hbc).
Defined.

Lemma compress_onto_itself_empties_the_file_witness :
  "c"%string ∈ ["c"; "compress"]%string /\
  files one_file !! "in"%string = Some aaabbc /\
  writable one_file "in"%string = true /\
  exists fs',
    @main signed_char_platform list_queue zeroed
      ["huffman"; "c"; "in"; "in"]%string one_file
    = Some (0,
            {| cout_lines :=
                 ["Building frequency table...";
                  "Input file is empty. Creating an empty compressed file."]
                 %string;
               cerr_lines := [] |},
            fs') /\
    files fs' = <["in"%string := []]> (files one_file).
Proof.
  split; [exact c_compresses|]. split; [exact one_file_in|].
  split; [reflexivity|].
  exact (@compress_onto_itself_empties_the_file signed_char_platform
           list_queue zeroed "huffman" "c" "in" aaabbc one_file
           c_compresses one_file_in eq_refl).
Defined.

Lemma aaabbc_total_fits :
  @totalChars_of signed_char_platform (buildFrequencyTable aaabbc) < 2 ^ 32.
Proof. vm_compute. reflexivity. Qed.

Lemma another_tree_symbols :
  (paths another_tree).*1
  ≡ₚ (@map_items signed_char_platform _ (buildFrequencyTable aaabbc)).*1.
Proof. vm_compute. reflexivity. Qed.

Lemma another_tree_codes :
  forall c p, (c, p) ∈ paths another_tree -> p <> [].
Proof.
  intros c p Hin.
  change (paths another_tree)
    with [("a"%byte, [false; false]); ("b"%byte, [false; true]);
          ("c"%byte, [true])] in Hin.
  repeat (apply elem_of_cons in Hin as [[= -> ->]|Hin]); try done.
  by apply elem_of_nil in Hin.
Qed.

Lemma huffman_tree_has_least_length_witness :
  unsigned_values (buildFrequencyTable aaabbc) /\
  @totalChars_of signed_char_platform (buildFrequencyTable aaabbc) < 2 ^ 32 /\
  exists root,
    @buildHuffmanTree signed_char_platform list_queue
      (buildFrequencyTable aaabbc) = Some root /\
    weighted_length (count_in (buildFrequencyTable aaabbc)) root
    <= weighted_length (count_in (buildFrequencyTable aaabbc)) another_tree.
Proof.
  split; [exact (buildFrequencyTable_unsigned aaabbc)|].
  split; [exact aaabbc_total_fits|].
  destruct (@huffman_tree_has_least_length signed_char_platform list_queue
              (buildFrequencyTable aaabbc)
              (buildFrequencyTable_unsigned aaabbc) aaabbc_total_fits)
    as (root & Hbuild & Hleast).
  exists root. split; [exact Hbuild|].
  exact (Hleast another_tree another_tree_symbols another_tree_codes).
Defined.

Lemma aaabbc_short : Z.of_nat (length aaabbc) < 2 ^ 32.
Proof. reflexivity. Qed.

Lemma compress_output_is_shortest_witness :
  aaabbc <> [] /\ Z.of_nat (length aaabbc) < 2 ^ 32 /\
  exists root r,
    @buildHuffmanTree signed_char_platform list_queue
      (buildFrequencyTable aaabbc) = Some root /\
    @compress signed_char_platform list_queue aaabbc = Some r /\
    forall other,
      (paths other).*1
      ≡ₚ (@map_items signed_char_platform _ (buildFrequencyTable aaabbc)).*1 ->
      (forall c p, (c, p) ∈ paths other -> p <> []) ->
      (length (encode (generateCodes root "" ∅) aaabbc)
       <= length (encode (generateCodes other "" ∅) aaabbc))%nat /\
      (length (written r)
       <= length (@writeHeader signed_char_platform
                    (buildFrequencyTable aaabbc) ++
                  @writeCompressedData signed_char_platform
                    (generateCodes other "" ∅) aaabbc))%nat.
Proof.
  split; [exact aaabbc_not_empty|]. split; [exact aaabbc_short|].
  exact (@compress_output_is_shortest signed_char_platform list_queue aaabbc
           aaabbc_not_empty aaabbc_short).
Defined.

Lemma compress_expands_by_the_header_at_most_witness :
  Z.of_nat (length aaabbc) < 2 ^ 32 /\
  exists r,
    @compress signed_char_platform list_queue aaabbc = Some r /\
    (length (written r)
     <= 8 + 5 * size (buildFrequencyTable aaabbc) + length aaabbc)%nat /\
    (length (written r) <= 1288 + length aaabbc)%nat.
Proof.
  split; [exact aaabbc_short|].
  exact (@compress_expands_by_the_header_at_most signed_char_platform
           list_queue aaabbc aaabbc_short).
Defined.
